(** * go_localstack: the Localstack lifecycle controller, embedded in Rocq

    A shallow embedding of [pkg/localstack/localstack.go] and
    [pkg/localstack/localstackService.go], together with the older copy of
    [localstack.go] that the repository still carries.

    Conventions.
    - A Go [string] is a sequence of bytes: Rocq's [string].
    - A Go [error] is identified with the text its [Error()] method returns;
      [nil] is [None].
    - A Go pointer that the code may receive as [nil] is an [option].
    - A Go [int] holding a port number is a [Z]. *)

From Stdlib Require Import String Ascii List ZArith NArith Lia Bool Arith.
From Stdlib Require Import DecimalString Permutation Sorted.
Import ListNotations.
Local Open Scope list_scope.
Local Open Scope string_scope.

Set Implicit Arguments.

(* ================================================================== *)
(** * Go standard library: the pieces the package calls                 *)
(* ================================================================== *)

Definition error := string.

(** [fmt]'s verb [%d] on an [int]. *)
Definition fmt_d (n : Z) : string := NilZero.string_of_int (Z.to_int n).

(** [strings.Join(elems, sep)]. *)
Definition strings_Join (elems : list string) (sep : string) : string :=
  String.concat sep elems.

(** [strings.Contains(s, substr)]: [substr] occurs at some offset of [s]. *)
Fixpoint strings_Contains (s substr : string) : bool :=
  String.prefix substr s ||
  match s with
  | EmptyString => false
  | String _ s' => strings_Contains s' substr
  end.

(** ** [strings.TrimSpace]

    [TrimSpace] removes, first from the front and then from the back, every
    rune for which [unicode.IsSpace] holds.  On the bytes of a string those
    runes are exactly the UTF-8 encodings below: an ill-formed or over-long
    sequence decodes to [utf8.RuneError], which is not a space and stops the
    trimming. *)

Definition bytes (codes : list nat) : string :=
  string_of_list_ascii (map ascii_of_nat codes).

Definition space_runes : list string :=
  [ bytes [9]; bytes [10]; bytes [11]; bytes [12]; bytes [13]; bytes [32];
    bytes [194; 133];                 (* U+0085 *)
    bytes [194; 160];                 (* U+00A0 *)
    bytes [225; 154; 128];            (* U+1680 *)
    bytes [226; 128; 128]; bytes [226; 128; 129]; bytes [226; 128; 130];
    bytes [226; 128; 131]; bytes [226; 128; 132]; bytes [226; 128; 133];
    bytes [226; 128; 134]; bytes [226; 128; 135]; bytes [226; 128; 136];
    bytes [226; 128; 137]; bytes [226; 128; 138];   (* U+2000 .. U+200A *)
    bytes [226; 128; 168]; bytes [226; 128; 169];   (* U+2028, U+2029 *)
    bytes [226; 128; 175];            (* U+202F *)
    bytes [226; 129; 159];            (* U+205F *)
    bytes [227; 128; 128] ].          (* U+3000 *)

Definition string_rev (s : string) : string :=
  string_of_list_ascii (rev (list_ascii_of_string s)).

(** [strip_prefix p s]: what follows [p] in [s], when [s] starts with [p]. *)
Fixpoint strip_prefix (p s : string) : option string :=
  match p, s with
  | EmptyString, _ => Some s
  | String _ _, EmptyString => None
  | String a p', String b s' =>
      if Ascii.eqb a b then strip_prefix p' s' else None
  end.

Fixpoint strip_first (runes : list string) (s : string) : option string :=
  match runes with
  | [] => None
  | r :: rest =>
      match strip_prefix r s with
      | Some s' => Some s'
      | None => strip_first rest s
      end
  end.

(** Strip leading runes of [runes] for as long as there is one; every rune
    is at least one byte long, so [String.length s] rounds are enough. *)
Fixpoint trim_runes (runes : list string) (fuel : nat) (s : string) : string :=
  match fuel with
  | O => s
  | S fuel' =>
      match strip_first runes s with
      | Some s' => trim_runes runes fuel' s'
      | None => s
      end
  end.

Definition TrimLeftSpace (s : string) : string :=
  trim_runes space_runes (String.length s) s.

Definition TrimRightSpace (s : string) : string :=
  string_rev
    (trim_runes (map string_rev space_runes) (String.length s) (string_rev s)).

Definition strings_TrimSpace (s : string) : string :=
  TrimRightSpace (TrimLeftSpace s).

(** ** [bufio.Scanner] with the default split function [bufio.ScanLines]

    [Scan] yields the input line by line: a line ends at ['\n'] (or at the
    end of the input, when bytes remain), and one trailing ['\r'] is dropped
    from it.  The scanner's buffer holds at most [MaxScanTokenSize] bytes: a
    line with that many bytes before its line feed does not fit, [Scan]
    returns false for good and [Err] reports [ErrTooLong]. *)

Definition MaxScanTokenSize : nat := (64 * 1024)%nat.

Definition ErrTooLong : error := "bufio.Scanner: token too long".

Definition LF : ascii := "010"%char.
Definition CR : ascii := "013"%char.

(** The input cut at every line feed; the last piece is what follows the
    last line feed (possibly nothing). *)
Fixpoint split_lines (data : string) : list string :=
  match data with
  | EmptyString => [EmptyString]
  | String c rest =>
      if Ascii.eqb c LF then EmptyString :: split_lines rest
      else match split_lines rest with
           | line :: lines => String c line :: lines
           | [] => [String c EmptyString]
           end
  end.

Fixpoint dropCR (data : string) : string :=
  match data with
  | EmptyString => EmptyString
  | String c EmptyString => if Ascii.eqb c CR then EmptyString else data
  | String c rest => String c (dropCR rest)
  end.

(** The tokens that successive calls of [Scan] yield, and what [Err] reports
    once [Scan] has returned false. *)
Fixpoint scan_pieces (pieces : list string) : list string * option error :=
  match pieces with
  | [] => ([], None)
  | piece :: rest =>
      if Nat.leb MaxScanTokenSize (String.length piece) then ([], Some ErrTooLong)
      else
        match rest with
        | [] =>
            (* end of input: the final piece is a token only if non-empty *)
            match piece with
            | EmptyString => ([], None)
            | _ => ([dropCR piece], None)
            end
        | _ :: _ =>
            let (tokens, err) := scan_pieces rest in
            (dropCR piece :: tokens, err)
        end
  end.

Definition bufio_Scanner (buffer : string) : list string * option error :=
  scan_pieces (split_lines buffer).

(* ================================================================== *)
(** * localstackService.go                                              *)
(* ================================================================== *)

Record LocalstackService := {
  Name : string;
  Protocol : string;
  Port : Z
}.

(** [func (service *LocalstackService) Equals(rhs *LocalstackService) bool] *)
Definition Equals (service rhs : option LocalstackService) : bool :=
  match service, rhs with
  | None, None => true
  | None, Some _ | Some _, None => false
  | Some s, Some r =>
      String.eqb (Name s) (Name r) && String.eqb (Protocol s) (Protocol r)
      && Z.eqb (Port s) (Port r)
  end.

(** [fmt.Sprintf("%d/%s", service.Port, service.Protocol)] *)
Definition GetPortProtocol (service : LocalstackService) : string :=
  fmt_d (Port service) ++ "/" ++ Protocol service.

(** [fmt.Sprintf("%s:%d", service.Name, service.Port)] *)
Definition GetNamePort (service : LocalstackService) : string :=
  Name service ++ ":" ++ fmt_d (Port service).

(** The [services] slice literal of [NewLocalstackService], in source order. *)
Definition allowed_services : list string :=
  [ "apigateway"; "kinesis"; "dynamodb"; "dynamodbstreams"; "es"; "s3";
    "firehose"; "lambda"; "sns"; "sqs"; "redshift"; "ses"; "route53";
    "cloudformation"; "cloudwatch"; "ssm"; "secrestmanager"; "stepfunctions";
    "logs"; "sts"; "iam" ].

(** The [for _, n := range services] loop of [NewLocalstackService]. *)
Fixpoint NewLocalstackService_loop (services : list string) (name : string)
  : option LocalstackService * option error :=
  match services with
  | [] => (None, Some ("unknown Localstack Service: " ++ name))
  | n :: rest =>
      if String.eqb n name
      then (Some {| Name := name; Protocol := "tcp"; Port := 4566 |}, None)
      else NewLocalstackService_loop rest name
  end.

Definition NewLocalstackService (name : string)
  : option LocalstackService * option error :=
  NewLocalstackService_loop allowed_services name.

(** [type LocalstackServiceCollection []LocalstackService] *)
Definition LocalstackServiceCollection := list LocalstackService.

(** A collection whose elements all came out of [NewLocalstackService]. *)
Definition built_from_constructor (services : LocalstackServiceCollection)
  : Prop :=
  Forall (fun service =>
            exists name, NewLocalstackService name = (Some service, None))
         services.

Definition GetServiceMap (collection : LocalstackServiceCollection) : string :=
  strings_Join (map GetNamePort collection) ",".

Fixpoint Contains (collection : LocalstackServiceCollection) (name : string)
  : bool :=
  match collection with
  | [] => false
  | value :: rest =>
      if String.eqb (Name value) name then true else Contains rest name
  end.


(* ================================================================== *)
(** * The container engine: [docker], [dockertest] and the adapter      *)
(* ================================================================== *)

Module docker.

Record ListContainersOptions := { All : bool }.

(** [docker.APIContainers], the fields [getLocalstack] reads. *)
Record APIContainers := {
  ID : string;
  Image : string;
  Names : list string
}.

Record PortBinding := { HostIP : string; HostPort : string }.

Module Container.
(** [docker.Container]; the package reads its [ID] only. *)
Record t := { ID : string }.
End Container.

(** [docker.LogsOptions]; [OutputStream] is the buffer the log is written
    to, which the model returns from [Logs]. *)
Record LogsOptions := {
  Container : string;
  RawTerminal : bool;
  Stdout : bool;
  Stderr : bool
}.

End docker.

Module dockertest.

Record Resource := { Container : option docker.Container.t }.

Record RunOptions := {
  Repository : string;
  Tag : string;
  Name : string;
  Env : list string;
  Mounts : list string;
  PortBindings : list (string * list docker.PortBinding);
  ExposedPorts : list string
}.

(** Assignments to a field of an options value: [options.Env = ...]. *)
Definition set_Env (o : RunOptions) (env : list string) : RunOptions :=
  {| Repository := Repository o; Tag := Tag o; Name := Name o;
     Env := env; Mounts := Mounts o;
     PortBindings := PortBindings o; ExposedPorts := ExposedPorts o |}.

Definition set_Mounts (o : RunOptions) (mounts : list string) : RunOptions :=
  {| Repository := Repository o; Tag := Tag o; Name := Name o;
     Env := Env o; Mounts := mounts;
     PortBindings := PortBindings o; ExposedPorts := ExposedPorts o |}.

End dockertest.

(** What a call of the readiness closure finds outside the program: the
    result of [docker.NewClientFromEnv()] and, for that client, what
    [client.Logs] writes to the output stream and returns. *)
Record DockerEnv := {
  NewClientFromEnv : option error;
  Logs : docker.LogsOptions -> string * option error
}.

(** A call of a [func() error]: it returns an error value or panics. *)
Inductive outcome :=
| Returns (err : option error)
| Panics.

Definition check_func := DockerEnv -> outcome.

(** ** The [DockerWrapper] interface

    Its declaration is not among the files of the package; the four methods
    and their types are those of the calls in [localstack.go] and of the
    mock the tests drive.  A program over the interface is a tree whose
    nodes are the calls it makes and whose edges are the values the adapter
    answers with; an adapter is any state machine giving the answers. *)

Inductive Prog (A : Type) : Type :=
| Return (a : A)
| ListContainers (opts : docker.ListContainersOptions)
    (k : list docker.APIContainers * option error -> Prog A)
| InspectContainer (id : string)
    (k : option docker.Container.t * option error -> Prog A)
| RunWithOptions (opts : dockertest.RunOptions)
    (k : option dockertest.Resource * option error -> Prog A)
| Retry (op : check_func) (k : option error -> Prog A).

Arguments Return {A} a.
Arguments ListContainers {A} opts k.
Arguments InspectContainer {A} id k.
Arguments RunWithOptions {A} opts k.
Arguments Retry {A} op k.

Fixpoint bind {A B : Type} (p : Prog A) (f : A -> Prog B) : Prog B :=
  match p with
  | Return a => f a
  | ListContainers opts k => ListContainers opts (fun r => bind (k r) f)
  | InspectContainer id k => InspectContainer id (fun r => bind (k r) f)
  | RunWithOptions opts k => RunWithOptions opts (fun r => bind (k r) f)
  | Retry op k => Retry op (fun r => bind (k r) f)
  end.

Notation "' pat <- c1 ;; c2" :=
  (bind c1 (fun x => match x with pat => c2 end))
  (at level 61, pat pattern, c1 at next level, right associativity).

(** An adapter with internal state [W]. *)
Record DockerWrapper (W : Type) := {
  doListContainers :
    docker.ListContainersOptions -> W ->
    (list docker.APIContainers * option error) * W;
  doInspectContainer :
    string -> W -> (option docker.Container.t * option error) * W;
  doRunWithOptions :
    dockertest.RunOptions -> W ->
    (option dockertest.Resource * option error) * W;
  doRetry : check_func -> W -> option error * W
}.

(** The calls a run makes, in order, each with the adapter's answer. *)
Inductive Call :=
| CallListContainers (opts : docker.ListContainersOptions)
    (answer : list docker.APIContainers * option error)
| CallInspectContainer (id : string)
    (answer : option docker.Container.t * option error)
| CallRunWithOptions (opts : dockertest.RunOptions)
    (answer : option dockertest.Resource * option error)
| CallRetry (op : check_func) (answer : option error).

Fixpoint run {W A : Type} (d : DockerWrapper W) (p : Prog A) (w : W)
  : list Call * A * W :=
  match p with
  | Return a => ([], a, w)
  | ListContainers opts k =>
      let (r, w1) := doListContainers d opts w in
      let '(calls, a, w2) := run d (k r) w1 in
      (CallListContainers opts r :: calls, a, w2)
  | InspectContainer id k =>
      let (r, w1) := doInspectContainer d id w in
      let '(calls, a, w2) := run d (k r) w1 in
      (CallInspectContainer id r :: calls, a, w2)
  | RunWithOptions opts k =>
      let (r, w1) := doRunWithOptions d opts w in
      let '(calls, a, w2) := run d (k r) w1 in
      (CallRunWithOptions opts r :: calls, a, w2)
  | Retry op k =>
      let (r, w1) := doRetry d op w in
      let '(calls, a, w2) := run d (k r) w1 in
      (CallRetry op r :: calls, a, w2)
  end.

Definition calls_of {W A : Type} (d : DockerWrapper W) (p : Prog A) (w : W)
  : list Call := fst (fst (run d p w)).

Definition result_of {W A : Type} (d : DockerWrapper W) (p : Prog A) (w : W)
  : A := snd (fst (run d p w)).

(** The answers to the [Retry] calls of a run, in order. *)
Fixpoint retry_answers (calls : list Call) : list (option error) :=
  match calls with
  | [] => []
  | CallRetry _ answer :: rest => answer :: retry_answers rest
  | _ :: rest => retry_answers rest
  end.

(** The closures handed to [Retry], in order. *)
Fixpoint retry_ops (calls : list Call) : list check_func :=
  match calls with
  | [] => []
  | CallRetry op _ :: rest => op :: retry_ops rest
  | _ :: rest => retry_ops rest
  end.

(** The options of the [RunWithOptions] calls of a run, in order. *)
Fixpoint run_options (calls : list Call) : list dockertest.RunOptions :=
  match calls with
  | [] => []
  | CallRunWithOptions opts _ :: rest => opts :: run_options rest
  | _ :: rest => run_options rest
  end.

(** The container ids passed to [InspectContainer], in order. *)
Fixpoint inspected_ids (calls : list Call) : list string :=
  match calls with
  | [] => []
  | CallInspectContainer id _ :: rest => id :: inspected_ids rest
  | _ :: rest => inspected_ids rest
  end.

(** ** A scripted adapter

    The stand-in the tests use: every method answers from a script, and
    [Retry] consumes one scripted answer per call (answering [nil] once the
    script is used up); no closure is ever run. *)
Record Script := {
  listing : list docker.APIContainers * option error;
  inspecting : option docker.Container.t * option error;
  running : option dockertest.Resource * option error;
  retries : list (option error)
}.

Definition MockDockerWrapper : DockerWrapper Script :=
  {| doListContainers := fun _ s => (listing s, s);
     doInspectContainer := fun _ s => (inspecting s, s);
     doRunWithOptions := fun _ s => (running s, s);
     doRetry := fun _ s =>
       match retries s with
       | [] => (None, s)
       | answer :: rest =>
           (answer,
            {| listing := listing s; inspecting := inspecting s;
               running := running s; retries := rest |})
       end |}.

(* ================================================================== *)
(** * localstack.go                                                     *)
(* ================================================================== *)

Definition LocalstackRepository : string := "localstack/localstack".
Definition LocalstackTag : string := "0.11.5".

(** [type Localstack struct].  [Services] is a pointer to the caller's
    collection; the model holds the collection it points to. *)
Record Localstack := {
  Resource : option dockertest.Resource;
  Services : LocalstackServiceCollection
}.

(** ** The readiness closure handed to [Retry] *)

Definition expected : string := "Ready.".

(** The [for scanner.Scan()] loop: true when it returns [nil] from inside. *)
Definition ready_line (text : string) : bool :=
  let token := strings_TrimSpace text in
  strings_Contains (strings_TrimSpace token) expected.

Definition readiness (localstack : option dockertest.Resource) : check_func :=
  fun env =>
    match NewClientFromEnv env with
    | Some err => Returns (Some ("unable to create a docker client: " ++ err))
    | None =>
        (* [localstack.Container.ID] dereferences both pointers *)
        match localstack with
        | None => Panics
        | Some resource =>
            match dockertest.Container resource with
            | None => Panics
            | Some container =>
                let logsOptions :=
                  {| docker.Container := docker.Container.ID container;
                     docker.RawTerminal := true;
                     docker.Stdout := true;
                     docker.Stderr := true |} in
                let (buffer, err) := Logs env logsOptions in
                match err with
                | Some err =>
                    Returns (Some ("unable to retrieve logs for container "
                                   ++ docker.Container.ID container
                                   ++ ": " ++ err))
                | None =>
                    let (tokens, scanErr) := bufio_Scanner buffer in
                    if existsb ready_line tokens then Returns None
                    else
                      match scanErr with
                      | Some err => Returns (Some ("reading input: " ++ err))
                      | None => Returns (Some "not Ready")
                      end
                end
            end
        end
    end.

(** ** [getLocalstack] *)

Definition found := option dockertest.Resource.

(** What follows [dockerWrapper.InspectContainer(c.ID)]. *)
Definition inspected (c : docker.APIContainers)
    (answer : option docker.Container.t * option error)
  : Prog (found * option error) :=
  let '(container, err) := answer in
  match err with
  | Some err =>
      Return (None, Some ("unable to inspect container "
                          ++ docker.ID c ++ ": " ++ err))
  | None => Return (Some {| dockertest.Container := container |}, None)
  end.

(** The inner loop [for _, internalName := range c.Names]; [next] is the
    rest of the outer loop. *)
Fixpoint getLocalstack_names (c : docker.APIContainers) (names : list string)
    (name : string) (next : Prog (found * option error))
  : Prog (found * option error) :=
  match names with
  | [] => next
  | internalName :: rest =>
      if String.eqb internalName ("/" ++ name)
      then InspectContainer (docker.ID c) (inspected c)
      else getLocalstack_names c rest name next
  end.

(** The outer loop [for _, c := range containers]. *)
Fixpoint getLocalstack_containers (containers : list docker.APIContainers)
    (name repository tag : string) : Prog (found * option error) :=
  match containers with
  | [] => Return (None, None)
  | c :: rest =>
      let next := getLocalstack_containers rest name repository tag in
      if String.eqb (docker.Image c) (repository ++ ":" ++ tag)
      then getLocalstack_names c (docker.Names c) name next
      else next
  end.

(** What follows [dockerWrapper.ListContainers(...)]. *)
Definition listed (name repository tag : string)
    (answer : list docker.APIContainers * option error)
  : Prog (found * option error) :=
  let '(containers, err) := answer in
  match err with
  | Some err =>
      Return (None, Some ("unable to retrieve docker containers: " ++ err))
  | None => getLocalstack_containers containers name repository tag
  end.

Definition getLocalstack (_ : LocalstackServiceCollection)
    (name repository tag : string) : Prog (found * option error) :=
  if negb (String.eqb name "")
  then ListContainers {| docker.All := true |} (listed name repository tag)
  else Return (None, None).

(** A listed container is the one looked for: its image is exactly
    [repository:tag] and one of its names is [/name]. *)
Definition matches (name repository tag : string) (c : docker.APIContainers)
  : Prop :=
  docker.Image c = repository ++ ":" ++ tag
  /\ In ("/" ++ name) (docker.Names c).

(** A program that only lists and inspects, and ends with a resource, with
    nothing, or with an error and no resource. *)
Definition discovery_shaped {W : Type} (d : DockerWrapper W)
    (p : Prog (found * option error)) : Prop :=
  forall w : W,
    let calls := calls_of d p w in
    let r := result_of d p w in
    retry_answers calls = [] /\ retry_ops calls = []
    /\ run_options calls = []
    /\ (r = (None, None)
        \/ (exists resource, r = (Some resource, None))
        \/ (exists e, r = (None, Some e))).

(** ** [newPersistentLocalstack] *)

(** The loop [for _, service := range *services] and the final [return]. *)
Fixpoint waitForServices (localstack : option dockertest.Resource)
    (services : LocalstackServiceCollection)
    (remaining : list LocalstackService)
  : Prog (option Localstack * option error) :=
  match remaining with
  | [] =>
      Return (Some {| Resource := localstack; Services := services |}, None)
  | service :: rest =>
      Retry (readiness localstack) (fun err =>
        match err with
        | Some err =>
            Return (None, Some ("unable to connect to " ++ Name service
                                ++ ": " ++ err))
        | None => waitForServices localstack services rest
        end)
  end.

Definition runOptions (services : LocalstackServiceCollection)
    (name repository tag data : string) : dockertest.RunOptions :=
  let options :=
    {| dockertest.Repository := repository;
       dockertest.Tag := tag;
       dockertest.Name := name;
       dockertest.Env := ["SERVICES=" ++ GetServiceMap services];
       dockertest.Mounts := [];
       dockertest.PortBindings := [];
       dockertest.ExposedPorts := [] |} in
  if Nat.ltb 0 (String.length data) then
    let options :=
      dockertest.set_Env options
        (dockertest.Env options ++ [("DATA_DIR=" ++ data)%string])%list in
    dockertest.set_Mounts options ["/tmp/localstack/data:/tmp/localstack/data"]
  else options.

(** What follows [wrapper.RunWithOptions(options)]. *)
Definition started (services : LocalstackServiceCollection)
    (answer : option dockertest.Resource * option error)
  : Prog (option Localstack * option error) :=
  let '(localstack, err) := answer in
  match err with
  | Some err => Return (None, Some ("could not start resource: " ++ err))
  | None => waitForServices localstack services services
  end.

(** What follows the call of [getLocalstack]. *)
Definition resolved (services : LocalstackServiceCollection)
    (name repository tag data : string) (answer : found * option error)
  : Prog (option Localstack * option error) :=
  let '(localstack, err) := answer in
  match err with
  | Some err => Return (None, Some err)
  | None =>
      match localstack with
      | None =>
          let options := runOptions services name repository tag data in
          RunWithOptions options (started services)
      | Some _ => waitForServices localstack services services
      end
  end.

Definition newPersistentLocalstack (services : LocalstackServiceCollection)
    (name repository tag data : string)
  : Prog (option Localstack * option error) :=
  bind (getLocalstack services name repository tag)
       (resolved services name repository tag data).

Definition newLocalstack (services : LocalstackServiceCollection)
    (name repository tag : string) :=
  newPersistentLocalstack services name repository tag "".

(** The exported constructors run the same program on the production
    adapter [&_DockerWrapper{}]. *)
Definition NewPersistentSpecificLocalstack
    (services : LocalstackServiceCollection)
    (name repository tag data : string) :=
  newPersistentLocalstack services name repository tag data.

Definition NewSpecificLocalstack (services : LocalstackServiceCollection)
    (name repository tag : string) :=
  NewPersistentSpecificLocalstack services name repository tag "".

Definition NewLocalstack (services : LocalstackServiceCollection) :=
  NewSpecificLocalstack services "" LocalstackRepository "latest".

Definition NewPersistentLocalstack (services : LocalstackServiceCollection)
    (data : string) :=
  NewPersistentSpecificLocalstack services "" LocalstackRepository "latest"
    data.

Definition NewNamedPersistentLocalstack
    (services : LocalstackServiceCollection) (name data : string) :=
  NewPersistentSpecificLocalstack services name LocalstackRepository "latest"
    data.

(** ** [EndpointFor] and [CreateAWSSession] *)

Module endpoints.

Record ResolvedEndpoint := {
  URL : string;
  PartitionID : string;
  SigningRegion : string;
  SigningName : string;
  SigningNameDerived : bool;
  SigningMethod : string
}.

End endpoints.

(** The map literal [availableServices] of [EndpointFor]: SDK service
    identifier, then descriptor name. *)
Definition availableServices : list (string * string) :=
  [ ("apigateway", "apigateway");
    ("kinesis", "kinesis");
    ("dynamodb", "dynamodb");
    ("streams.dynamodb", "dynamodbstreams");
    ("es", "es");
    ("s3", "s3");
    ("firehose", "firehose");
    ("lambda", "lambda");
    ("sns", "sns");
    ("sqs", "sqs");
    ("redshift", "redshift");
    ("email", "ses");
    ("route53", "route53");
    ("cloudformation", "cloudformation");
    ("monitoring", "cloudwatch");
    ("ssm", "ssm");
    ("secretsmanager", "secretsmanager");
    ("states", "stepfunctions");
    ("logs", "logs");
    ("sts", "sts");
    ("iam", "iam") ].

(** A Go map read [m[key]]: the zero value when [key] is absent. *)
Fixpoint map_index (m : list (string * string)) (key : string) : string :=
  match m with
  | [] => ""
  | (k, v) :: rest => if String.eqb k key then v else map_index rest key
  end.

Definition map_keys (m : list (string * string)) : list string :=
  map fst m.

(** What a call does: it returns a value, or it panics on dereferencing a
    nil pointer. *)
Inductive call (A : Type) : Type :=
| Returned (a : A)
| NilPanic.

Arguments Returned {A} a.
Arguments NilPanic {A}.

Section Resolver.

(** The element type of the variadic [optFns], functions on a pointer to
    [endpoints.Options]. *)
Variable OptFn : Type.

(** The method [GetHostPort] of [dockertest.Resource], on the resource a
    non-nil pointer points to: the method reads [r.Container] first, so a
    call on a nil pointer panics. *)
Variable GetHostPort : dockertest.Resource -> string -> string.

(** [endpoints.DefaultResolver().EndpointFor]. *)
Variable DefaultResolver_EndpointFor :
  string -> string -> list OptFn ->
  endpoints.ResolvedEndpoint * option error.

(** [endpoints.ResolvedEndpoint{URL: fmt.Sprintf("http://%s",
    ls.Resource.GetHostPort("4566/tcp"))}, nil]; with a nil [ls.Resource]
    the call of [GetHostPort] panics. *)
Definition localstack_endpoint (ls : Localstack)
  : call (endpoints.ResolvedEndpoint * option error) :=
  match Resource ls with
  | None => NilPanic
  | Some resource =>
      Returned
        ({| endpoints.URL := "http://" ++ GetHostPort resource "4566/tcp";
            endpoints.PartitionID := "";
            endpoints.SigningRegion := "";
            endpoints.SigningName := "";
            endpoints.SigningNameDerived := false;
            endpoints.SigningMethod := "" |}, None)
  end.

(** [for k := range availableServices], visiting the keys in the order
    [keys]; Go leaves the order of a map range unspecified. *)
Fixpoint EndpointFor_range (keys : list string) (ls : Localstack)
    (service region : string) (optFns : list OptFn)
  : call (endpoints.ResolvedEndpoint * option error) :=
  match keys with
  | [] => Returned (DefaultResolver_EndpointFor service region optFns)
  | k :: rest =>
      if String.eqb k service
         && Contains (Services ls) (map_index availableServices service)
      then localstack_endpoint ls
      else EndpointFor_range rest ls service region optFns
  end.

Definition EndpointFor (ls : Localstack) (service region : string)
    (optFns : list OptFn) :=
  EndpointFor_range (map_keys availableServices) ls service region optFns.

End Resolver.

Module credentials.
(** [credentials.NewStaticCredentials(id, secret, token)]. *)
Record Value := {
  AccessKeyID : string;
  SecretAccessKey : string;
  SessionToken : string
}.
Definition NewStaticCredentials (id secret token : string) : Value :=
  {| AccessKeyID := id; SecretAccessKey := secret; SessionToken := token |}.
End credentials.

Module aws.
(** The fields of [aws.Config] that [CreateAWSSession] sets; each is a
    pointer or an interface value, [None] when left unset.  The resolver
    is the handle itself, whose [EndpointFor] method the SDK calls. *)
Record Config := {
  Region : option string;
  EndpointResolver : option Localstack;
  DisableSSL : option bool;
  S3ForcePathStyle : option bool;
  Credentials : option credentials.Value
}.
End aws.

(** [session.Must(session.NewSession(cfg))]: the session is represented by
    the configuration it was created from. *)
Definition CreateAWSSession (ls : Localstack) : aws.Config :=
  {| aws.Region := Some "us-east-1";
     aws.EndpointResolver := Some ls;
     aws.DisableSSL := Some true;
     aws.S3ForcePathStyle := Some true;
     aws.Credentials := Some (credentials.NewStaticCredentials "a" "b" "c") |}.

(* ================================================================== *)
(** * The older copy of localstack.go                                   *)
(* ================================================================== *)

(** The repository also holds an earlier version of [localstack.go]; the
    functions below follow that file. *)
Module Legacy.

Definition Localstack_Repository : string := "localstack/localstack".
Definition Localstack_Tag : string := "0.11.5".

Definition readiness (localstack : option dockertest.Resource)
  : check_func :=
  fun env =>
    match NewClientFromEnv env with
    | Some err =>
        Returns (Some ("Unable to create a docker client: " ++ err))
    | None =>
        match localstack with
        | None => Panics
        | Some resource =>
            match dockertest.Container resource with
            | None => Panics
            | Some container =>
                let logsOptions :=
                  {| docker.Container := docker.Container.ID container;
                     docker.RawTerminal := true;
                     docker.Stdout := true;
                     docker.Stderr := true |} in
                let (buffer, err) := Logs env logsOptions in
                match err with
                | Some err =>
                    Returns (Some ("Unable to retrieve logs for container "
                                   ++ docker.Container.ID container
                                   ++ ": " ++ err))
                | None =>
                    let (tokens, scanErr) := bufio_Scanner buffer in
                    if existsb ready_line tokens then Returns None
                    else
                      match scanErr with
                      | Some err =>
                          Returns (Some ("Reading input: " ++ err))
                      | None => Returns (Some "Not Ready")
                      end
                end
            end
        end
    end.

Fixpoint getLocalstack_names (c : docker.APIContainers)
    (names : list string) (name : string)
    (next : Prog (found * option error)) : Prog (found * option error) :=
  match names with
  | [] => next
  | internalName :: rest =>
      if String.eqb internalName ("/" ++ name) then
        InspectContainer (docker.ID c) (fun '(container, err) =>
          match err with
          | Some err =>
              Return (None, Some ("Unable to inspect container "
                                  ++ docker.ID c ++ ": " ++ err))
          | None =>
              Return (Some {| dockertest.Container := container |}, None)
          end)
      else getLocalstack_names c rest name next
  end.

Fixpoint getLocalstack_containers (containers : list docker.APIContainers)
    (name repository tag : string) : Prog (found * option error) :=
  match containers with
  | [] => Return (None, None)
  | c :: rest =>
      let next := getLocalstack_containers rest name repository tag in
      if String.eqb (docker.Image c) (repository ++ ":" ++ tag)
      then getLocalstack_names c (docker.Names c) name next
      else next
  end.

Definition getLocalstack (_ : LocalstackServiceCollection)
    (name repository tag : string) : Prog (found * option error) :=
  if negb (String.eqb name "") then
    ListContainers {| docker.All := true |} (fun '(containers, err) =>
      match err with
      | Some err =>
          Return (None,
                  Some ("Unable to retrieve docker containers: " ++ err))
      | None => getLocalstack_containers containers name repository tag
      end)
  else Return (None, None).

Fixpoint waitForServices (localstack : option dockertest.Resource)
    (services : LocalstackServiceCollection)
    (remaining : list LocalstackService)
  : Prog (option Localstack * option error) :=
  match remaining with
  | [] =>
      Return (Some {| Resource := localstack; Services := services |}, None)
  | service :: rest =>
      Retry (readiness localstack) (fun err =>
        match err with
        | Some err =>
            Return (None, Some ("Unable to connect to " ++ Name service
                                ++ ": " ++ err))
        | None => waitForServices localstack services rest
        end)
  end.

Definition runOptions (services : LocalstackServiceCollection)
    (name repository tag data : string) : dockertest.RunOptions :=
  let options :=
    {| dockertest.Repository := repository;
       dockertest.Tag := tag;
       dockertest.Name := name;
       dockertest.Env := ["SERVICES=" ++ GetServiceMap services];
       dockertest.Mounts := [];
       dockertest.PortBindings :=
         [("4566", [{| docker.HostIP := ""; docker.HostPort := "4566" |}])];
       dockertest.ExposedPorts := ["4566"] |} in
  if Nat.ltb 0 (String.length data) then
    dockertest.set_Env options
      (dockertest.Env options ++ [("DATA_DIR=" ++ data)%string])%list
  else options.

Definition newPersistentLocalstack (services : LocalstackServiceCollection)
    (name repository tag data : string)
  : Prog (option Localstack * option error) :=
  '(localstack, err) <- getLocalstack services name repository tag ;;
  match err with
  | Some err => Return (None, Some err)
  | None =>
      match localstack with
      | None =>
          let options := runOptions services name repository tag data in
          RunWithOptions options (fun '(localstack, err) =>
            match err with
            | Some err =>
                Return (None, Some ("Could not start resource: " ++ err))
            | None => waitForServices localstack services services
            end)
      | Some _ => waitForServices localstack services services
      end
  end.

Definition NewPersistentSpecificLocalstack
    (services : LocalstackServiceCollection)
    (name repository tag data : string) :=
  newPersistentLocalstack services name repository tag data.

Definition NewSpecificLocalstack (services : LocalstackServiceCollection)
    (name repository tag : string) :=
  NewPersistentSpecificLocalstack services name repository tag "".

Definition NewLocalstack (services : LocalstackServiceCollection) :=
  NewSpecificLocalstack services "" Localstack_Repository "latest".

(** [data] is received and not passed on. *)
Definition NewPersistentLocalstack (services : LocalstackServiceCollection)
    (data : string) :=
  NewSpecificLocalstack services "" Localstack_Repository "latest".

(** The [services] slice literal of the older [EndpointFor]. *)
Definition resolved_services : list string :=
  [ "apigateway"; "kinesis"; "dynamodb"; "dynamodbstreams"; "es"; "s3";
    "firehose"; "lambda"; "sns"; "sqs"; "redshift"; "ses"; "route53";
    "cloudformation"; "cloudwatch"; "ssm"; "secretsmanager"; "stepfunctions";
    "logs"; "sts"; "iam" ].

Section Resolver.

Variable OptFn : Type.
Variable GetHostPort : dockertest.Resource -> string -> string.
Variable DefaultResolver_EndpointFor :
  string -> string -> list OptFn ->
  endpoints.ResolvedEndpoint * option error.

(** [for _, v := range services] *)
Fixpoint EndpointFor_range (services : list string) (l : Localstack)
    (service region : string) (optFns : list OptFn)
  : call (endpoints.ResolvedEndpoint * option error) :=
  match services with
  | [] => Returned (DefaultResolver_EndpointFor service region optFns)
  | v :: rest =>
      if String.eqb v service then localstack_endpoint GetHostPort l
      else EndpointFor_range rest l service region optFns
  end.

Definition EndpointFor (l : Localstack) (service region : string)
    (optFns : list OptFn) :=
  EndpointFor_range resolved_services l service region optFns.

End Resolver.

End Legacy.

(* ================================================================== *)
(** * Package [sort] and the collection's [sort.Interface]              *)
(* ================================================================== *)

(** [sort.Sort] as the Go releases of the package's time implement it
    (Go 1.11 to 1.18): quicksort with a median-of-three or ninther pivot,
    heapsort once the recursion is [maxDepth] deep, and for twelve elements
    or fewer one Shell pass with gap 6 followed by insertion sort.  The
    algorithm sees the data through [Len], [Less] and [Swap] only. *)
Module sort.

Class Interface (D : Type) := {
  Len : D -> nat;
  Less : D -> nat -> nat -> bool;
  Swap : D -> nat -> nat -> D
}.

Section Algorithm.

Context {D : Type} `{Interface D}.

(** [for j := i; j > a && data.Less(j, j-1); j-- { data.Swap(j, j-1) }] *)
Fixpoint insertionSort_inner (data : D) (a j : nat) : D :=
  match j with
  | O => data
  | S j' =>
      if Nat.ltb a j && Less data j j'
      then insertionSort_inner (Swap data j j') a j'
      else data
  end.

(** [for i := a + 1; i < b; i++], with [count] iterations left. *)
Fixpoint insertionSort_outer (data : D) (a i count : nat) : D :=
  match count with
  | O => data
  | S count' =>
      insertionSort_outer (insertionSort_inner data a i) a (S i) count'
  end.

Definition insertionSort (data : D) (a b : nat) : D :=
  insertionSort_outer data a (a + 1) (b - (a + 1)).

(** The loop of [siftDown]; [root] at least doubles every round. *)
Fixpoint siftDown_loop (fuel : nat) (data : D) (root hi first : nat) : D :=
  match fuel with
  | O => data
  | S fuel' =>
      let child := 2 * root + 1 in
      if Nat.leb hi child then data
      else
        let child :=
          if Nat.ltb (child + 1) hi
             && Less data (first + child) (first + child + 1)
          then child + 1 else child in
        if negb (Less data (first + root) (first + child)) then data
        else siftDown_loop fuel'
               (Swap data (first + root) (first + child)) child hi first
  end.

Definition siftDown (data : D) (lo hi first : nat) : D :=
  siftDown_loop hi data lo hi first.

(** [for i := (hi - 1) / 2; i >= 0; i--] *)
Fixpoint heapSort_build (data : D) (i hi first : nat) : D :=
  let data := siftDown data i hi first in
  match i with
  | O => data
  | S i' => heapSort_build data i' hi first
  end.

(** [for i := hi - 1; i >= 0; i--] *)
Fixpoint heapSort_pop (data : D) (i first : nat) : D :=
  let data := Swap data first (first + i) in
  let data := siftDown data 0 i first in
  match i with
  | O => data
  | S i' => heapSort_pop data i' first
  end.

Definition heapSort (data : D) (a b : nat) : D :=
  let first := a in
  let hi := b - a in
  if Nat.eqb hi 0 then data
  else
    let data := heapSort_build data ((hi - 1) / 2) hi first in
    heapSort_pop data (hi - 1) first.

Definition medianOfThree (data : D) (m1 m0 m2 : nat) : D :=
  let data := if Less data m1 m0 then Swap data m1 m0 else data in
  if Less data m2 m1 then
    let data := Swap data m2 m1 in
    if Less data m1 m0 then Swap data m1 m0 else data
  else data.

(** [for ; a < c && data.Less(a, pivot); a++ {}] *)
Fixpoint doPivot_skip_less (fuel : nat) (data : D) (pivot a c : nat)
  : nat :=
  match fuel with
  | O => a
  | S fuel' =>
      if Nat.ltb a c && Less data a pivot
      then doPivot_skip_less fuel' data pivot (S a) c
      else a
  end.

(** [for ; b < c && !data.Less(pivot, b); b++ {}] *)
Fixpoint doPivot_skip_le (fuel : nat) (data : D) (pivot b c : nat)
  : nat :=
  match fuel with
  | O => b
  | S fuel' =>
      if Nat.ltb b c && negb (Less data pivot b)
      then doPivot_skip_le fuel' data pivot (S b) c
      else b
  end.

(** [for ; b < c && data.Less(pivot, c-1); c-- {}] *)
Fixpoint doPivot_skip_greater (fuel : nat) (data : D) (pivot b c : nat)
  : nat :=
  match fuel with
  | O => c
  | S fuel' =>
      if Nat.ltb b c && Less data pivot (c - 1)
      then doPivot_skip_greater fuel' data pivot b (c - 1)
      else c
  end.

(** The partition loop: returns the data with the final [b] and [c]. *)
Fixpoint doPivot_partition (fuel : nat) (data : D) (pivot b c : nat)
  : D * nat * nat :=
  match fuel with
  | O => (data, b, c)
  | S fuel' =>
      let b := doPivot_skip_le (c - b) data pivot b c in
      let c := doPivot_skip_greater (c - b) data pivot b c in
      if Nat.leb c b then (data, b, c)
      else doPivot_partition fuel' (Swap data b (c - 1)) pivot
             (b + 1) (c - 1)
  end.

(** [for ; a < b && !data.Less(b-1, pivot); b-- {}] *)
Fixpoint doPivot_skip_equal (fuel : nat) (data : D) (pivot a b : nat)
  : nat :=
  match fuel with
  | O => b
  | S fuel' =>
      if Nat.ltb a b && negb (Less data (b - 1) pivot)
      then doPivot_skip_equal fuel' data pivot a (b - 1)
      else b
  end.

(** The loop that gathers the elements equal to the pivot. *)
Fixpoint doPivot_protect (fuel : nat) (data : D) (pivot a b : nat)
  : D * nat :=
  match fuel with
  | O => (data, b)
  | S fuel' =>
      let b := doPivot_skip_equal (b - a) data pivot a b in
      let a := doPivot_skip_less (b - a) data pivot a b in
      if Nat.leb b a then (data, b)
      else doPivot_protect fuel' (Swap data a (b - 1)) pivot
             (a + 1) (b - 1)
  end.

(** The choice of the pivot: for more than 40 elements Tukey's ninther,
    then the median of first, middle and last, which leaves the pivot at
    [lo] and an element not before it at [hi - 1]. *)
Definition doPivot_median (data : D) (lo hi : nat) : D :=
  let m := (lo + hi) / 2 in
  let data :=
    if Nat.ltb 40 (hi - lo) then
      let s := (hi - lo) / 8 in
      let data := medianOfThree data lo (lo + s) (lo + 2 * s) in
      let data := medianOfThree data m (m - s) (m + s) in
      medianOfThree data (hi - 1) (hi - 1 - s) (hi - 1 - 2 * s)
    else data in
  medianOfThree data lo m (hi - 1).

(** The test of three points for equality to the pivot, made when the part
    after the pivot is short: [if !protect && hi-c < (hi-lo)/4 { ... }].
    Returns the data, [b], [c] and [protect]. *)
Definition doPivot_dups (data : D) (pivot m lo hi b c : nat)
  : D * nat * nat * bool :=
  let protect := Nat.ltb (hi - c) 5 in
  if negb protect && Nat.ltb (hi - c) ((hi - lo) / 4) then
    let '(data, c, dups) :=
      if negb (Less data pivot (hi - 1))
      then (Swap data c (hi - 1), c + 1, 1)
      else (data, c, 0) in
    let '(b, dups) :=
      if negb (Less data (b - 1) pivot)
      then (b - 1, dups + 1)
      else (b, dups) in
    let '(data, b, dups) :=
      if negb (Less data m pivot)
      then (Swap data m (b - 1), b - 1, dups + 1)
      else (data, b, dups) in
    (data, b, c, Nat.ltb 1 dups)
  else (data, b, c, protect).

Definition doPivot (data : D) (lo hi : nat) : D * nat * nat :=
  let m := (lo + hi) / 2 in
  let data := doPivot_median data lo hi in
  let pivot := lo in
  let a := lo + 1 in
  let c := hi - 1 in
  let a := doPivot_skip_less (c - a) data pivot a c in
  let b := a in
  let '(data, b, c) := doPivot_partition (c - b + 1) data pivot b c in
  let '(data, b, c, protect) := doPivot_dups data pivot m lo hi b c in
  let '(data, b) :=
    if protect then doPivot_protect (b - a + 1) data pivot a b
    else (data, b) in
  let data := Swap data pivot (b - 1) in
  (data, b - 1, c).

(** The final branch of [quickSort], for [b - a <= 12]. *)
Fixpoint shellPass (data : D) (i count : nat) : D :=
  match count with
  | O => data
  | S count' =>
      let data := if Less data i (i - 6) then Swap data i (i - 6)
                  else data in
      shellPass data (S i) count'
  end.

Definition sortSmall (data : D) (a b : nat) : D :=
  if Nat.ltb 1 (b - a) then
    let data := shellPass data (a + 6) (b - (a + 6)) in
    insertionSort data a b
  else data.

(** [quickSort]; every round of its loop, and every recursive call,
    works on a strictly shorter range, so [fuel = b - a] suffices. *)
Fixpoint quickSort (fuel : nat) (data : D) (a b maxDepth : nat) : D :=
  match fuel with
  | O => sortSmall data a b
  | S fuel' =>
      if Nat.ltb 12 (b - a) then
        match maxDepth with
        | O => heapSort data a b
        | S maxDepth =>
            let '(data, mlo, mhi) := doPivot data a b in
            if Nat.ltb (mlo - a) (b - mhi) then
              let data := quickSort fuel' data a mlo maxDepth in
              quickSort fuel' data mhi b maxDepth
            else
              let data := quickSort fuel' data mhi b maxDepth in
              quickSort fuel' data a mlo maxDepth
        end
      else sortSmall data a b
  end.

(** [for i := n; i > 0; i >>= 1 { depth++ }; return depth * 2] *)
Definition maxDepth (n : nat) : nat :=
  match n with
  | O => 0
  | _ => 2 * S (Nat.log2 n)
  end.

Definition Sort (data : D) : D :=
  let n := Len data in
  quickSort n data 0 n (maxDepth n).

End Algorithm.

End sort.

(** ** [sort.Sort] from Go 1.19 on

    From release 1.19 the package [sort] implements [Sort] as
    pattern-defeating quicksort: insertion sort for twelve elements or
    fewer, heapsort once [limit] bad pivots were chosen, and otherwise a
    partition around a pivot chosen as a median, after a try at finishing
    an almost sorted range by insertion.  [insertionSort], [siftDown] and
    [heapSort] are those of the earlier releases. *)
Module sort119.

(** [type sortedHint int] *)
Inductive sortedHint := unknownHint | increasingHint | decreasingHint.

Definition sortedHint_eqb (x y : sortedHint) : bool :=
  match x, y with
  | unknownHint, unknownHint
  | increasingHint, increasingHint
  | decreasingHint, decreasingHint => true
  | _, _ => false
  end.

(** [bits.Len(uint(n))]: the number of bits of [n]. *)
Definition bits_Len (n : nat) : nat :=
  match n with
  | O => 0
  | _ => S (Nat.log2 n)
  end.

(** [uint(1 << uint(bits.Len(uint(length))))] *)
Definition nextPowerOfTwo (length : nat) : N :=
  N.shiftl 1 (N.of_nat (bits_Len length)).

Section Algorithm.

Context {D : Type} `{sort.Interface D}.

(** The method [Next] of [xorshift]: the generator of [breakPatterns]
    replaces its 64-bit state by shifts and exclusive-ors of it and returns
    the new state.
    Which elements [breakPatterns] exchanges depends on it, the sorted
    result does not, so the step is left open: what is proved of [Sort]
    holds for every step. *)
Variable xorshift_Next : N -> N.

(** [order2] returns [x, y] with [data[x] <= data[y]], and counts a swap. *)
Definition order2 (data : D) (a b swaps : nat) : nat * nat * nat :=
  if sort.Less data b a then (b, a, S swaps) else (a, b, swaps).

Definition median (data : D) (a b c swaps : nat) : nat * nat :=
  let '(a, b, swaps) := order2 data a b swaps in
  let '(b, c, swaps) := order2 data b c swaps in
  let '(a, b, swaps) := order2 data a b swaps in
  (b, swaps).

Definition medianAdjacent (data : D) (a swaps : nat) : nat * nat :=
  median data (a - 1) a (a + 1) swaps.

(** [choosePivot]: with [shortestNinther = 50] and [maxSwaps = 4 * 3]. *)
Definition choosePivot (data : D) (a b : nat) : nat * sortedHint :=
  let l := b - a in
  let swaps := 0 in
  let i := a + l / 4 * 1 in
  let j := a + l / 4 * 2 in
  let k := a + l / 4 * 3 in
  let '(j, swaps) :=
    if Nat.leb 8 l then
      let '(i, j, k, swaps) :=
        if Nat.leb 50 l then
          let '(i, swaps) := medianAdjacent data i swaps in
          let '(j, swaps) := medianAdjacent data j swaps in
          let '(k, swaps) := medianAdjacent data k swaps in
          (i, j, k, swaps)
        else (i, j, k, swaps) in
      median data i j k swaps
    else (j, swaps) in
  if Nat.eqb swaps 0 then (j, increasingHint)
  else if Nat.eqb swaps (4 * 3) then (j, decreasingHint)
  else (j, unknownHint).

(** [for i < j { data.Swap(i, j); i++; j-- }] *)
Fixpoint reverseRange_loop (fuel : nat) (data : D) (i j : nat) : D :=
  match fuel with
  | O => data
  | S fuel' =>
      if Nat.ltb i j
      then reverseRange_loop fuel' (sort.Swap data i j) (S i) (j - 1)
      else data
  end.

Definition reverseRange (data : D) (a b : nat) : D :=
  reverseRange_loop (b - a) data a (b - 1).

(** [for i := 0; i < 3; i++], with [count] rounds left. *)
Fixpoint breakPatterns_loop (count : nat) (data : D) (random modulus : N)
    (a length idx i : nat) : D :=
  match count with
  | O => data
  | S count' =>
      let random := xorshift_Next random in
      let other := N.to_nat (N.land random (modulus - 1)) in
      let other := if Nat.leb length other then other - length else other in
      breakPatterns_loop count' (sort.Swap data (idx - 1 + i) (a + other))
        random modulus a length idx (S i)
  end.

Definition breakPatterns (data : D) (a b : nat) : D :=
  let length := b - a in
  if Nat.leb 8 length then
    let random := N.of_nat length in
    let modulus := nextPowerOfTwo length in
    let idx := a + length / 4 * 2 - 1 in
    breakPatterns_loop 3 data random modulus a length idx 0
  else data.

(** [for i < b && !data.Less(i, i-1) { i++ }] *)
Fixpoint partialInsertionSort_skip (fuel : nat) (data : D) (i b : nat)
  : nat :=
  match fuel with
  | O => i
  | S fuel' =>
      if Nat.ltb i b && negb (sort.Less data i (i - 1))
      then partialInsertionSort_skip fuel' data (S i) b
      else i
  end.

(** [for j := i - 1; j >= 1; j-- { if !data.Less(j, j-1) { break };
    data.Swap(j, j-1) }] *)
Fixpoint partialInsertionSort_left (data : D) (j : nat) : D :=
  match j with
  | O => data
  | S j' =>
      if negb (sort.Less data j j') then data
      else partialInsertionSort_left (sort.Swap data j j') j'
  end.

(** [for j := i + 1; j < b; j++ { if !data.Less(j, j-1) { break };
    data.Swap(j, j-1) }], with [count] values of [j] left. *)
Fixpoint partialInsertionSort_right (count : nat) (data : D) (j : nat) : D :=
  match count with
  | O => data
  | S count' =>
      if negb (sort.Less data j (j - 1)) then data
      else partialInsertionSort_right count' (sort.Swap data j (j - 1)) (S j)
  end.

(** [for j := 0; j < maxSteps; j++], with [steps] rounds left;
    [shortestShifting = 50]. *)
Fixpoint partialInsertionSort_steps (steps : nat) (data : D) (a b i : nat)
  : D * bool :=
  match steps with
  | O => (data, false)
  | S steps' =>
      let i := partialInsertionSort_skip (b - i) data i b in
      if Nat.eqb i b then (data, true)
      else if Nat.ltb (b - a) 50 then (data, false)
      else
        let data := sort.Swap data i (i - 1) in
        let data :=
          if Nat.leb 2 (i - a)
          then partialInsertionSort_left data (i - 1) else data in
        let data :=
          if Nat.leb 2 (b - i)
          then partialInsertionSort_right (b - (i + 1)) data (i + 1)
          else data in
        partialInsertionSort_steps steps' data a b i
  end.

(** [partialInsertionSort], with [maxSteps = 5]. *)
Definition partialInsertionSort (data : D) (a b : nat) : D * bool :=
  partialInsertionSort_steps 5 data a b (a + 1).

(** [for i <= j && !data.Less(a, i) { i++ }] *)
Fixpoint partitionEqual_up (fuel : nat) (data : D) (a i j : nat) : nat :=
  match fuel with
  | O => i
  | S fuel' =>
      if Nat.leb i j && negb (sort.Less data a i)
      then partitionEqual_up fuel' data a (S i) j
      else i
  end.

(** [for i <= j && data.Less(a, j) { j-- }] *)
Fixpoint partitionEqual_down (fuel : nat) (data : D) (a i j : nat) : nat :=
  match fuel with
  | O => j
  | S fuel' =>
      if Nat.leb i j && sort.Less data a j
      then partitionEqual_down fuel' data a i (j - 1)
      else j
  end.

(** The loop of [partitionEqual]; it returns the data and the final [i]. *)
Fixpoint partitionEqual_loop (fuel : nat) (data : D) (a i j : nat)
  : D * nat :=
  match fuel with
  | O => (data, i)
  | S fuel' =>
      let i := partitionEqual_up (S j - i) data a i j in
      let j := partitionEqual_down (S j - i) data a i j in
      if Nat.ltb j i then (data, i)
      else partitionEqual_loop fuel' (sort.Swap data i j) a (i + 1) (j - 1)
  end.

Definition partitionEqual (data : D) (a b pivot : nat) : D * nat :=
  let data := sort.Swap data a pivot in
  partitionEqual_loop (b - a) data a (a + 1) (b - 1).

(** [for i <= j && data.Less(i, a) { i++ }] *)
Fixpoint partition_up (fuel : nat) (data : D) (a i j : nat) : nat :=
  match fuel with
  | O => i
  | S fuel' =>
      if Nat.leb i j && sort.Less data i a
      then partition_up fuel' data a (S i) j
      else i
  end.

(** [for i <= j && !data.Less(j, a) { j-- }] *)
Fixpoint partition_down (fuel : nat) (data : D) (a i j : nat) : nat :=
  match fuel with
  | O => j
  | S fuel' =>
      if Nat.leb i j && negb (sort.Less data j a)
      then partition_down fuel' data a i (j - 1)
      else j
  end.

(** The second loop of [partition]; it returns the data and the final
    [j]. *)
Fixpoint partition_loop (fuel : nat) (data : D) (a i j : nat) : D * nat :=
  match fuel with
  | O => (data, j)
  | S fuel' =>
      let i := partition_up (S j - i) data a i j in
      let j := partition_down (S j - i) data a i j in
      if Nat.ltb j i then (data, j)
      else partition_loop fuel' (sort.Swap data i j) a (i + 1) (j - 1)
  end.

(** [partition] returns the data, [newpivot] and [alreadyPartitioned]. *)
Definition partition (data : D) (a b pivot : nat) : D * nat * bool :=
  let data := sort.Swap data a pivot in
  let i := a + 1 in
  let j := b - 1 in
  let i := partition_up (S j - i) data a i j in
  let j := partition_down (S j - i) data a i j in
  if Nat.ltb j i then (sort.Swap data j a, j, true)
  else
    let data := sort.Swap data i j in
    let '(data, j) := partition_loop (b - a) data a (i + 1) (j - 1) in
    (sort.Swap data j a, j, false).

(** [pdqsort], with [maxInsertion = 12]; [wasBalanced] and
    [wasPartitioned] are its two local flags.  Every round of its loop, and
    every recursive call, works on a strictly shorter range, so
    [fuel = b - a] suffices. *)
Fixpoint pdqsort (fuel : nat) (data : D) (a b limit : nat)
    (wasBalanced wasPartitioned : bool) : D :=
  match fuel with
  | O => sort.insertionSort data a b
  | S fuel' =>
      let length := b - a in
      if Nat.leb length 12 then sort.insertionSort data a b
      else if Nat.eqb limit 0 then sort.heapSort data a b
      else
        let '(data, limit) :=
          if negb wasBalanced then (breakPatterns data a b, limit - 1)
          else (data, limit) in
        let '(pivot, hint) := choosePivot data a b in
        let '(data, pivot, hint) :=
          if sortedHint_eqb hint decreasingHint
          then (reverseRange data a b, (b - 1) - (pivot - a),
                increasingHint)
          else (data, pivot, hint) in
        let '(data, sorted) :=
          if wasBalanced && wasPartitioned
             && sortedHint_eqb hint increasingHint
          then partialInsertionSort data a b
          else (data, false) in
        if sorted then data
        else if Nat.ltb 0 a && negb (sort.Less data (a - 1) pivot) then
          let '(data, mid) := partitionEqual data a b pivot in
          pdqsort fuel' data mid b limit wasBalanced wasPartitioned
        else
          let '(data, mid, alreadyPartitioned) :=
            partition data a b pivot in
          let leftLen := mid - a in
          let rightLen := b - mid in
          let balanceThreshold := length / 8 in
          if Nat.ltb leftLen rightLen then
            let wasBalanced := Nat.leb balanceThreshold leftLen in
            let data := pdqsort fuel' data a mid limit true true in
            pdqsort fuel' data (mid + 1) b limit wasBalanced
              alreadyPartitioned
          else
            let wasBalanced := Nat.leb balanceThreshold rightLen in
            let data := pdqsort fuel' data (mid + 1) b limit true true in
            pdqsort fuel' data a mid limit wasBalanced alreadyPartitioned
  end.

Definition Sort (data : D) : D :=
  let n := sort.Len data in
  if Nat.leb n 1 then data
  else pdqsort n data 0 n (bits_Len n) true true.

End Algorithm.

End sort119.

(** ** The collection as a [sort.Interface] *)

(** [collection[i] = x]; out of range the Go code panics, the model leaves
    the collection as it is. *)
Fixpoint assign {A : Type} (l : list A) (i : nat) (x : A) : list A :=
  match l, i with
  | [], _ => []
  | _ :: rest, O => x :: rest
  | y :: rest, S i' => y :: assign rest i' x
  end.

Definition Len (collection : LocalstackServiceCollection) : nat :=
  List.length collection.

Definition Swap (collection : LocalstackServiceCollection) (i j : nat)
  : LocalstackServiceCollection :=
  match nth_error collection i, nth_error collection j with
  | Some ci, Some cj => assign (assign collection i cj) j ci
  | _, _ => collection
  end.

Definition Less (collection : LocalstackServiceCollection) (i j : nat)
  : bool :=
  match nth_error collection i, nth_error collection j with
  | Some ci, Some cj => String.ltb (Name ci) (Name cj)
  | _, _ => false
  end.

#[export] Instance collection_Interface
  : sort.Interface LocalstackServiceCollection :=
  {| sort.Len := Len; sort.Less := Less; sort.Swap := Swap |}.

(** [Sort] sorts the caller's slice in place and returns the pointer it was
    called on: the result is the one collection, after [sort.Sort].  The
    package asks for Go 1.11 or higher and pins no release; this is the
    method in a program built with Go 1.11 to 1.18. *)
Definition Sort (collection : LocalstackServiceCollection)
  : LocalstackServiceCollection :=
  sort.Sort collection.

(** The same method in a program built with Go 1.19 or later, where
    [sort.Sort] is the pattern-defeating quicksort. *)
Module Go119.

Definition Sort (xorshift_Next : N -> N)
    (collection : LocalstackServiceCollection)
  : LocalstackServiceCollection :=
  sort119.Sort xorshift_Next collection.

End Go119.

(* ================================================================== *)
(** * Sample data: the values the package's tests use                   *)
(* ================================================================== *)

Definition LocalstackName : string := "testLocalstackName".

Definition sqs : LocalstackService :=
  {| Name := "sqs"; Protocol := "tcp"; Port := 4566 |}.

Definition s3 : LocalstackService :=
  {| Name := "s3"; Protocol := "tcp"; Port := 4566 |}.

Definition dummy_container : docker.APIContainers :=
  {| docker.ID := "aaa";
     docker.Image := "DummyImage:1.0.0";
     docker.Names := ["/testLocalstackName"] |}.

Definition localstack_container : docker.APIContainers :=
  {| docker.ID := "bbb";
     docker.Image := "localstack/localstack:0.11.5";
     docker.Names := ["/other"; "/testLocalstackName"] |}.

Definition second_localstack_container : docker.APIContainers :=
  {| docker.ID := "ccc";
     docker.Image := "localstack/localstack:0.11.5";
     docker.Names := ["/testLocalstackName"] |}.

Definition inspected_container : docker.Container.t :=
  {| docker.Container.ID := "bbb" |}.

(** The resource of a handle on that container. *)
Definition inspected_resource : dockertest.Resource :=
  {| dockertest.Container := Some inspected_container |}.

(** A container is listed and found; the first poll fails. *)
Definition script_found (retries : list (option error)) : Script :=
  {| listing :=
       ([dummy_container; localstack_container; second_localstack_container],
        None);
     inspecting := (Some inspected_container, None);
     running := (None, Some "not expected");
     retries := retries |}.

(** Nothing is listed; a container is started. *)
Definition script_empty (retries : list (option error)) : Script :=
  {| listing := ([], None);
     inspecting := (None, None);
     running := (Some {| dockertest.Container := None |}, None);
     retries := retries |}.

(** Listing fails. *)
Definition script_list_error : Script :=
  {| listing := ([], Some "dummy Error");
     inspecting := (None, None);
     running := (None, None);
     retries := [] |}.

(** A resolver of the shape of the SDK's default one, and a host-port
    lookup that answers as the tests' port bindings do. *)
Definition sample_DefaultResolver (service region : string) (_ : list unit)
  : endpoints.ResolvedEndpoint * option error :=
  ({| endpoints.URL := "https://" ++ service ++ "." ++ region
                       ++ ".amazonaws.com";
      endpoints.PartitionID := "aws";
      endpoints.SigningRegion := region;
      endpoints.SigningName := service;
      endpoints.SigningNameDerived := true;
      endpoints.SigningMethod := "v4" |}, None).

Definition sample_GetHostPort (_ : dockertest.Resource)
    (portID : string) : string :=
  if String.eqb portID "4566/tcp" then "1.0.0.0:9566" else "".

(** A byte repeated. *)
Fixpoint string_repeat (c : ascii) (n : nat) : string :=
  match n with
  | O => EmptyString
  | S n' => String c (string_repeat c n')
  end.

(** A log whose first line is [MaxScanTokenSize] bytes long and whose
    second line is "Ready.". *)
Definition long_line_log : string :=
  string_repeat "a"%char MaxScanTokenSize ++ String LF "Ready.".

(** The engine is reachable and the log of every container is [log]. *)
Definition env_with_log (log : string) : DockerEnv :=
  {| NewClientFromEnv := None; Logs := fun _ => (log, None) |}.

(** No byte of [rune] is [c]. *)
Definition avoids (c : ascii) (rune : string) : bool :=
  forallb (fun a => negb (Ascii.eqb a c)) (list_ascii_of_string rune).

(* ================================================================== *)
(** * Slices under [sort.Sort]: vocabulary                              *)
(* ================================================================== *)

(** A slice of any element type ordered by a comparison of elements, the
    shape of the collection's [Len], [Less] and [Swap]. *)
Section SliceInterface.

Variable A : Type.
Variable less : A -> A -> bool.

Definition slice_Swap (l : list A) (i j : nat) : list A :=
  match nth_error l i, nth_error l j with
  | Some x, Some y => assign (assign l i y) j x
  | _, _ => l
  end.

Definition slice_Less (l : list A) (i j : nat) : bool :=
  match nth_error l i, nth_error l j with
  | Some x, Some y => less x y
  | _, _ => false
  end.

Definition slice_Interface : sort.Interface (list A) :=
  {| sort.Len := @List.length A;
     sort.Less := slice_Less;
     sort.Swap := slice_Swap |}.

(** [x] is not after [y]. *)
Definition not_after (x y : A) : Prop := less y x = false.

(** Neither is before the other. *)
Definition equivalent (x y : A) : Prop := less x y = false /\ less y x = false.

(** [less] is a strict weak order. *)
Record strict_weak_order : Prop := {
  less_irrefl : forall x, less x x = false;
  less_trans : forall x y z, less x y = true -> less y z = true ->
                             less x z = true;
  not_after_trans : forall x y z, not_after x y -> not_after y z ->
                                  not_after x z
}.

Variable d : A.

(** The elements at the indices [a <= i < b] are in non-decreasing order. *)
Definition sorted_range (l : list A) (a b : nat) : Prop :=
  forall i j, a <= i -> i < j -> j < b -> not_after (nth i l d) (nth j l d).

(** Every element at an index [a <= i < b] satisfies [P]. *)
Definition all_range (P : A -> Prop) (l : list A) (a b : nat) : Prop :=
  forall i, a <= i -> i < b -> P (nth i l d).

(** [l'] is [l] with the elements at the indices [a <= i < b] rearranged. *)
Definition range_perm (a b : nat) (l l' : list A) : Prop :=
  List.length l' = List.length l
  /\ Permutation l l'
  /\ forall k, k < a \/ b <= k -> nth k l' d = nth k l d.

(** The state of the partition loop of [doPivot] on the range from [lo] to
    [hi] of [l0], whose pivot is the element at [lo]: the elements before
    [b] are not after the pivot, those from [c] on are not before it. *)
Definition partition_inv (lo hi : nat) (l0 l : list A) (b c : nat) : Prop :=
  range_perm (lo + 1) (hi - 1) l0 l
  /\ lo + 1 <= b /\ b <= c /\ c <= hi - 1
  /\ (forall i, lo + 1 <= i -> i < b -> not_after (nth i l d) (nth lo l0 d))
  /\ (forall i, c <= i -> i < hi - 1 ->
                not_after (nth lo l0 d) (nth i l d)).

(** The state once the elements equal to the pivot are gathered: those
    from [b] to [c] are equivalent to the pivot. *)
Definition pivot_inv (lo hi : nat) (l0 l : list A) (b c : nat) : Prop :=
  range_perm (lo + 1) hi l0 l
  /\ lo + 1 <= b /\ b <= c /\ c <= hi
  /\ (forall i, lo + 1 <= i -> i < b -> not_after (nth i l d) (nth lo l0 d))
  /\ (forall i, b <= i -> i < c -> equivalent (nth i l d) (nth lo l0 d))
  /\ (forall i, c <= i -> i < hi -> not_after (nth lo l0 d) (nth i l d)).

(** What [doPivot] returns: the range from [lo] to [hi] is cut at [mlo]
    and [mhi] into elements not after the pivot, elements equivalent to it,
    and elements not before it; the pivot is the element at [mlo]. *)
Definition pivoted (lo hi : nat) (l : list A) (mlo mhi : nat) : Prop :=
  lo <= mlo /\ mlo < mhi /\ mhi <= hi
  /\ all_range (fun x => not_after x (nth mlo l d)) l lo mlo
  /\ all_range (fun x => equivalent x (nth mlo l d)) l mlo mhi
  /\ all_range (fun x => not_after (nth mlo l d) x) l mhi hi.

(** The heap of [heapSort]: [hi] elements starting at index [first], the
    children of node [i] being the nodes [2i+1] and [2i+2].  A node is in
    heap order when no child is after it. *)
Definition heap_at (l : list A) (first hi i : nat) : Prop :=
  forall c, c = 2 * i + 1 \/ c = 2 * i + 2 -> c < hi ->
            not_after (nth (first + c) l d) (nth (first + i) l d).

Definition heap_from (l : list A) (first hi r : nat) : Prop :=
  forall i, r <= i -> i < hi -> heap_at l first hi i.

(** The state of [siftDown] from node [r] while the sinking element is at
    node [k]: every other node from [r] on is in heap order, and the
    children of [k] are not after the parent of [k]. *)
Definition sift_inv (l : list A) (first hi r k : nat) : Prop :=
  (forall i, r <= i -> i < hi -> i <> k -> heap_at l first hi i)
  /\ (forall p c, r <= p -> k = 2 * p + 1 \/ k = 2 * p + 2 ->
                  c = 2 * k + 1 \/ c = 2 * k + 2 -> c < hi ->
                  not_after (nth (first + c) l d) (nth (first + p) l d)).

(** The range from [a] to [b] lies after everything before it: when it
    does not start the slice, the element just before it is not after any
    element of the range.  [pdqsort] works on such ranges. *)
Definition bounded_below (l : list A) (a b : nat) : Prop :=
  0 < a ->
  forall y, a <= y -> y < b -> not_after (nth (a - 1) l d) (nth y l d).

(** The elements at the indices [a <= i < b], as a list. *)
Definition slice (a b : nat) (l : list A) : list A :=
  firstn (b - a) (skipn a l).

End SliceInterface.

(** The order of the collection's [Less]. *)
Definition less_Name (x y : LocalstackService) : bool :=
  String.ltb (Name x) (Name y).

(** A collection on which the order of equal names can be observed: the two
    descriptors named "sns" differ in their port. *)
Definition sns_first : LocalstackService :=
  {| Name := "sns"; Protocol := "tcp"; Port := 4566 |}.

Definition sns_second : LocalstackService :=
  {| Name := "sns"; Protocol := "tcp"; Port := 4575 |}.

Definition unstable_collection : LocalstackServiceCollection :=
  [ sns_first; sns_second; s3; s3; s3; s3; s3; s3; s3; s3; s3; s3; s3 ].

(** Descriptors of a collection that share a name are the same descriptor;
    so it is in every collection built from [NewLocalstackService]. *)
Definition names_identify (collection : LocalstackServiceCollection)
  : Prop :=
  forall x y : LocalstackService,
    In x collection -> In y collection -> Name x = Name y -> x = y.

(** The elements of a collection that carry the given name, in order. *)
Definition named (name : string) (collection : LocalstackServiceCollection)
  : list LocalstackService :=
  filter (fun service => String.eqb (Name service) name) collection.

(* ================================================================== *)
(** * Reading a run: further vocabulary                                 *)
(* ================================================================== *)

Definition is_Retry (c : Call) : bool :=
  match c with CallRetry _ _ => true | _ => false end.

(** The options of the [ListContainers] calls of a run, in order. *)
Fixpoint listings (calls : list Call) : list docker.ListContainersOptions :=
  match calls with
  | [] => []
  | CallListContainers opts _ :: rest => opts :: listings rest
  | _ :: rest => listings rest
  end.

(** The resources a run obtained: from an inspection that answered without
    error, the wrapped container; from a start that answered without error,
    the resource. *)
Fixpoint resources_of (calls : list Call)
  : list (option dockertest.Resource) :=
  match calls with
  | [] => []
  | CallInspectContainer _ (container, None) :: rest =>
      Some {| dockertest.Container := container |} :: resources_of rest
  | CallRunWithOptions _ (resource, None) :: rest =>
      resource :: resources_of rest
  | _ :: rest => resources_of rest
  end.

(** The polls of a run that resolved the resource [localstack] and
    returned [r]: every [Retry] was handed the readiness closure of
    [localstack]; and either there was one poll for each service of the
    collection, all answered [nil], and [r] is the handle on [localstack]
    and the collection, or the polls stopped at the first error, the one
    for the [n]-th service, and [r] is the error naming that service. *)
Definition polled_in_order (services : LocalstackServiceCollection)
    (localstack : option dockertest.Resource) (calls : list Call)
    (r : option Localstack * option error) : Prop :=
  retry_ops calls
  = repeat (readiness localstack) (List.length (retry_answers calls))
  /\ ((retry_answers calls = repeat None (List.length services)
       /\ r = (Some {| Resource := localstack; Services := services |},
               None))
      \/ exists n service e,
           nth_error services n = Some service
           /\ retry_answers calls = (repeat None n ++ [Some e])%list
           /\ r = (None, Some ("unable to connect to " ++ Name service
                               ++ ": " ++ e))).

(** A line fits the scanner's buffer. *)
Definition fits (piece : string) : bool :=
  Nat.ltb (String.length piece) MaxScanTokenSize.

(** The lines before the first one that does not fit. *)
Fixpoint scanned (pieces : list string) : list string :=
  match pieces with
  | [] => []
  | piece :: rest => if fits piece then piece :: scanned rest else []
  end.

(** The descriptor [NewLocalstackService] returns for a name it accepts. *)
Definition descriptor (name : string) : LocalstackService :=
  {| Name := name; Protocol := "tcp"; Port := 4566 |}.

(* ================================================================== *)
(** * Properties                                                        *)
(* ================================================================== *)

(** ** Service descriptors *)

Lemma NewLocalstackService_loop_In (services : list string) (name : string) :
  In name services ->
  NewLocalstackService_loop services name
  = (Some {| Name := name; Protocol := "tcp"; Port := 4566 |}, None).
Proof.
  induction services as [|n rest IH]; simpl; [tauto|].
  intros [Heq | Hin].
  - subst n. now rewrite String.eqb_refl.
  - destruct (String.eqb n name); auto.
Qed.

Lemma NewLocalstackService_loop_not_In (services : list string)
    (name : string) :
  ~ In name services ->
  NewLocalstackService_loop services name
  = (None, Some ("unknown Localstack Service: " ++ name)).
Proof.
  induction services as [|n rest IH]; simpl; [reflexivity|].
  intros Hnot.
  destruct (String.eqb_spec n name) as [Heq | Hne]; [tauto|].
  apply IH. tauto.
Qed.

Lemma In_allowed_dec (name : string) :
  {In name allowed_services} + {~ In name allowed_services}.
Proof. apply in_dec, string_dec. Defined.

(** C6.  For every name of the allow-list [NewLocalstackService] returns a
    descriptor with that name, protocol "tcp" and port 4566, whose
    [GetNamePort] is the name followed by ":4566"; for every other name it
    returns no descriptor and the error "unknown Localstack Service: <name>".
    The function is a single pass over the list: it makes no call that could
    be repeated. *)
Theorem NewLocalstackService_spec (name : string) :
  (In name allowed_services ->
   exists service,
     NewLocalstackService name = (Some service, None)
     /\ Name service = name
     /\ Protocol service = "tcp"
     /\ Port service = 4566%Z
     /\ GetNamePort service = name ++ ":4566")
  /\ (~ In name allowed_services ->
      NewLocalstackService name
      = (None, Some ("unknown Localstack Service: " ++ name))).
Proof.
  split; intros H.
  - exists {| Name := name; Protocol := "tcp"; Port := 4566 |}.
    unfold NewLocalstackService.
    rewrite (NewLocalstackService_loop_In _ _ H).
    repeat split; reflexivity.
  - now apply NewLocalstackService_loop_not_In.
Qed.

Lemma NewLocalstackService_spec_witness :
  (exists service,
     NewLocalstackService "s3" = (Some service, None)
     /\ Name service = "s3"
     /\ Protocol service = "tcp"
     /\ Port service = 4566%Z
     /\ GetNamePort service = "s3:4566")
  /\ NewLocalstackService "rds"
     = (None, Some "unknown Localstack Service: rds").
Proof.
  split.
  - apply (proj1 (NewLocalstackService_spec "s3")).
    simpl. tauto.
  - apply (proj2 (NewLocalstackService_spec "rds")).
    simpl. intuition discriminate.
Defined.

(** A descriptor that [NewLocalstackService] returned carries a name of the
    allow-list. *)
Lemma NewLocalstackService_Some (name : string) (service : LocalstackService) :
  NewLocalstackService name = (Some service, None) ->
  In (Name service) allowed_services.
Proof.
  intros H.
  destruct (In_allowed_dec name) as [Hin | Hnot].
  - unfold NewLocalstackService in H.
    rewrite (NewLocalstackService_loop_In _ _ Hin) in H.
    injection H as <-. exact Hin.
  - unfold NewLocalstackService in H.
    rewrite (NewLocalstackService_loop_not_In _ _ Hnot) in H.
    discriminate.
Qed.

Lemma Contains_true_iff (collection : LocalstackServiceCollection)
    (name : string) :
  Contains collection name = true <-> In name (map Name collection).
Proof.
  induction collection as [|value rest IH]; simpl.
  - split; [discriminate | tauto].
  - destruct (String.eqb_spec (Name value) name) as [Heq | Hne].
    + split; auto.
    + rewrite IH. split; [auto | intros [H | H]; [contradiction | exact H]].
Qed.

Lemma Contains_false_iff (collection : LocalstackServiceCollection)
    (name : string) :
  Contains collection name = false <-> ~ In name (map Name collection).
Proof.
  rewrite <- Contains_true_iff.
  destruct (Contains collection name); split; intros; congruence.
Qed.

(** ** Endpoint resolution *)

Section ResolverFacts.

Variable OptFn : Type.
Variable GetHostPort : dockertest.Resource -> string -> string.
Variable DefaultResolver_EndpointFor :
  string -> string -> list OptFn ->
  endpoints.ResolvedEndpoint * option error.

Lemma EndpointFor_range_hit (keys : list string) (ls : Localstack)
    (service region : string) (optFns : list OptFn) :
  In service keys ->
  Contains (Services ls) (map_index availableServices service) = true ->
  EndpointFor_range GetHostPort DefaultResolver_EndpointFor
    keys ls service region optFns
  = localstack_endpoint GetHostPort ls.
Proof.
  intros Hin Hc.
  induction keys as [|k rest IH]; cbn [EndpointFor_range];
    [contradiction|].
  rewrite Hc, andb_true_r.
  destruct (String.eqb_spec k service) as [Heq | Hne]; [reflexivity|].
  apply IH. destruct Hin; [contradiction | assumption].
Qed.

Lemma EndpointFor_range_miss (keys : list string) (ls : Localstack)
    (service region : string) (optFns : list OptFn) :
  ~ In service keys
  \/ Contains (Services ls) (map_index availableServices service) = false ->
  EndpointFor_range GetHostPort DefaultResolver_EndpointFor
    keys ls service region optFns
  = Returned (DefaultResolver_EndpointFor service region optFns).
Proof.
  intros H.
  induction keys as [|k rest IH]; cbn [EndpointFor_range];
    [reflexivity|].
  destruct H as [Hnot | Hc].
  - destruct (String.eqb_spec k service) as [Heq | Hne].
    + exfalso. apply Hnot. now left.
    + cbn [andb]. apply IH. left. intros Hin. apply Hnot. now right.
  - rewrite Hc, andb_false_r. apply IH. now right.
Qed.

(** C3.  Whatever order the map range visits the keys in: when the
    identifier is a key of [availableServices] and the descriptor name it
    maps to is in the handle's service collection, [EndpointFor] returns,
    for a handle with a resource, the endpoint whose URL is "http://"
    followed by what [GetHostPort] gives for that resource and "4566/tcp",
    every other field zero, with a nil error (and for a handle whose
    [Resource] is nil the call of [GetHostPort] panics); when the
    identifier is not a key, or the name it maps to is not in the
    collection, it returns what the SDK's default resolver returns.  The
    mapping sends "streams.dynamodb" to "dynamodbstreams", "email" to
    "ses", "monitoring" to "cloudwatch" and "states" to "stepfunctions". *)
Theorem EndpointFor_gated_by_Services (keys : list string)
    (ls : Localstack) (service region : string) (optFns : list OptFn) :
  Permutation keys (map_keys availableServices) ->
  (In service (map_keys availableServices) ->
   Contains (Services ls) (map_index availableServices service) = true ->
   (forall resource : dockertest.Resource,
       Resource ls = Some resource ->
       EndpointFor_range GetHostPort DefaultResolver_EndpointFor
         keys ls service region optFns
       = Returned
           ({| endpoints.URL :=
                 "http://" ++ GetHostPort resource "4566/tcp";
               endpoints.PartitionID := "";
               endpoints.SigningRegion := "";
               endpoints.SigningName := "";
               endpoints.SigningNameDerived := false;
               endpoints.SigningMethod := "" |}, None))
   /\ (Resource ls = None ->
       EndpointFor_range GetHostPort DefaultResolver_EndpointFor
         keys ls service region optFns
       = NilPanic))
  /\ (~ In service (map_keys availableServices)
      \/ Contains (Services ls) (map_index availableServices service)
         = false ->
      EndpointFor_range GetHostPort DefaultResolver_EndpointFor
        keys ls service region optFns
      = Returned (DefaultResolver_EndpointFor service region optFns))
  /\ map_index availableServices "streams.dynamodb" = "dynamodbstreams"
  /\ map_index availableServices "email" = "ses"
  /\ map_index availableServices "monitoring" = "cloudwatch"
  /\ map_index availableServices "states" = "stepfunctions".
Proof.
  intros Hperm. split; [|split].
  - intros Hin Hc.
    assert (Hhit : EndpointFor_range GetHostPort DefaultResolver_EndpointFor
                     keys ls service region optFns
                   = localstack_endpoint GetHostPort ls).
    { apply EndpointFor_range_hit; [|exact Hc].
      eapply Permutation_in; [apply Permutation_sym; exact Hperm|exact Hin]. }
    rewrite Hhit. unfold localstack_endpoint.
    split; [intros resource Hres | intros Hres]; now rewrite Hres.
  - intros H. apply EndpointFor_range_miss.
    destruct H as [Hnot | Hc]; [left | now right].
    intros Hin. apply Hnot.
    eapply Permutation_in; [exact Hperm | exact Hin].
  - repeat split.
Qed.

Lemma built_from_constructor_names (services : LocalstackServiceCollection) :
  built_from_constructor services ->
  forall name, In name (map Name services) -> In name allowed_services.
Proof.
  intros Hall name Hin.
  apply in_map_iff in Hin. destruct Hin as [service [<- Hs]].
  unfold built_from_constructor in Hall.
  rewrite Forall_forall in Hall.
  destruct (Hall _ Hs) as [n Hn].
  eapply NewLocalstackService_Some; eauto.
Qed.

(** C10.  [NewLocalstackService] rejects "secretsmanager" and accepts
    "secrestmanager", while [availableServices] maps the identifier
    "secretsmanager" to the descriptor name "secretsmanager"; so for a
    handle whose services all came out of [NewLocalstackService],
    [EndpointFor] on "secretsmanager" returns what the default resolver
    returns. *)
Theorem secretsmanager_never_resolved :
  NewLocalstackService "secretsmanager"
  = (None, Some "unknown Localstack Service: secretsmanager")
  /\ NewLocalstackService "secrestmanager"
     = (Some {| Name := "secrestmanager"; Protocol := "tcp"; Port := 4566 |},
        None)
  /\ In "secretsmanager" (map_keys availableServices)
  /\ map_index availableServices "secretsmanager" = "secretsmanager"
  /\ forall (ls : Localstack) (region : string) (optFns : list OptFn),
       built_from_constructor (Services ls) ->
       EndpointFor GetHostPort DefaultResolver_EndpointFor
         ls "secretsmanager" region optFns
       = Returned
           (DefaultResolver_EndpointFor "secretsmanager" region optFns).
Proof.
  split; [reflexivity|]. split; [reflexivity|].
  split; [simpl; tauto|]. split; [reflexivity|].
  intros ls region optFns Hall.
  unfold EndpointFor. apply EndpointFor_range_miss. right.
  apply Contains_false_iff. intros Hin.
  apply (built_from_constructor_names Hall) in Hin.
  simpl in Hin. intuition discriminate.
Qed.

End ResolverFacts.

(** ** Running a program on an adapter *)

Section Runs.

Context {W : Type} (d : DockerWrapper W).

Lemma run_bind {A B : Type} (p : Prog A) (f : A -> Prog B) (w : W) :
  run d (bind p f) w
  = let '(calls1, a, w1) := run d p w in
    let '(calls2, b, w2) := run d (f a) w1 in
    ((calls1 ++ calls2)%list, b, w2).
Proof.
  revert w.
  induction p as [a | opts k IH | id k IH | opts k IH | op k IH];
    intros w; cbn [bind run].
  - destruct (run d (f a) w) as [[calls2 b] w2]. reflexivity.
  - destruct (doListContainers d opts w) as [r w1]. rewrite IH.
    destruct (run d (k r) w1) as [[calls1 a] w2].
    destruct (run d (f a) w2) as [[calls2 b] w3]. reflexivity.
  - destruct (doInspectContainer d id w) as [r w1]. rewrite IH.
    destruct (run d (k r) w1) as [[calls1 a] w2].
    destruct (run d (f a) w2) as [[calls2 b] w3]. reflexivity.
  - destruct (doRunWithOptions d opts w) as [r w1]. rewrite IH.
    destruct (run d (k r) w1) as [[calls1 a] w2].
    destruct (run d (f a) w2) as [[calls2 b] w3]. reflexivity.
  - destruct (doRetry d op w) as [r w1]. rewrite IH.
    destruct (run d (k r) w1) as [[calls1 a] w2].
    destruct (run d (f a) w2) as [[calls2 b] w3]. reflexivity.
Qed.

(** *** Discovery *)

Lemma getLocalstack_names_found (c : docker.APIContainers)
    (names : list string) (name : string)
    (next : Prog (found * option error)) :
  In ("/" ++ name) names ->
  getLocalstack_names c names name next
  = InspectContainer (docker.ID c) (inspected c).
Proof.
  induction names as [|internalName rest IH]; cbn [getLocalstack_names In];
    [tauto|].
  intros [Heq | Hin].
  - rewrite Heq, String.eqb_refl. reflexivity.
  - destruct (String.eqb internalName ("/" ++ name)); auto.
Qed.

Lemma getLocalstack_names_missing (c : docker.APIContainers)
    (names : list string) (name : string)
    (next : Prog (found * option error)) :
  ~ In ("/" ++ name) names ->
  getLocalstack_names c names name next = next.
Proof.
  induction names as [|internalName rest IH]; cbn [getLocalstack_names In];
    [reflexivity|].
  intros Hnot.
  destruct (String.eqb_spec internalName ("/" ++ name)) as [Heq | Hne];
    [tauto|].
  apply IH. tauto.
Qed.

Lemma getLocalstack_containers_skip (c : docker.APIContainers)
    (rest : list docker.APIContainers) (name repository tag : string) :
  ~ matches name repository tag c ->
  getLocalstack_containers (c :: rest) name repository tag
  = getLocalstack_containers rest name repository tag.
Proof.
  intros Hnot. cbn [getLocalstack_containers].
  destruct (String.eqb_spec (docker.Image c) (repository ++ ":" ++ tag))
    as [Himg | Himg]; [|reflexivity].
  apply getLocalstack_names_missing.
  intros Hin. apply Hnot. split; assumption.
Qed.

Lemma getLocalstack_containers_first
    (before : list docker.APIContainers) (c : docker.APIContainers)
    (after : list docker.APIContainers) (name repository tag : string) :
  Forall (fun c' => ~ matches name repository tag c') before ->
  matches name repository tag c ->
  getLocalstack_containers (before ++ c :: after)%list name repository tag
  = InspectContainer (docker.ID c) (inspected c).
Proof.
  intros Hbefore [Himg Hname].
  induction Hbefore as [|c' before' Hc' _ IH].
  - cbn [app getLocalstack_containers].
    rewrite Himg, String.eqb_refl.
    now apply getLocalstack_names_found.
  - cbn [app]. now rewrite getLocalstack_containers_skip.
Qed.

Lemma getLocalstack_containers_none
    (containers : list docker.APIContainers) (name repository tag : string) :
  Forall (fun c => ~ matches name repository tag c) containers ->
  getLocalstack_containers containers name repository tag
  = Return (None, None).
Proof.
  induction 1 as [|c rest Hc _ IH]; [reflexivity|].
  now rewrite getLocalstack_containers_skip.
Qed.

Lemma getLocalstack_named (services : LocalstackServiceCollection)
    (name repository tag : string) :
  name <> "" ->
  getLocalstack services name repository tag
  = ListContainers {| docker.All := true |} (listed name repository tag).
Proof.
  intros Hname. unfold getLocalstack.
  destruct (String.eqb_spec name ""); [contradiction | reflexivity].
Qed.

(** *** Polling *)

(** The run of the polling loop: its calls are [Retry] calls of the one
    readiness closure, and either every answer is [nil] and the handle is
    returned, or the answers end with the first error, at the position of
    the service the returned error names. *)
Lemma waitForServices_run (localstack : option dockertest.Resource)
    (services : LocalstackServiceCollection)
    (remaining : list LocalstackService) (w : W) :
  let calls := calls_of d (waitForServices localstack services remaining) w in
  let r := result_of d (waitForServices localstack services remaining) w in
  run_options calls = []
  /\ inspected_ids calls = []
  /\ retry_ops calls
     = repeat (readiness localstack) (List.length (retry_answers calls))
  /\ ((retry_answers calls = repeat None (List.length remaining)
       /\ r = (Some {| Resource := localstack; Services := services |}, None))
      \/ exists n service e,
           nth_error remaining n = Some service
           /\ retry_answers calls = (repeat None n ++ [Some e])%list
           /\ r = (None, Some ("unable to connect to " ++ Name service
                               ++ ": " ++ e))).
Proof.
  unfold calls_of, result_of. revert w.
  induction remaining as [|service rest IH]; intros w;
    cbn [waitForServices run].
  - cbn. repeat split. left. split; reflexivity.
  - destruct (doRetry d (readiness localstack) w) as [[e|] w1].
    + cbn. repeat split. right. exists 0, service, e. repeat split.
    + specialize (IH w1).
      destruct (run d (waitForServices localstack services rest) w1)
        as [[calls r] w2].
      cbn [fst snd] in *. cbn [run_options inspected_ids retry_ops
                                retry_answers List.length repeat].
      destruct IH as (Hrun & Hins & Hops & Hres).
      split; [exact Hrun|]. split; [exact Hins|].
      split; [now rewrite Hops|].
      destruct Hres as [[Hans Hr] | (n & s & e & Hn & Hans & Hr)].
      * left. split; [now rewrite Hans | exact Hr].
      * right. exists (S n), s, e. repeat split; try assumption.
        now rewrite Hans.
Qed.

(** *** The shape of a run of [getLocalstack] *)

Lemma retry_answers_app (l1 l2 : list Call) :
  retry_answers (l1 ++ l2) = (retry_answers l1 ++ retry_answers l2)%list.
Proof.
  induction l1 as [|[] l1 IH]; cbn; rewrite ?IH; reflexivity.
Qed.

Lemma retry_ops_app (l1 l2 : list Call) :
  retry_ops (l1 ++ l2) = (retry_ops l1 ++ retry_ops l2)%list.
Proof.
  induction l1 as [|[] l1 IH]; cbn; rewrite ?IH; reflexivity.
Qed.

Lemma run_options_app (l1 l2 : list Call) :
  run_options (l1 ++ l2) = (run_options l1 ++ run_options l2)%list.
Proof.
  induction l1 as [|[] l1 IH]; cbn; rewrite ?IH; reflexivity.
Qed.

Lemma discovery_shaped_Return_nil :
  discovery_shaped d (Return (None, None)).
Proof. intros w. cbn. auto. Qed.

Lemma discovery_shaped_inspect (c : docker.APIContainers) :
  discovery_shaped d (InspectContainer (docker.ID c) (inspected c)).
Proof.
  intros w. unfold calls_of, result_of. cbn [run].
  destruct (doInspectContainer d (docker.ID c) w) as [[container [e|]] w1];
    cbn; repeat split; eauto.
Qed.

Lemma discovery_shaped_names (c : docker.APIContainers)
    (names : list string) (name : string)
    (next : Prog (found * option error)) :
  discovery_shaped d next ->
  discovery_shaped d (getLocalstack_names c names name next).
Proof.
  intros Hnext.
  induction names as [|internalName rest IH]; cbn [getLocalstack_names];
    [exact Hnext|].
  destruct (String.eqb internalName ("/" ++ name));
    [apply discovery_shaped_inspect | exact IH].
Qed.

Lemma discovery_shaped_containers (containers : list docker.APIContainers)
    (name repository tag : string) :
  discovery_shaped d (getLocalstack_containers containers name repository tag).
Proof.
  induction containers as [|c rest IH]; cbn [getLocalstack_containers];
    [apply discovery_shaped_Return_nil|].
  destruct (String.eqb (docker.Image c) (repository ++ ":" ++ tag));
    [now apply discovery_shaped_names | exact IH].
Qed.

Lemma discovery_shaped_getLocalstack (services : LocalstackServiceCollection)
    (name repository tag : string) :
  discovery_shaped d (getLocalstack services name repository tag).
Proof.
  unfold getLocalstack.
  destruct (negb (String.eqb name ""));
    [|apply discovery_shaped_Return_nil].
  intros w. unfold calls_of, result_of. cbn [run].
  destruct (doListContainers d {| docker.All := true |} w)
    as [[containers [e|]] w1]; cbn [listed].
  - cbn. repeat split; eauto.
  - pose proof (discovery_shaped_containers containers name repository tag
                  w1) as H.
    unfold calls_of, result_of in H.
    destruct (run d (getLocalstack_containers containers name repository
                       tag) w1) as [[calls r] w2].
    exact H.
Qed.

(** *** The run of [newPersistentLocalstack], by the result of discovery *)

Lemma newPersistentLocalstack_run (services : LocalstackServiceCollection)
    (name repository tag data : string) (w : W) :
  run d (newPersistentLocalstack services name repository tag data) w
  = let '(calls0, answer, w0) :=
      run d (getLocalstack services name repository tag) w in
    let '(calls1, r, w1) :=
      run d (resolved services name repository tag data answer) w0 in
    ((calls0 ++ calls1)%list, r, w1).
Proof. unfold newPersistentLocalstack. apply run_bind. Qed.

Lemma started_run (services : LocalstackServiceCollection)
    (answer : option dockertest.Resource * option error) (w : W) :
  let calls := calls_of d (started services answer) w in
  let r := result_of d (started services answer) w in
  run_options calls = []
  /\ retry_ops calls
     = repeat (readiness (fst answer)) (List.length (retry_answers calls))
  /\ match snd answer with
     | Some e =>
         retry_answers calls = []
         /\ r = (None, Some ("could not start resource: " ++ e))
     | None =>
         (retry_answers calls = repeat None (List.length services)
          /\ r = (Some {| Resource := fst answer; Services := services |},
                  None))
         \/ exists n service e,
              nth_error services n = Some service
              /\ retry_answers calls = (repeat None n ++ [Some e])%list
              /\ r = (None, Some ("unable to connect to " ++ Name service
                                  ++ ": " ++ e))
     end.
Proof.
  destruct answer as [localstack [e|]]; cbn [started fst snd].
  - cbn. auto.
  - pose proof (waitForServices_run localstack services services w) as H.
    cbn zeta in H. tauto.
Qed.

(** Every run of the constructor ends in one of three ways: it failed
    before any poll; every service was polled once, successfully, and the
    handle is returned; or the polls stopped at the first error. *)
Lemma newPersistentLocalstack_outcome
    (services : LocalstackServiceCollection)
    (name repository tag data : string) (w : W) :
  let p := newPersistentLocalstack services name repository tag data in
  let answers := retry_answers (calls_of d p w) in
  let r := result_of d p w in
  (exists localstack,
     retry_ops (calls_of d p w)
     = repeat (readiness localstack) (List.length answers))
  /\ ((answers = [] /\ exists e, r = (None, Some e))
      \/ (answers = repeat None (List.length services)
          /\ exists localstack,
               r = (Some {| Resource := localstack; Services := services |},
                    None))
      \/ (exists n service e,
            nth_error services n = Some service
            /\ answers = (repeat None n ++ [Some e])%list
            /\ r = (None, Some ("unable to connect to " ++ Name service
                                ++ ": " ++ e)))).
Proof.
  cbn zeta. unfold calls_of, result_of.
  rewrite newPersistentLocalstack_run.
  pose proof (discovery_shaped_getLocalstack services name repository tag w)
    as Hd.
  unfold calls_of, result_of in Hd.
  destruct (run d (getLocalstack services name repository tag) w)
    as [[calls0 answer] w0].
  cbn [fst snd] in Hd. destruct Hd as (Ha0 & Ho0 & _ & Hshape).
  destruct Hshape as [-> | [[resource ->] | [e ->]]]; cbn [resolved].
  - (* nothing found: the container is started *)
    cbn [run].
    destruct (doRunWithOptions d
                (runOptions services name repository tag data) w0)
      as [started_answer w1].
    pose proof (started_run services started_answer w1) as Hs.
    unfold calls_of, result_of in Hs.
    destruct (run d (started services started_answer) w1)
      as [[calls1 r] w2].
    cbn [fst snd] in *. cbn zeta in Hs.
    rewrite retry_answers_app, retry_ops_app, Ha0, Ho0.
    cbn [app retry_answers retry_ops].
    destruct Hs as (_ & Hops & Hres).
    split; [eauto|].
    destruct started_answer as [localstack [e|]]; cbn [fst snd] in Hres.
    + left. destruct Hres as [-> ->]. eauto.
    + destruct Hres as [[-> ->] | Hres]; [right; left; eauto | auto].
  - (* found *)
    pose proof (waitForServices_run (Some resource) services services w0)
      as Hs.
    unfold calls_of, result_of in Hs.
    destruct (run d (waitForServices (Some resource) services services) w0)
      as [[calls1 r] w1].
    cbn [fst snd] in *. cbn zeta in Hs.
    rewrite retry_answers_app, retry_ops_app, Ha0, Ho0. cbn [app].
    destruct Hs as (_ & _ & Hops & Hres).
    split; [eauto|].
    destruct Hres as [[-> ->] | Hres]; [right; left; eauto | auto].
  - (* discovery failed *)
    cbn [run fst snd]. rewrite app_nil_r, Ha0, Ho0.
    split; [exists None; reflexivity|]. left. eauto.
Qed.

Lemma nth_error_repeat_None_snoc (n m : nat) (e e' : error) :
  nth_error (repeat (@None error) n ++ [Some e])%list m = Some (Some e') ->
  m = n /\ e' = e.
Proof.
  revert m. induction n as [|n IH]; intros [|m]; cbn; intros H.
  - now injection H as ->.
  - destruct m; discriminate.
  - discriminate.
  - destruct (IH _ H) as [-> ->]. auto.
Qed.

Lemma nth_error_repeat_None (n m : nat) (e : error) :
  nth_error (repeat (@None error) n) m <> Some (Some e).
Proof.
  intros H. apply nth_error_In, repeat_spec in H. discriminate.
Qed.

(** *** Discovery and creation *)

Lemma getLocalstack_found_run (services : LocalstackServiceCollection)
    (name repository tag : string) (w w1 w2 : W)
    (before : list docker.APIContainers) (c : docker.APIContainers)
    (after : list docker.APIContainers)
    (answer : option docker.Container.t * option error) :
  name <> "" ->
  doListContainers d {| docker.All := true |} w
  = ((before ++ c :: after, None)%list, w1) ->
  Forall (fun c' => ~ matches name repository tag c') before ->
  matches name repository tag c ->
  doInspectContainer d (docker.ID c) w1 = (answer, w2) ->
  run d (getLocalstack services name repository tag) w
  = ([CallListContainers {| docker.All := true |}
        ((before ++ c :: after)%list, None);
      CallInspectContainer (docker.ID c) answer],
     match snd answer with
     | Some e =>
         (None, Some ("unable to inspect container " ++ docker.ID c
                      ++ ": " ++ e))
     | None => (Some {| dockertest.Container := fst answer |}, None)
     end,
     w2).
Proof.
  intros Hname Hlist Hbefore Hc Hinspect.
  rewrite getLocalstack_named by exact Hname.
  cbn [run]. rewrite Hlist. cbn [listed].
  rewrite getLocalstack_containers_first by assumption.
  cbn [run]. rewrite Hinspect.
  destruct answer as [container [e|]]; reflexivity.
Qed.

Lemma getLocalstack_missing_run (services : LocalstackServiceCollection)
    (name repository tag : string) (w w1 : W)
    (containers : list docker.APIContainers) :
  name <> "" ->
  doListContainers d {| docker.All := true |} w
  = ((containers, None), w1) ->
  Forall (fun c => ~ matches name repository tag c) containers ->
  run d (getLocalstack services name repository tag) w
  = ([CallListContainers {| docker.All := true |} (containers, None)],
     (None, None), w1).
Proof.
  intros Hname Hlist Hnone.
  rewrite getLocalstack_named by exact Hname.
  cbn [run]. rewrite Hlist. cbn [listed].
  rewrite getLocalstack_containers_none by assumption.
  reflexivity.
Qed.

(** When discovery ends with no container and no error, the constructor
    calls [RunWithOptions] exactly once, with [runOptions]. *)
Lemma creation_run_options (services : LocalstackServiceCollection)
    (name repository tag data : string) (w : W) :
  result_of d (getLocalstack services name repository tag) w
  = (None, None) ->
  run_options
    (calls_of d (newPersistentLocalstack services name repository tag data)
       w)
  = [runOptions services name repository tag data].
Proof.
  unfold calls_of, result_of. intros Hr.
  rewrite newPersistentLocalstack_run.
  pose proof (discovery_shaped_getLocalstack services name repository tag w)
    as Hd.
  unfold calls_of, result_of in Hd.
  destruct (run d (getLocalstack services name repository tag) w)
    as [[calls0 answer] w0].
  cbn [fst snd] in *. subst answer. cbn [resolved run].
  destruct (doRunWithOptions d
              (runOptions services name repository tag data) w0)
    as [started_answer w1].
  pose proof (started_run services started_answer w1) as Hs.
  unfold calls_of, result_of in Hs.
  destruct (run d (started services started_answer) w1) as [[calls1 r] w2].
  cbn [fst snd] in *.
  destruct Hd as (_ & _ & Hrun0 & _). destruct Hs as (Hrun1 & _).
  rewrite run_options_app, Hrun0. cbn [app run_options].
  now rewrite Hrun1.
Qed.

(** When discovery ends with a resource, [RunWithOptions] is not called. *)
Lemma found_no_run (services : LocalstackServiceCollection)
    (name repository tag data : string) (w : W)
    (resource : dockertest.Resource) :
  result_of d (getLocalstack services name repository tag) w
  = (Some resource, None) ->
  run_options
    (calls_of d (newPersistentLocalstack services name repository tag data)
       w)
  = [].
Proof.
  unfold calls_of, result_of. intros Hr.
  rewrite newPersistentLocalstack_run.
  pose proof (discovery_shaped_getLocalstack services name repository tag w)
    as Hd.
  unfold calls_of, result_of in Hd.
  destruct (run d (getLocalstack services name repository tag) w)
    as [[calls0 answer] w0].
  cbn [fst snd] in *. subst answer. cbn [resolved].
  pose proof (waitForServices_run (Some resource) services services w0)
    as Hs.
  unfold calls_of, result_of in Hs.
  destruct (run d (waitForServices (Some resource) services services) w0)
    as [[calls1 r] w1].
  cbn [fst snd] in *.
  destruct Hd as (_ & _ & Hrun0 & _). destruct Hs as (Hrun1 & _).
  now rewrite run_options_app, Hrun0, Hrun1.
Qed.

(** C2.  For a non-empty name and a listing that succeeds: if the first
    listed container whose image is exactly "<repository>:<tag>" and whose
    names include "/<name>" is [c], and inspecting it succeeds, then
    [getLocalstack] returns a resource wrapping the inspected container and
    no error, having inspected [c] and nothing else, and the constructor
    never calls [RunWithOptions]; if no listed container satisfies both
    conditions, [getLocalstack] returns a nil resource and a nil error, and
    the constructor goes on to create the container: it calls
    [RunWithOptions] once. *)
Theorem discovery_first_match_wins
    (services : LocalstackServiceCollection)
    (name repository tag data : string) (w w1 : W)
    (containers : list docker.APIContainers) :
  name <> "" ->
  doListContainers d {| docker.All := true |} w
  = ((containers, None), w1) ->
  (forall before c after container w2,
      containers = (before ++ c :: after)%list ->
      Forall (fun c' => ~ matches name repository tag c') before ->
      matches name repository tag c ->
      doInspectContainer d (docker.ID c) w1 = ((container, None), w2) ->
      result_of d (getLocalstack services name repository tag) w
      = (Some {| dockertest.Container := container |}, None)
      /\ inspected_ids
           (calls_of d (getLocalstack services name repository tag) w)
         = [docker.ID c]
      /\ run_options
           (calls_of d (getLocalstack services name repository tag) w)
         = []
      /\ run_options
           (calls_of d
              (newPersistentLocalstack services name repository tag data) w)
         = [])
  /\ (Forall (fun c => ~ matches name repository tag c) containers ->
      result_of d (getLocalstack services name repository tag) w
      = (None, None)
      /\ inspected_ids
           (calls_of d (getLocalstack services name repository tag) w)
         = []
      /\ run_options
           (calls_of d
              (newPersistentLocalstack services name repository tag data) w)
         = [runOptions services name repository tag data]).
Proof.
  intros Hname Hlist. split.
  - intros before c after container w2 -> Hbefore Hc Hinspect.
    pose proof (@getLocalstack_found_run services name repository tag
                  w w1 w2 before c after (container, None)
                  Hname Hlist Hbefore Hc Hinspect) as Hrun.
    cbn [fst snd] in Hrun.
    assert (Hres : result_of d (getLocalstack services name repository tag) w
                   = (Some {| dockertest.Container := container |}, None))
      by (unfold result_of; now rewrite Hrun).
    split; [exact Hres|].
    unfold calls_of at 1 2. rewrite Hrun. cbn [fst inspected_ids run_options].
    split; [reflexivity|]. split; [reflexivity|].
    eapply found_no_run. exact Hres.
  - intros Hnone.
    pose proof (@getLocalstack_missing_run services name repository tag
                  w w1 containers Hname Hlist Hnone) as Hrun.
    assert (Hres : result_of d (getLocalstack services name repository tag) w
                   = (None, None))
      by (unfold result_of; now rewrite Hrun).
    split; [exact Hres|].
    unfold calls_of at 1. rewrite Hrun. cbn [fst inspected_ids].
    split; [reflexivity|].
    now apply creation_run_options.
Qed.

(** C7.  The constructor returns either a handle and a nil error, or a nil
    handle and an error, never both and never neither.  When listing
    fails, when inspecting the matching container fails, and when starting
    a container fails, it returns a nil handle and an error that names the
    operation (and the container id, for an inspection) followed by the
    text of the underlying error. *)
Theorem construction_fails_without_handle
    (services : LocalstackServiceCollection)
    (name repository tag data : string) (w : W) :
  let p := newPersistentLocalstack services name repository tag data in
  ((exists handle, result_of d p w = (Some handle, None))
   \/ (exists e, result_of d p w = (None, Some e)))
  /\ (forall containers e w1,
        name <> "" ->
        doListContainers d {| docker.All := true |} w
        = ((containers, Some e), w1) ->
        result_of d p w
        = (None, Some ("unable to retrieve docker containers: " ++ e)))
  /\ (forall before c after container e w1 w2,
        name <> "" ->
        doListContainers d {| docker.All := true |} w
        = ((before ++ c :: after, None)%list, w1) ->
        Forall (fun c' => ~ matches name repository tag c') before ->
        matches name repository tag c ->
        doInspectContainer d (docker.ID c) w1
        = ((container, Some e), w2) ->
        result_of d p w
        = (None, Some ("unable to inspect container " ++ docker.ID c
                       ++ ": " ++ e)))
  /\ (forall calls0 w0 resource e w1,
        run d (getLocalstack services name repository tag) w
        = (calls0, (None, None), w0) ->
        doRunWithOptions d (runOptions services name repository tag data) w0
        = ((resource, Some e), w1) ->
        result_of d p w
        = (None, Some ("could not start resource: " ++ e))).
Proof.
  cbn zeta. split; [|split; [|split]].
  - destruct (newPersistentLocalstack_outcome services name repository tag
                data w) as [_ Hcases].
    cbn zeta in Hcases.
    destruct Hcases as [[_ [e ->]] | [[_ [l ->]] | (n & s & e & _ & _ & ->)]];
      eauto.
  - intros containers e w1 Hname Hlist.
    unfold result_of. rewrite newPersistentLocalstack_run.
    rewrite getLocalstack_named by exact Hname.
    cbn [run]. rewrite Hlist. reflexivity.
  - intros before c after container e w1 w2 Hname Hlist Hbefore Hc Hinspect.
    unfold result_of. rewrite newPersistentLocalstack_run.
    rewrite (@getLocalstack_found_run services name repository tag
               w w1 w2 before c after (container, Some e)
               Hname Hlist Hbefore Hc Hinspect).
    reflexivity.
  - intros calls0 w0 resource e w1 Hfind Hstart.
    unfold result_of. rewrite newPersistentLocalstack_run, Hfind.
    cbn [resolved run]. rewrite Hstart. reflexivity.
Qed.

End Runs.

Lemma discovery_first_match_wins_witness :
  let w := script_found [] in
  result_of MockDockerWrapper
    (getLocalstack [sqs] LocalstackName LocalstackRepository LocalstackTag) w
  = (Some {| dockertest.Container := Some inspected_container |}, None)
  /\ inspected_ids
       (calls_of MockDockerWrapper
          (getLocalstack [sqs] LocalstackName LocalstackRepository
             LocalstackTag) w)
     = ["bbb"]
  /\ run_options
       (calls_of MockDockerWrapper
          (newLocalstack [sqs] LocalstackName LocalstackRepository
             LocalstackTag) w)
     = [].
Proof.
  cbn zeta.
  assert (Hname : LocalstackName <> "") by discriminate.
  destruct (@discovery_first_match_wins Script MockDockerWrapper [sqs]
              LocalstackName LocalstackRepository LocalstackTag ""
              (script_found []) (script_found [])
              [dummy_container; localstack_container;
               second_localstack_container]
              Hname eq_refl) as [Hfound _].
  assert (Hbefore :
            Forall (fun c' => ~ matches LocalstackName LocalstackRepository
                                  LocalstackTag c') [dummy_container]).
  { constructor; [|constructor]. intros [Himg _]. discriminate Himg. }
  assert (Hc : matches LocalstackName LocalstackRepository LocalstackTag
                 localstack_container).
  { split; [reflexivity | simpl; auto]. }
  destruct (Hfound [dummy_container] localstack_container
              [second_localstack_container] (Some inspected_container)
              (script_found []) eq_refl Hbefore Hc eq_refl)
    as (H1 & H2 & _ & H4).
  split; [exact H1|]. split; [exact H2 | exact H4].
Defined.

Lemma construction_fails_without_handle_witness :
  result_of MockDockerWrapper
    (newLocalstack [sqs] LocalstackName LocalstackRepository LocalstackTag)
    script_list_error
  = (None, Some "unable to retrieve docker containers: dummy Error").
Proof.
  assert (Hname : LocalstackName <> "") by discriminate.
  destruct (construction_fails_without_handle MockDockerWrapper [sqs]
              LocalstackName LocalstackRepository LocalstackTag ""
              script_list_error) as (_ & Hlist & _).
  exact (Hlist [] "dummy Error" script_list_error Hname eq_refl).
Defined.

(** ** Run options *)

(** The options of a created container: repository, tag and name as
    supplied, the environment starting with "SERVICES=" and the collection's
    service map; with a non-empty data directory the environment also holds
    "DATA_DIR=<data>" and the options mount the host data path, with an empty
    one neither is there. *)
Lemma runOptions_fields (services : LocalstackServiceCollection)
    (name repository tag data : string) :
  let options := runOptions services name repository tag data in
  dockertest.Repository options = repository
  /\ dockertest.Tag options = tag
  /\ dockertest.Name options = name
  /\ In ("SERVICES=" ++ GetServiceMap services) (dockertest.Env options)
  /\ (data <> "" ->
      dockertest.Env options
      = ["SERVICES=" ++ GetServiceMap services; "DATA_DIR=" ++ data]
      /\ dockertest.Mounts options
         = ["/tmp/localstack/data:/tmp/localstack/data"])
  /\ (data = "" ->
      dockertest.Env options = ["SERVICES=" ++ GetServiceMap services]
      /\ dockertest.Mounts options = []).
Proof.
  unfold runOptions.
  destruct data as [|c data]; cbn; repeat split; auto; congruence.
Qed.

Lemma Legacy_waitForServices_run_options {W : Type} (d : DockerWrapper W)
    (localstack : option dockertest.Resource)
    (services : LocalstackServiceCollection)
    (remaining : list LocalstackService) (w : W) :
  run_options
    (calls_of d (Legacy.waitForServices localstack services remaining) w)
  = [].
Proof.
  unfold calls_of. revert w.
  induction remaining as [|service rest IH]; intros w;
    cbn [Legacy.waitForServices run]; [reflexivity|].
  destruct (doRetry d (Legacy.readiness localstack) w) as [[e|] w1].
  - reflexivity.
  - specialize (IH w1).
    destruct (run d (Legacy.waitForServices localstack services rest) w1)
      as [[calls r] w2].
    exact IH.
Qed.

(** Without a name the older constructor looks for no container and calls
    [RunWithOptions] once, with its [runOptions]. *)
Lemma Legacy_unnamed_run_options {W : Type} (d : DockerWrapper W)
    (services : LocalstackServiceCollection) (repository tag data : string)
    (w : W) :
  run_options
    (calls_of d (Legacy.newPersistentLocalstack services "" repository tag
                   data) w)
  = [Legacy.runOptions services "" repository tag data].
Proof.
  unfold calls_of, Legacy.newPersistentLocalstack, Legacy.getLocalstack.
  cbn [String.eqb negb bind run].
  destruct (doRunWithOptions d
              (Legacy.runOptions services "" repository tag data) w)
    as [[localstack [e|]] w1].
  - reflexivity.
  - pose proof (Legacy_waitForServices_run_options d localstack services
                  services w1) as H.
    unfold calls_of in H.
    destruct (run d (Legacy.waitForServices localstack services services) w1)
      as [[calls r] w2].
    cbn [fst run_options] in *. now rewrite H.
Qed.

(** C4.  In the older copy of [localstack.go], [NewPersistentLocalstack]
    called with the data directory "/tmp/localstack/data" starts the
    container, on every adapter, with the environment "SERVICES=s3:4566"
    alone: the directory is not passed on, and no "DATA_DIR" entry and no
    mount is set.  The same call of [NewPersistentLocalstack] of
    [pkg/localstack/localstack.go] starts it with "DATA_DIR" set and the
    data path mounted. *)
Theorem Legacy_NewPersistentLocalstack_drops_data
    {W : Type} (d : DockerWrapper W) (w : W) :
  run_options
    (calls_of d (Legacy.NewPersistentLocalstack [s3] "/tmp/localstack/data") w)
  = [ {| dockertest.Repository := "localstack/localstack";
         dockertest.Tag := "latest";
         dockertest.Name := "";
         dockertest.Env := ["SERVICES=s3:4566"];
         dockertest.Mounts := [];
         dockertest.PortBindings :=
           [("4566", [{| docker.HostIP := ""; docker.HostPort := "4566" |}])];
         dockertest.ExposedPorts := ["4566"] |} ]
  /\ run_options
       (calls_of d (NewPersistentLocalstack [s3] "/tmp/localstack/data") w)
     = [ {| dockertest.Repository := "localstack/localstack";
            dockertest.Tag := "latest";
            dockertest.Name := "";
            dockertest.Env :=
              ["SERVICES=s3:4566"; "DATA_DIR=/tmp/localstack/data"];
            dockertest.Mounts := ["/tmp/localstack/data:/tmp/localstack/data"];
            dockertest.PortBindings := [];
            dockertest.ExposedPorts := [] |} ].
Proof.
  split.
  - unfold Legacy.NewPersistentLocalstack, Legacy.NewSpecificLocalstack,
      Legacy.NewPersistentSpecificLocalstack.
    now rewrite Legacy_unnamed_run_options.
  - unfold NewPersistentLocalstack, NewPersistentSpecificLocalstack.
    now rewrite creation_run_options.
Qed.

(** ** Session configuration *)

(** C9.  For every handle, [CreateAWSSession] configures region
    "us-east-1", SSL disabled, S3 path-style addressing forced, the handle
    itself as endpoint resolver, and the static credentials "a", "b", "c";
    apart from the resolver the configuration does not depend on the
    handle. *)
Theorem CreateAWSSession_constant (ls : Localstack) :
  aws.Region (CreateAWSSession ls) = Some "us-east-1"
  /\ aws.DisableSSL (CreateAWSSession ls) = Some true
  /\ aws.S3ForcePathStyle (CreateAWSSession ls) = Some true
  /\ aws.EndpointResolver (CreateAWSSession ls) = Some ls
  /\ aws.EndpointResolver (CreateAWSSession ls) <> None
  /\ aws.Credentials (CreateAWSSession ls)
     = Some {| credentials.AccessKeyID := "a";
               credentials.SecretAccessKey := "b";
               credentials.SessionToken := "c" |}
  /\ forall ls' : Localstack,
       aws.Region (CreateAWSSession ls') = aws.Region (CreateAWSSession ls)
       /\ aws.DisableSSL (CreateAWSSession ls')
          = aws.DisableSSL (CreateAWSSession ls)
       /\ aws.S3ForcePathStyle (CreateAWSSession ls')
          = aws.S3ForcePathStyle (CreateAWSSession ls)
       /\ aws.Credentials (CreateAWSSession ls')
          = aws.Credentials (CreateAWSSession ls).
Proof.
  repeat split. discriminate.
Qed.

(** ** Endpoint resolution on the sample handle *)

Lemma EndpointFor_gated_by_Services_witness :
  let ls := {| Resource := Some inspected_resource; Services := [sqs; s3] |} in
  EndpointFor sample_GetHostPort sample_DefaultResolver ls "sqs" "us-west-2" []
  = Returned
      ({| endpoints.URL := "http://1.0.0.0:9566";
          endpoints.PartitionID := "";
          endpoints.SigningRegion := "";
          endpoints.SigningName := "";
          endpoints.SigningNameDerived := false;
          endpoints.SigningMethod := "" |}, None)
  /\ EndpointFor sample_GetHostPort sample_DefaultResolver ls
       "email" "us-west-2" []
     = Returned (sample_DefaultResolver "email" "us-west-2" []).
Proof.
  cbn zeta.
  destruct (EndpointFor_gated_by_Services sample_GetHostPort
              sample_DefaultResolver
              {| Resource := Some inspected_resource; Services := [sqs; s3] |}
              "sqs" "us-west-2" []
              (Permutation_refl (map_keys availableServices)))
    as (Hhit & _).
  destruct (EndpointFor_gated_by_Services sample_GetHostPort
              sample_DefaultResolver
              {| Resource := Some inspected_resource; Services := [sqs; s3] |}
              "email" "us-west-2" []
              (Permutation_refl (map_keys availableServices)))
    as (_ & Hmiss & _).
  split.
  - destruct Hhit as [Hurl _]; [simpl; tauto | reflexivity|].
    apply (Hurl inspected_resource). reflexivity.
  - apply Hmiss. right. reflexivity.
Defined.

Lemma secretsmanager_never_resolved_witness :
  EndpointFor sample_GetHostPort sample_DefaultResolver
    {| Resource := None; Services := [sqs; s3] |}
    "secretsmanager" "us-west-2" []
  = Returned (sample_DefaultResolver "secretsmanager" "us-west-2" []).
Proof.
  destruct (secretsmanager_never_resolved sample_GetHostPort
              sample_DefaultResolver) as (_ & _ & _ & _ & H).
  apply H. unfold built_from_constructor. cbn [Services].
  repeat constructor; [exists "sqs" | exists "s3"]; reflexivity.
Defined.

(** ** The readiness closure *)

(** *** Strings as lists of bytes *)

Lemma chars_app (s1 s2 : string) :
  list_ascii_of_string (s1 ++ s2)
  = (list_ascii_of_string s1 ++ list_ascii_of_string s2)%list.
Proof. induction s1 as [|c s1 IH]; cbn; [reflexivity | now rewrite IH]. Qed.

Lemma chars_inj (s1 s2 : string) :
  list_ascii_of_string s1 = list_ascii_of_string s2 -> s1 = s2.
Proof.
  intros H.
  rewrite <- (string_of_list_ascii_of_string s1),
          <- (string_of_list_ascii_of_string s2).
  now rewrite H.
Qed.

Lemma string_of_list_ascii_app (l1 l2 : list ascii) :
  string_of_list_ascii (l1 ++ l2)
  = string_of_list_ascii l1 ++ string_of_list_ascii l2.
Proof. induction l1 as [|c l1 IH]; cbn; [reflexivity | now rewrite IH]. Qed.

Lemma chars_string_rev (s : string) :
  list_ascii_of_string (string_rev s) = rev (list_ascii_of_string s).
Proof. unfold string_rev. apply list_ascii_of_string_of_list_ascii. Qed.

Lemma string_rev_involutive (s : string) : string_rev (string_rev s) = s.
Proof.
  apply chars_inj. now rewrite !chars_string_rev, rev_involutive.
Qed.

Lemma string_rev_app (s1 s2 : string) :
  string_rev (s1 ++ s2) = string_rev s2 ++ string_rev s1.
Proof.
  apply chars_inj.
  now rewrite chars_app, !chars_string_rev, chars_app, rev_app_distr.
Qed.

Lemma string_app_assoc (s1 s2 s3 : string) :
  (s1 ++ s2) ++ s3 = s1 ++ s2 ++ s3.
Proof. induction s1 as [|c s1 IH]; cbn; [reflexivity | now rewrite IH]. Qed.

Lemma string_app_nil_r (s : string) : s ++ "" = s.
Proof. induction s as [|c s IH]; cbn; [reflexivity | now rewrite IH]. Qed.

Lemma string_length_app (s1 s2 : string) :
  String.length (s1 ++ s2) = String.length s1 + String.length s2.
Proof. induction s1 as [|c s1 IH]; cbn; [reflexivity | now rewrite IH]. Qed.

(** *** [strings.Contains] *)

Lemma prefix_iff (sub s : string) :
  String.prefix sub s = true <-> exists post, s = sub ++ post.
Proof.
  revert s. induction sub as [|a sub IH]; intros s.
  - split; [intros _; now exists s | intros _; now destruct s].
  - destruct s as [|b s]; cbn.
    + split; [discriminate | intros [post H]; discriminate].
    + destruct (ascii_dec a b) as [-> | Hne].
      * rewrite IH. split; intros [post H]; exists post.
        -- now rewrite H.
        -- now injection H.
      * split; [discriminate|].
        intros [post H]. injection H as H _. congruence.
Qed.

Lemma strings_Contains_iff (s sub : string) :
  strings_Contains s sub = true <-> exists pre post, s = pre ++ sub ++ post.
Proof.
  induction s as [|c s IH]; cbn [strings_Contains].
  - rewrite orb_false_r, prefix_iff. split.
    + intros [post H]. now exists "", post.
    + intros [[|a pre] [post H]]; [now exists post | discriminate].
  - rewrite orb_true_iff, prefix_iff, IH. split.
    + intros [[post H] | [pre [post H]]].
      * now exists "", post.
      * exists (String c pre), post. now rewrite H.
    + intros [[|a pre] [post H]].
      * left. now exists post.
      * right. injection H as _ H. now exists pre, post.
Qed.

Lemma bool_eq_iff (a b : bool) : (a = true <-> b = true) -> a = b.
Proof.
  destruct a, b; intros [H1 H2]; auto; symmetry; auto.
Qed.

Lemma strings_Contains_rev (s sub : string) :
  strings_Contains (string_rev s) (string_rev sub) = strings_Contains s sub.
Proof.
  apply bool_eq_iff. rewrite !strings_Contains_iff.
  split; intros [pre [post H]]; exists (string_rev post), (string_rev pre).
  - apply (f_equal string_rev) in H.
    rewrite string_rev_involutive, !string_rev_app, string_rev_involutive in H.
    now rewrite string_app_assoc in H.
  - rewrite H, !string_rev_app. now rewrite string_app_assoc.
Qed.

(** A leading byte other than the first byte of [sub] is no part of an
    occurrence of [sub]. *)
Lemma strings_Contains_skip (a c : ascii) (s sub : string) :
  a <> c ->
  strings_Contains (String a s) (String c sub)
  = strings_Contains s (String c sub).
Proof.
  intros Hne. cbn [strings_Contains String.prefix].
  destruct (ascii_dec c a) as [-> | _]; [contradiction | reflexivity].
Qed.

(** *** Trimming keeps the occurrences of a word without spaces *)

Lemma strings_Contains_skip_rune (c : ascii) (rune s sub : string) :
  avoids c rune = true ->
  strings_Contains (rune ++ s) (String c sub)
  = strings_Contains s (String c sub).
Proof.
  unfold avoids. induction rune as [|a rune IH]; cbn; [reflexivity|].
  intros H. apply andb_true_iff in H. destruct H as [Ha Hrest].
  specialize (IH Hrest).
  change (strings_Contains (String a (rune ++ s)) (String c sub)
          = strings_Contains s (String c sub)).
  rewrite strings_Contains_skip; [exact IH|].
  intros ->. now rewrite Ascii.eqb_refl in Ha.
Qed.

Lemma strip_prefix_Some (p s s' : string) :
  strip_prefix p s = Some s' -> s = p ++ s'.
Proof.
  revert s. induction p as [|a p IH]; intros s; cbn.
  - now intros [= ->].
  - destruct s as [|b s]; [discriminate|].
    destruct (Ascii.eqb_spec a b) as [-> | _]; [|discriminate].
    intros H. now rewrite (IH _ H).
Qed.

Lemma strip_first_Some (runes : list string) (s s' : string) :
  strip_first runes s = Some s' -> exists r, In r runes /\ s = r ++ s'.
Proof.
  induction runes as [|r rest IH]; cbn; [discriminate|].
  destruct (strip_prefix r s) as [t|] eqn:Hr.
  - intros [= <-]. exists r. split; [now left | now apply strip_prefix_Some].
  - intros H. destruct (IH H) as [r' [Hin Heq]]. exists r'. auto.
Qed.

Lemma strings_Contains_trim_runes (runes : list string) (c : ascii)
    (sub : string) :
  forallb (avoids c) runes = true ->
  forall (fuel : nat) (s : string),
    strings_Contains (trim_runes runes fuel s) (String c sub)
    = strings_Contains s (String c sub).
Proof.
  intros Hruns. induction fuel as [|fuel IH]; intros s; cbn [trim_runes];
    [reflexivity|].
  destruct (strip_first runes s) as [s'|] eqn:Hs; [|reflexivity].
  destruct (strip_first_Some _ _ Hs) as [r [Hin ->]].
  rewrite IH. symmetry. apply strings_Contains_skip_rune.
  rewrite forallb_forall in Hruns. now apply Hruns.
Qed.

Lemma strings_Contains_TrimSpace (s : string) :
  strings_Contains (strings_TrimSpace s) expected
  = strings_Contains s expected.
Proof.
  unfold strings_TrimSpace, TrimRightSpace.
  rewrite <- (string_rev_involutive expected) at 1.
  rewrite strings_Contains_rev.
  change (string_rev expected) with (String "."%char "ydaeR").
  rewrite strings_Contains_trim_runes by reflexivity.
  change (String "."%char "ydaeR") with (string_rev expected).
  rewrite strings_Contains_rev.
  unfold TrimLeftSpace, expected.
  now rewrite strings_Contains_trim_runes.
Qed.

Lemma ready_line_Contains (text : string) :
  ready_line text = strings_Contains text expected.
Proof.
  unfold ready_line. now rewrite !strings_Contains_TrimSpace.
Qed.

(** *** The scanner *)

Lemma dropCR_cases (data : string) :
  dropCR data = data \/ data = dropCR data ++ String CR "".
Proof.
  induction data as [|c rest IH]; [now left|].
  destruct rest as [|c' rest'].
  - cbn. destruct (Ascii.eqb_spec c CR) as [-> | _]; [now right | now left].
  - change (dropCR (String c (String c' rest')))
      with (String c (dropCR (String c' rest'))).
    destruct IH as [-> | IH]; [now left | right].
    cbn [append]. now rewrite <- IH.
Qed.

Lemma strings_Contains_dropCR (data : string) :
  strings_Contains (dropCR data) expected = strings_Contains data expected.
Proof.
  destruct (dropCR_cases data) as [-> | H]; [reflexivity|].
  rewrite H at 2.
  rewrite <- (strings_Contains_rev (dropCR data ++ String CR "")).
  rewrite string_rev_app.
  change (string_rev (String CR "")) with (String CR "").
  change (string_rev expected) with (String "."%char "ydaeR").
  cbn [append].
  rewrite strings_Contains_skip by discriminate.
  change (String "."%char "ydaeR") with (string_rev expected).
  now rewrite strings_Contains_rev.
Qed.

Lemma scan_pieces_short (pieces : list string) :
  Forall (fun piece => String.length piece < MaxScanTokenSize) pieces ->
  snd (scan_pieces pieces) = None
  /\ existsb ready_line (fst (scan_pieces pieces))
     = existsb (fun piece => strings_Contains piece expected) pieces.
Proof.
  induction 1 as [|piece rest Hshort _ IH]; [split; reflexivity|].
  cbn [scan_pieces].
  rewrite (proj2 (Nat.leb_gt _ _) Hshort). clear Hshort.
  destruct rest as [|piece' rest'].
  - destruct piece as [|c piece]; [split; reflexivity|].
    cbn [fst snd existsb].
    rewrite ready_line_Contains, strings_Contains_dropCR.
    split; reflexivity.
  - destruct (scan_pieces (piece' :: rest')) as [tokens err].
    cbn [fst snd existsb] in *. destruct IH as [-> ->].
    rewrite ready_line_Contains, strings_Contains_dropCR.
    split; reflexivity.
Qed.

Lemma some_line_Ready (pieces : list string) :
  existsb (fun piece => strings_Contains piece expected) pieces = true
  <-> exists line,
        In line pieces
        /\ strings_Contains (strings_TrimSpace line) expected = true.
Proof.
  rewrite existsb_exists.
  split; intros [line [Hin H]]; exists line; split; auto.
  - now rewrite strings_Contains_TrimSpace.
  - now rewrite strings_Contains_TrimSpace in H.
Qed.

(** C5, as amended.  When the client is created, the log is fetched, and
    every line of the log is shorter than the scanner's 65536-byte token
    limit, the closure handed to [Retry] returns [nil] exactly when some
    line of the log, with surrounding white space trimmed, contains
    "Ready."; and when no line does, it returns the error "not Ready". *)
Theorem readiness_succeeds_iff_Ready_line
    (env : DockerEnv) (container : docker.Container.t) (buffer : string) :
  NewClientFromEnv env = None ->
  Logs env {| docker.Container := docker.Container.ID container;
              docker.RawTerminal := true;
              docker.Stdout := true;
              docker.Stderr := true |} = (buffer, None) ->
  Forall (fun line => String.length line < MaxScanTokenSize)
         (split_lines buffer) ->
  let check :=
    readiness (Some {| dockertest.Container := Some container |}) in
  (check env = Returns None
   <-> exists line,
         In line (split_lines buffer)
         /\ strings_Contains (strings_TrimSpace line) "Ready." = true)
  /\ ((forall line,
         In line (split_lines buffer) ->
         strings_Contains (strings_TrimSpace line) "Ready." = false) ->
      check env = Returns (Some "not Ready")).
Proof.
  intros Hclient Hlogs Hshort. cbn zeta.
  unfold readiness. rewrite Hclient. cbn [dockertest.Container].
  rewrite Hlogs. unfold bufio_Scanner.
  destruct (scan_pieces_short Hshort) as [Herr Hready].
  destruct (scan_pieces (split_lines buffer)) as [tokens scanErr].
  cbn [fst snd] in *. subst scanErr. rewrite Hready.
  change "Ready." with expected.
  rewrite <- some_line_Ready.
  destruct (existsb (fun piece => strings_Contains piece expected)
              (split_lines buffer)) eqn:Hex.
  - split; [tauto|]. intros Hnone.
    apply some_line_Ready in Hex. destruct Hex as [line [Hin Hline]].
    rewrite (Hnone line Hin) in Hline. discriminate.
  - split; [|reflexivity]. split; discriminate.
Qed.

Lemma readiness_succeeds_iff_Ready_line_witness :
  readiness (Some {| dockertest.Container := Some inspected_container |})
    (env_with_log ("Starting" ++ String LF (" Ready. " ++ String LF "")))
  = Returns None.
Proof.
  destruct (@readiness_succeeds_iff_Ready_line
              (env_with_log ("Starting" ++ String LF
                                           (" Ready. " ++ String LF "")))
              inspected_container
              ("Starting" ++ String LF (" Ready. " ++ String LF ""))
              eq_refl eq_refl) as [Hiff _].
  - repeat (constructor; [apply Nat.ltb_lt; vm_compute; reflexivity|]).
    constructor.
  - apply Hiff. exists " Ready. ". split; [right; left|]; reflexivity.
Defined.

(** *** A line that does not fit the scanner's buffer *)

Lemma string_repeat_length (c : ascii) (n : nat) :
  String.length (string_repeat c n) = n.
Proof. induction n as [|n IH]; cbn; [reflexivity | now rewrite IH]. Qed.

Lemma split_lines_repeat (c : ascii) (n : nat) (rest : string) :
  c <> LF ->
  split_lines (string_repeat c n ++ String LF rest)
  = string_repeat c n :: split_lines rest.
Proof.
  intros Hc. induction n as [|n IH].
  - reflexivity.
  - cbn [string_repeat append split_lines].
    destruct (Ascii.eqb_spec c LF) as [Heq | _]; [contradiction|].
    now rewrite IH.
Qed.

(** C5 as stated does not hold: the log [long_line_log] has the line
    "Ready.", yet the closure does not return [nil]; it returns the
    scanner's error, because the line before is as long as the scanner's
    buffer. *)
Lemma readiness_fails_after_long_line :
  (exists line,
     In line (split_lines long_line_log)
     /\ strings_Contains (strings_TrimSpace line) "Ready." = true)
  /\ readiness (Some {| dockertest.Container := Some inspected_container |})
       (env_with_log long_line_log)
     = Returns (Some "reading input: bufio.Scanner: token too long").
Proof.
  assert (Hsplit : split_lines long_line_log
                   = [string_repeat "a"%char MaxScanTokenSize; "Ready."]).
  { unfold long_line_log. rewrite split_lines_repeat by discriminate.
    reflexivity. }
  split.
  - exists "Ready.". rewrite Hsplit. split; [right; left|]; reflexivity.
  - unfold readiness, env_with_log, bufio_Scanner.
    cbn [NewClientFromEnv Logs dockertest.Container].
    rewrite Hsplit. cbn [scan_pieces].
    rewrite string_repeat_length, Nat.leb_refl.
    reflexivity.
Qed.

(** ** [sort.Sort] on a slice *)

Unset Implicit Arguments.

Section SliceSort.

Variable A : Type.
Variable less : A -> A -> bool.
Variable d : A.
Hypothesis less_swo : strict_weak_order less.

Local Notation "l .[ i ]" := (nth i l d) (at level 1, format "l .[ i ]").
Local Abbreviation Less := (slice_Less less).
Local Abbreviation Swap := (@slice_Swap A).
Local Abbreviation rperm := (range_perm d).
Local Abbreviation sorted := (sorted_range less d).
Local Abbreviation le := (not_after less).
Local Abbreviation slice := (@slice A).

(** *** Assignment, [Less] and [Swap] *)

Lemma assign_length (l : list A) (i : nat) (x : A) :
  List.length (assign l i x) = List.length l.
Proof.
  revert i. induction l as [|y l IH]; intros [|i]; cbn; auto.
Qed.

Lemma nth_assign (l : list A) (i k : nat) (x : A) :
  i < List.length l ->
  (assign l i x).[k] = if Nat.eqb k i then x else l.[k].
Proof.
  revert i k. induction l as [|y l IH]; intros i k Hi; cbn in Hi; [lia|].
  destruct i as [|i], k as [|k]; cbn; auto.
  apply IH. lia.
Qed.

Lemma nth_error_nth_d (l : list A) (i : nat) :
  i < List.length l -> nth_error l i = Some l.[i].
Proof. intros H. now apply nth_error_nth'. Qed.

Lemma Less_spec (l : list A) (i j : nat) :
  i < List.length l -> j < List.length l ->
  Less l i j = less l.[i] l.[j].
Proof.
  intros Hi Hj. unfold slice_Less.
  now rewrite (nth_error_nth_d l i Hi), (nth_error_nth_d l j Hj).
Qed.

Lemma Swap_unfold (l : list A) (i j : nat) :
  i < List.length l -> j < List.length l ->
  Swap l i j = assign (assign l i l.[j]) j l.[i].
Proof.
  intros Hi Hj. unfold slice_Swap.
  now rewrite (nth_error_nth_d l i Hi), (nth_error_nth_d l j Hj).
Qed.

Lemma Swap_length (l : list A) (i j : nat) :
  List.length (Swap l i j) = List.length l.
Proof.
  unfold slice_Swap.
  destruct (nth_error l i), (nth_error l j); auto.
  now rewrite !assign_length.
Qed.

Lemma nth_Swap (l : list A) (i j k : nat) :
  i < List.length l -> j < List.length l ->
  (Swap l i j).[k]
  = if Nat.eqb k j then l.[i] else if Nat.eqb k i then l.[j] else l.[k].
Proof.
  intros Hi Hj. rewrite Swap_unfold by assumption.
  rewrite nth_assign by (now rewrite assign_length).
  destruct (Nat.eqb k j); [reflexivity|].
  now rewrite nth_assign.
Qed.

Lemma assign_head_Permutation (h y : A) (t : list A) (j : nat) :
  nth_error t j = Some y ->
  Permutation (h :: t) (y :: assign t j h).
Proof.
  revert j. induction t as [|z t IH]; intros [|j] H; cbn in *;
    try discriminate.
  - injection H as ->. apply perm_swap.
  - eapply perm_trans; [apply perm_swap|].
    eapply perm_trans; [apply perm_skip, IH, H|].
    apply perm_swap.
Qed.

Lemma nth_error_assign_other (l : list A) (i j : nat) (x : A) :
  i <> j -> nth_error (assign l i x) j = nth_error l j.
Proof.
  revert i j. induction l as [|y l IH]; intros [|i] [|j] H; cbn; auto;
    try lia.
Qed.

Lemma Swap_Permutation (l : list A) (i j : nat) :
  Permutation l (Swap l i j).
Proof.
  unfold slice_Swap.
  destruct (nth_error l i) as [x|] eqn:Hx; [|reflexivity].
  destruct (nth_error l j) as [y|] eqn:Hy; [|reflexivity].
  revert i j Hx Hy.
  induction l as [|h t IH]; intros [|i] [|j] Hx Hy; cbn in *;
    try discriminate.
  - injection Hx as ->. injection Hy as ->. reflexivity.
  - injection Hx as ->. now apply assign_head_Permutation.
  - injection Hy as ->.
    change (Permutation (y :: t) (x :: assign t i y)).
    now apply assign_head_Permutation.
  - apply perm_skip. now apply IH.
Qed.

(** *** Rearrangements of a range *)

Lemma rperm_refl (a b : nat) (l : list A) : rperm a b l l.
Proof. repeat split; auto. Qed.

Lemma rperm_trans (a b : nat) (l1 l2 l3 : list A) :
  rperm a b l1 l2 -> rperm a b l2 l3 -> rperm a b l1 l3.
Proof.
  intros (Hl1 & Hp1 & Hf1) (Hl2 & Hp2 & Hf2). repeat split.
  - congruence.
  - eapply perm_trans; eauto.
  - intros k Hk. rewrite Hf2, Hf1; auto.
Qed.

Lemma rperm_widen (a b a' b' : nat) (l l' : list A) :
  a' <= a -> b <= b' -> rperm a b l l' -> rperm a' b' l l'.
Proof.
  intros Ha Hb (Hl & Hp & Hf). repeat split; auto.
  intros k Hk. apply Hf. lia.
Qed.

Lemma rperm_Swap (a b : nat) (l : list A) (i j : nat) :
  a <= i -> i < b -> a <= j -> j < b -> b <= List.length l ->
  rperm a b l (Swap l i j).
Proof.
  intros Hai Hib Haj Hjb Hb. repeat split.
  - apply Swap_length.
  - apply Swap_Permutation.
  - intros k Hk. rewrite nth_Swap by lia.
    destruct (Nat.eqb_spec k j); [lia|].
    destruct (Nat.eqb_spec k i); [lia|]. reflexivity.
Qed.

Lemma rperm_length (a b : nat) (l l' : list A) :
  rperm a b l l' -> List.length l' = List.length l.
Proof. now intros [H _]. Qed.

Lemma rperm_outside (a b : nat) (l l' : list A) (k : nat) :
  rperm a b l l' -> k < a \/ b <= k -> l'.[k] = l.[k].
Proof. intros (_ & _ & H). apply H. Qed.

Lemma slice_length (a b : nat) (l : list A) :
  b <= List.length l -> List.length (slice a b l) = b - a.
Proof.
  intros Hb. unfold slice. rewrite length_firstn, length_skipn. lia.
Qed.

Lemma nth_slice (a b : nat) (l : list A) (i : nat) :
  i < b - a -> (slice a b l).[i] = l.[a + i].
Proof.
  intros Hi. unfold slice. rewrite nth_firstn.
  destruct (Nat.ltb_spec i (b - a)); [|lia].
  apply nth_skipn.
Qed.

Lemma split_at_range (a b : nat) (l : list A) :
  a <= b ->
  l = (firstn a l ++ slice a b l ++ skipn b l)%list.
Proof.
  intros Hab. unfold slice.
  rewrite <- (firstn_skipn a l) at 1. f_equal.
  rewrite <- (firstn_skipn (b - a) (skipn a l)) at 1. f_equal.
  rewrite skipn_skipn. f_equal. lia.
Qed.

Lemma rperm_slice (a b : nat) (l l' : list A) :
  a <= b -> b <= List.length l ->
  rperm a b l l' -> Permutation (slice a b l) (slice a b l').
Proof.
  intros Hab Hb (Hl & Hp & Hf).
  assert (Hfirst : firstn a l' = firstn a l).
  { apply nth_ext with (d := d) (d' := d).
    - rewrite !length_firstn. lia.
    - intros k Hk. rewrite length_firstn in Hk.
      rewrite !nth_firstn.
      destruct (Nat.ltb_spec k a); [|lia]. apply Hf. lia. }
  assert (Hlast : skipn b l' = skipn b l).
  { apply nth_ext with (d := d) (d' := d).
    - rewrite !length_skipn. lia.
    - intros k Hk. rewrite !nth_skipn. apply Hf. lia. }
  rewrite (split_at_range a b l Hab) in Hp at 1.
  rewrite (split_at_range a b l' Hab) in Hp.
  rewrite Hfirst, Hlast in Hp.
  apply Permutation_app_inv_l in Hp.
  now apply Permutation_app_inv_r in Hp.
Qed.

Lemma all_range_slice (P : A -> Prop) (a b : nat) (l : list A) :
  a <= b -> b <= List.length l ->
  (all_range d P l a b <-> Forall P (slice a b l)).
Proof.
  intros Hab Hb. rewrite Forall_forall. split.
  - intros H x Hx. apply In_nth with (d := d) in Hx.
    destruct Hx as (i & Hi & <-). rewrite slice_length in Hi by assumption.
    rewrite nth_slice by assumption. apply H; lia.
  - intros H i Hai Hib.
    replace i with (a + (i - a)) by lia.
    rewrite <- (nth_slice a b) by lia.
    apply H, nth_In. rewrite slice_length by assumption. lia.
Qed.

Lemma all_range_rperm (P : A -> Prop) (a b : nat) (l l' : list A) :
  a <= b -> b <= List.length l ->
  rperm a b l l' -> all_range d P l a b -> all_range d P l' a b.
Proof.
  intros Hab Hb Hr H.
  pose proof (rperm_length a b l l' Hr) as Hl.
  apply all_range_slice; [assumption | lia |].
  apply all_range_slice in H; [|assumption|assumption].
  eapply Permutation_Forall; [|exact H].
  now apply rperm_slice.
Qed.

(** *** The order *)

Lemma less_asym (x y : A) : less x y = true -> less y x = false.
Proof.
  intros H. destruct (less y x) eqn:Hyx; [|reflexivity].
  pose proof (less_trans less_swo x y x H Hyx) as Hxx.
  now rewrite (less_irrefl less_swo) in Hxx.
Qed.

Lemma le_refl (x : A) : le x x.
Proof. apply (less_irrefl less_swo). Qed.

Lemma le_trans (x y z : A) : le x y -> le y z -> le x z.
Proof. apply (not_after_trans less_swo). Qed.

Lemma less_le (x y : A) : less x y = true -> le x y.
Proof. apply less_asym. Qed.

Lemma not_less_le (x y : A) : less x y = false -> le y x.
Proof. auto. Qed.

(** Reading an element of a slice after a [Swap]. *)
Ltac swap_nth :=
  repeat (rewrite nth_Swap by lia);
  repeat match goal with
         | |- context [Nat.eqb ?x ?y] =>
             destruct (Nat.eqb_spec x y); try lia
         end.

(** *** Insertion sort *)

Local Abbreviation insertionSort_inner :=
  (@sort.insertionSort_inner (list A) (slice_Interface less)).
Local Abbreviation insertionSort_outer :=
  (@sort.insertionSort_outer (list A) (slice_Interface less)).
Local Abbreviation insertionSort :=
  (@sort.insertionSort (list A) (slice_Interface less)).

(** The inner loop lets the element at [j] sink into the sorted range
    before it; [top] is where the sorted range after [j] ends. *)
Lemma insertionSort_inner_spec (a top : nat) :
  forall (j : nat) (l : list A),
    a <= j -> j <= top -> top < List.length l ->
    sorted l a j ->
    sorted l j (S top) ->
    (forall i k, a <= i -> i < j -> j < k -> k <= top -> le l.[i] l.[k]) ->
    rperm a (S top) l (insertionSort_inner l a j)
    /\ sorted (insertionSort_inner l a j) a (S top).
Proof.
  induction j as [|j' IH]; intros l Ha Htop Hlen Hlow Hhigh Hcross.
  - cbn. split; [apply rperm_refl|].
    intros i k Hi Hik Hk. apply Hhigh; lia.
  - cbn [sort.insertionSort_inner sort.Less sort.Swap slice_Interface].
    destruct (Nat.ltb_spec a (S j')) as [Haj | Haj]; cbn [andb].
    + rewrite Less_spec by lia.
      destruct (less l.[S j'] l.[j']) eqn:Hless.
      * (* the element moves one place down *)
        assert (Hlen1 : top < List.length (Swap l (S j') j'))
          by (rewrite Swap_length; lia).
        destruct (IH (Swap l (S j') j')) as [Hperm Hsorted];
          try lia.
        -- intros i k Hi Hik Hk. unfold not_after. swap_nth.
           apply Hlow; lia.
        -- intros i k Hi Hik Hk. unfold not_after. swap_nth; subst;
             solve [ now apply less_asym
                   | apply Hcross; lia
                   | apply Hhigh; lia ].
        -- intros i k Hi Hij Hjk Hk. unfold not_after. swap_nth; subst;
             solve [ apply Hlow; lia | apply Hcross; lia ].
        -- split; [|exact Hsorted].
           eapply rperm_trans; [|exact Hperm].
           apply rperm_Swap; lia.
      * (* the element is in place *)
        split; [apply rperm_refl|].
        intros i k Hi Hik Hk.
        destruct (Nat.lt_ge_cases k (S j')) as [Hkj | Hkj];
          [apply Hlow; lia|].
        destruct (Nat.lt_ge_cases i (S j')) as [Hij | Hij];
          [|apply Hhigh; lia].
        destruct (Nat.eq_dec k (S j')) as [-> | Hne];
          [|apply Hcross; lia].
        destruct (Nat.eq_dec i j') as [-> | Hne]; [exact Hless|].
        apply le_trans with (y := l.[j']); [apply Hlow; lia | exact Hless].
    + split; [apply rperm_refl|].
      intros i k Hi Hik Hk. apply Hhigh; lia.
Qed.

Lemma insertionSort_outer_spec (a : nat) :
  forall (count i : nat) (l : list A),
    a < i -> i + count <= List.length l ->
    sorted l a i ->
    rperm a (i + count) l (insertionSort_outer l a i count)
    /\ sorted (insertionSort_outer l a i count) a (i + count).
Proof.
  induction count as [|count IH]; intros i l Hai Hlen Hsorted.
  - cbn. rewrite Nat.add_0_r. split; [apply rperm_refl | exact Hsorted].
  - cbn [sort.insertionSort_outer].
    destruct (insertionSort_inner_spec a i i l) as [Hperm1 Hsorted1];
      try lia; try assumption; try (intros j k; lia).
    pose proof (rperm_length _ _ _ _ Hperm1) as Hlen1.
    destruct (IH (S i) (insertionSort_inner l a i)) as [Hperm2 Hsorted2];
      try lia; try assumption.
    replace (i + S count) with (S i + count) by lia.
    split; [|exact Hsorted2].
    eapply rperm_trans; [|exact Hperm2].
    eapply rperm_widen; [| |exact Hperm1]; lia.
Qed.

Lemma insertionSort_spec (l : list A) (a b : nat) :
  b <= List.length l ->
  rperm a b l (insertionSort l a b) /\ sorted (insertionSort l a b) a b.
Proof.
  intros Hb. unfold sort.insertionSort.
  destruct (Nat.le_gt_cases b (a + 1)) as [Hsmall | Hbig].
  - replace (b - (a + 1)) with 0 by lia. cbn.
    split; [apply rperm_refl|]. intros i j Hi Hij Hj. lia.
  - destruct (insertionSort_outer_spec a (b - (a + 1)) (a + 1) l)
      as [Hperm Hsorted]; try lia; try (intros i j; lia).
    replace (a + 1 + (b - (a + 1))) with b in * by lia. auto.
Qed.

(** *** The Shell pass and the small-range sort *)

Local Abbreviation shellPass :=
  (@sort.shellPass (list A) (slice_Interface less)).
Local Abbreviation sortSmall :=
  (@sort.sortSmall (list A) (slice_Interface less)).

Lemma shellPass_spec (a b : nat) :
  forall (count i : nat) (l : list A),
    a + 6 <= i -> i + count <= b -> b <= List.length l ->
    rperm a b l (shellPass l i count).
Proof.
  induction count as [|count IH]; intros i l Hi Hb Hlen;
    cbn [sort.shellPass sort.Less sort.Swap slice_Interface].
  - apply rperm_refl.
  - destruct (Less l i (i - 6)).
    + eapply rperm_trans; [apply (rperm_Swap a b l i (i - 6)); lia|].
      apply IH; rewrite ?Swap_length; lia.
    + apply IH; lia.
Qed.

Lemma sortSmall_spec (l : list A) (a b : nat) :
  b <= List.length l ->
  rperm a b l (sortSmall l a b) /\ sorted (sortSmall l a b) a b.
Proof.
  intros Hb. unfold sort.sortSmall.
  destruct (Nat.ltb_spec 1 (b - a)) as [Hbig | Hsmall].
  - destruct (Nat.le_gt_cases b (a + 6)) as [H6 | H6].
    + replace (b - (a + 6)) with 0 by lia. cbn [sort.shellPass].
      now apply insertionSort_spec.
    + pose proof (shellPass_spec a b (b - (a + 6)) (a + 6) l) as Hshell.
      assert (Hperm : rperm a b l (shellPass l (a + 6) (b - (a + 6))))
        by (apply Hshell; lia).
      pose proof (rperm_length _ _ _ _ Hperm) as Hlen.
      destruct (insertionSort_spec (shellPass l (a + 6) (b - (a + 6))) a b)
        as [Hperm2 Hsorted]; [lia|].
      split; [|exact Hsorted].
      eapply rperm_trans; eassumption.
  - split; [apply rperm_refl|]. intros i j Hi Hij Hj. lia.
Qed.

(** *** Median of three *)

Local Abbreviation medianOfThree :=
  (@sort.medianOfThree (list A) (slice_Interface less)).

Lemma medianOfThree_spec (lo hi : nat) (l : list A) (m1 m0 m2 : nat) :
  hi <= List.length l ->
  lo <= m0 -> m0 < hi -> lo <= m1 -> m1 < hi -> lo <= m2 -> m2 < hi ->
  rperm lo hi l (medianOfThree l m1 m0 m2)
  /\ (m0 <> m1 -> m1 <> m2 -> m0 <> m2 ->
      le (medianOfThree l m1 m0 m2).[m1] (medianOfThree l m1 m0 m2).[m2]).
Proof.
  intros Hlen H0 H0' H1 H1' H2 H2'.
  unfold sort.medianOfThree.
  cbn [sort.Less sort.Swap slice_Interface].
  set (l1 := if Less l m1 m0 then Swap l m1 m0 else l).
  assert (Hl1 : rperm lo hi l l1).
  { unfold l1. destruct (Less l m1 m0);
      [apply rperm_Swap; lia | apply rperm_refl]. }
  pose proof (rperm_length _ _ _ _ Hl1) as Hlen1.
  assert (H01 : m0 <> m1 -> le l1.[m0] l1.[m1]).
  { intros Hd. unfold l1. destruct (Less l m1 m0) eqn:H10.
    - rewrite Less_spec in H10 by lia. unfold not_after. swap_nth.
      now apply less_asym.
    - rewrite Less_spec in H10 by lia. exact H10. }
  destruct (Less l1 m2 m1) eqn:H21.
  - set (l2 := Swap l1 m2 m1).
    assert (Hl2 : rperm lo hi l1 l2) by (apply rperm_Swap; lia).
    pose proof (rperm_length _ _ _ _ Hl2) as Hlen2.
    rewrite Less_spec in H21 by lia.
    assert (H12 : less l2.[m1] l2.[m2] = true).
    { unfold l2. swap_nth; subst; auto. }
    destruct (Less l2 m1 m0) eqn:H10.
    + split.
      * eapply rperm_trans; [exact Hl1|].
        eapply rperm_trans; [exact Hl2|]. apply rperm_Swap; lia.
      * intros Hd1 Hd2 Hd3. unfold not_after. swap_nth.
        specialize (H01 Hd1). unfold not_after in H01.
        unfold l2. swap_nth. exact H01.
    + split.
      * eapply rperm_trans; eassumption.
      * intros _ _ _. now apply less_le.
  - split; [exact Hl1|]. intros _ _ _.
    rewrite Less_spec in H21 by lia. exact H21.
Qed.

(** *** The scans of [doPivot] *)

Local Abbreviation skip_less :=
  (@sort.doPivot_skip_less (list A) (slice_Interface less)).
Local Abbreviation skip_le :=
  (@sort.doPivot_skip_le (list A) (slice_Interface less)).
Local Abbreviation skip_greater :=
  (@sort.doPivot_skip_greater (list A) (slice_Interface less)).
Local Abbreviation skip_equal :=
  (@sort.doPivot_skip_equal (list A) (slice_Interface less)).

Lemma skip_less_spec (l : list A) (pivot c : nat) :
  pivot < List.length l -> c <= List.length l ->
  forall (fuel a : nat),
    let a' := skip_less fuel l pivot a c in
    a <= a'
    /\ (a <= c -> a' <= c)
    /\ (forall i, a <= i -> i < a' -> less l.[i] l.[pivot] = true)
    /\ (c - a <= fuel -> a' < c -> less l.[a'] l.[pivot] = false).
Proof.
  intros Hp Hc. induction fuel as [|fuel IH]; intros a;
    cbn [sort.doPivot_skip_less sort.Less slice_Interface].
  - repeat split; try lia.
  - destruct (Nat.ltb_spec a c) as [Hac | Hac]; cbn [andb].
    + rewrite Less_spec by lia.
      destruct (less l.[a] l.[pivot]) eqn:Hless.
      * destruct (IH (S a)) as (H1 & H2 & H3 & H4).
        repeat split; try lia.
        -- intros i Hi Hi'.
           destruct (Nat.eq_dec i a) as [-> | Hne]; [exact Hless|].
           apply H3; lia.
        -- intros Hfuel. apply H4. lia.
      * repeat split; try lia. intros _ _. exact Hless.
    + repeat split; try lia.
Qed.

Lemma skip_le_spec (l : list A) (pivot c : nat) :
  pivot < List.length l -> c <= List.length l ->
  forall (fuel b : nat),
    let b' := skip_le fuel l pivot b c in
    b <= b'
    /\ (b <= c -> b' <= c)
    /\ (forall i, b <= i -> i < b' -> less l.[pivot] l.[i] = false)
    /\ (c - b <= fuel -> b' < c -> less l.[pivot] l.[b'] = true).
Proof.
  intros Hp Hc. induction fuel as [|fuel IH]; intros b;
    cbn [sort.doPivot_skip_le sort.Less slice_Interface].
  - repeat split; try lia.
  - destruct (Nat.ltb_spec b c) as [Hbc | Hbc]; cbn [andb].
    + rewrite Less_spec by lia.
      destruct (less l.[pivot] l.[b]) eqn:Hless; cbn [negb].
      * repeat split; try lia. intros _ _. exact Hless.
      * destruct (IH (S b)) as (H1 & H2 & H3 & H4).
        repeat split; try lia.
        -- intros i Hi Hi'.
           destruct (Nat.eq_dec i b) as [-> | Hne]; [exact Hless|].
           apply H3; lia.
        -- intros Hfuel. apply H4. lia.
    + repeat split; try lia.
Qed.

Lemma skip_greater_spec (l : list A) (pivot b : nat) :
  pivot < List.length l ->
  forall (fuel c : nat),
    c <= List.length l ->
    let c' := skip_greater fuel l pivot b c in
    c' <= c
    /\ (b <= c -> b <= c')
    /\ (forall i, c' <= i -> i < c -> less l.[pivot] l.[i] = true)
    /\ (c - b <= fuel -> b < c' -> less l.[pivot] l.[c' - 1] = false).
Proof.
  intros Hp. induction fuel as [|fuel IH]; intros c Hc;
    cbn [sort.doPivot_skip_greater sort.Less slice_Interface].
  - repeat split; try lia.
  - destruct (Nat.ltb_spec b c) as [Hbc | Hbc]; cbn [andb].
    + rewrite Less_spec by lia.
      destruct (less l.[pivot] l.[c - 1]) eqn:Hless.
      * destruct (IH (c - 1)) as (H1 & H2 & H3 & H4); [lia|].
        repeat split; try lia.
        -- intros i Hi Hi'.
           destruct (Nat.eq_dec i (c - 1)) as [-> | Hne]; [exact Hless|].
           apply H3; lia.
        -- intros Hfuel. apply H4. lia.
      * repeat split; try lia. intros _ _. exact Hless.
    + repeat split; try lia.
Qed.

Lemma skip_equal_spec (l : list A) (pivot a : nat) :
  pivot < List.length l ->
  forall (fuel b : nat),
    b <= List.length l ->
    let b' := skip_equal fuel l pivot a b in
    b' <= b
    /\ (a <= b -> a <= b')
    /\ (forall i, b' <= i -> i < b -> less l.[i] l.[pivot] = false)
    /\ (b - a <= fuel -> a < b' -> less l.[b' - 1] l.[pivot] = true).
Proof.
  intros Hp. induction fuel as [|fuel IH]; intros b Hb;
    cbn [sort.doPivot_skip_equal sort.Less slice_Interface].
  - repeat split; try lia.
  - destruct (Nat.ltb_spec a b) as [Hab | Hab]; cbn [andb].
    + rewrite Less_spec by lia.
      destruct (less l.[b - 1] l.[pivot]) eqn:Hless; cbn [negb].
      * repeat split; try lia. intros _ _. exact Hless.
      * destruct (IH (b - 1)) as (H1 & H2 & H3 & H4); [lia|].
        repeat split; try lia.
        -- intros i Hi Hi'.
           destruct (Nat.eq_dec i (b - 1)) as [-> | Hne]; [exact Hless|].
           apply H3; lia.
        -- intros Hfuel. apply H4. lia.
    + repeat split; try lia.
Qed.

(** *** The partition loop *)

Local Abbreviation doPivot_partition :=
  (@sort.doPivot_partition (list A) (slice_Interface less)).
Local Abbreviation pinv := (partition_inv less d).
Local Abbreviation kinv := (pivot_inv less d).

Lemma doPivot_partition_spec (lo hi : nat) (l0 : list A) :
  hi <= List.length l0 -> lo + 1 < hi ->
  forall (fuel : nat) (l : list A) (b c : nat),
    pinv lo hi l0 l b c -> c - b < fuel ->
    pinv lo hi l0 (fst (fst (doPivot_partition fuel l lo b c)))
         (snd (fst (doPivot_partition fuel l lo b c)))
         (snd (doPivot_partition fuel l lo b c))
    /\ snd (fst (doPivot_partition fuel l lo b c))
       = snd (doPivot_partition fuel l lo b c).
Proof.
  intros Hhi Hlo.
  induction fuel as [|fuel IH]; intros l b c Hinv Hfuel; [lia|].
  destruct Hinv as (Hperm & Hb & Hbc & Hc & Hlow & Hhigh).
  pose proof (rperm_length _ _ _ _ Hperm) as Hlen.
  assert (Hpivot : l.[lo] = l0.[lo])
    by (apply (rperm_outside _ _ _ _ lo Hperm); lia).
  cbn [sort.doPivot_partition sort.Swap slice_Interface].
  destruct (skip_le_spec l lo c) with (fuel := c - b) (b := b)
    as (Hb1 & Hb1c & Hle & Hstop1); try lia.
  set (b1 := skip_le (c - b) l lo b c) in *.
  specialize (Hb1c Hbc).
  destruct (skip_greater_spec l lo b1) with (fuel := c - b1) (c := c)
    as (Hc1 & Hb1c1 & Hgt & Hstop2); try lia.
  set (c1 := skip_greater (c - b1) l lo b1 c) in *.
  specialize (Hb1c1 Hb1c).
  rewrite Hpivot in Hle, Hgt, Hstop1, Hstop2.
  destruct (Nat.leb_spec c1 b1) as [Hexit | Hgo]; cbn [fst snd].
  - split; [|lia].
    split; [exact Hperm|]. split; [lia|]. split; [lia|]. split; [lia|].
    split.
    + intros i Hi Hi'.
      destruct (Nat.lt_ge_cases i b) as [Hib | Hib];
        [apply Hlow; lia | apply Hle; lia].
    + intros i Hi Hi'.
      destruct (Nat.lt_ge_cases i c) as [Hic | Hic];
        [apply less_le, Hgt; lia | apply Hhigh; lia].
  - assert (Hgt1 : less l0.[lo] l.[b1] = true) by (apply Hstop1; lia).
    assert (Hle1 : less l0.[lo] l.[c1 - 1] = false) by (apply Hstop2; lia).
    assert (Hne : b1 <> c1 - 1) by (intros Heq; rewrite Heq in Hgt1; congruence).
    apply IH; [|lia].
    split; [|split; [lia|split; [lia|split; [lia|split]]]].
    + eapply rperm_trans; [exact Hperm|]. apply rperm_Swap; lia.
    + intros i Hi Hi'. unfold not_after. swap_nth; subst.
      * exact Hle1.
      * destruct (Nat.lt_ge_cases i b) as [Hib | Hib];
          [apply Hlow; lia | apply Hle; lia].
    + intros i Hi Hi'. unfold not_after. swap_nth; subst.
      * now apply less_asym.
      * destruct (Nat.lt_ge_cases i c) as [Hic | Hic];
          [apply less_asym, Hgt; lia | apply Hhigh; lia].
Qed.

(** *** Gathering the elements equal to the pivot *)

Local Abbreviation doPivot_dups :=
  (@sort.doPivot_dups (list A) (slice_Interface less)).
Local Abbreviation doPivot_protect :=
  (@sort.doPivot_protect (list A) (slice_Interface less)).

Section Pivot.

Variables (lo hi : nat) (l0 : list A).
Hypothesis Hhi : hi <= List.length l0.
Hypothesis Hlo : lo + 1 < hi.

Lemma kinv_length (l : list A) (b c : nat) :
  kinv lo hi l0 l b c -> List.length l = List.length l0.
Proof. intros (Hperm & _). exact (rperm_length _ _ _ _ Hperm). Qed.

Lemma kinv_pivot (l : list A) (b c : nat) :
  kinv lo hi l0 l b c -> l.[lo] = l0.[lo].
Proof.
  intros (Hperm & _). apply (rperm_outside _ _ _ _ lo Hperm). lia.
Qed.

(** The range of elements equal to the pivot grows downwards over elements
    that are not before the pivot. *)
Lemma kinv_shrink (l : list A) (b c b1 : nat) :
  kinv lo hi l0 l b c ->
  lo + 1 <= b1 -> b1 <= b ->
  (forall i, b1 <= i -> i < b -> less l.[i] l0.[lo] = false) ->
  kinv lo hi l0 l b1 c.
Proof.
  intros (Hperm & Hb & Hbc & Hc & Hlow & Hmid & Hhigh) Hb1 Hb1b Heq.
  split; [exact Hperm|]. split; [lia|]. split; [lia|]. split; [lia|].
  split; [|split].
  - intros i Hi Hi'. apply Hlow; lia.
  - intros i Hi Hi'.
    destruct (Nat.lt_ge_cases i b) as [Hib | Hib]; [|apply Hmid; lia].
    split; [apply Heq; lia | apply Hlow; lia].
  - exact Hhigh.
Qed.

(** An element not before the pivot, found below [b], is exchanged with the
    last element below [b]. *)
Lemma kinv_swap_down (l : list A) (b c m : nat) :
  kinv lo hi l0 l b c ->
  lo + 1 <= m -> m < b ->
  less l.[m] l0.[lo] = false ->
  kinv lo hi l0 (Swap l m (b - 1)) (b - 1) c.
Proof.
  intros Hinv Hm Hmb Hnot.
  pose proof (kinv_length _ _ _ Hinv) as Hlen.
  destruct Hinv as (Hperm & Hb & Hbc & Hc & Hlow & Hmid & Hhigh).
  split; [|split; [lia|split; [lia|split; [lia|split; [|split]]]]].
  - eapply rperm_trans; [exact Hperm|]. apply rperm_Swap; lia.
  - intros i Hi Hi'. unfold not_after. swap_nth; subst; apply Hlow; lia.
  - intros i Hi Hi'. unfold equivalent. swap_nth; subst;
      first [ apply Hmid; lia | split; [exact Hnot | apply Hlow; lia] ].
  - intros i Hi Hi'. unfold not_after. swap_nth. apply Hhigh; lia.
Qed.

(** The last element of the range, when equal to the pivot, joins the
    equal elements. *)
Lemma kinv_swap_last (l : list A) (b c : nat) :
  kinv lo hi l0 l b c ->
  c < hi - 1 ->
  less l0.[lo] l.[hi - 1] = false ->
  kinv lo hi l0 (Swap l c (hi - 1)) b (c + 1).
Proof.
  intros Hinv Hclt Hnot.
  pose proof (kinv_length _ _ _ Hinv) as Hlen.
  destruct Hinv as (Hperm & Hb & Hbc & Hc & Hlow & Hmid & Hhigh).
  split; [|split; [lia|split; [lia|split; [lia|split; [|split]]]]].
  - eapply rperm_trans; [exact Hperm|]. apply rperm_Swap; lia.
  - intros i Hi Hi'. unfold not_after. swap_nth. apply Hlow; lia.
  - intros i Hi Hi'. unfold equivalent. swap_nth; subst;
      first [ apply Hmid; lia | split; [apply Hhigh; lia | exact Hnot] ].
  - intros i Hi Hi'. unfold not_after. swap_nth; subst; apply Hhigh; lia.
Qed.

Lemma doPivot_dups_spec (l : list A) (c : nat) :
  12 < hi - lo ->
  kinv lo hi l0 l c c ->
  let r := doPivot_dups l lo ((lo + hi) / 2) lo hi c c in
  kinv lo hi l0 (fst (fst (fst r))) (snd (fst (fst r))) (snd (fst r)).
Proof.
  intros Hbig Hinv. cbn zeta. unfold sort.doPivot_dups.
  destruct (Nat.ltb_spec (hi - c) 5) as [H5 | H5]; cbn [negb andb];
    [exact Hinv|].
  destruct (Nat.ltb_spec (hi - c) ((hi - lo) / 4)) as [H4 | H4];
    [|exact Hinv].
  cbn [sort.Less sort.Swap slice_Interface].
  pose proof (kinv_length _ _ _ Hinv) as Hlen.
  pose proof (kinv_pivot _ _ _ Hinv) as Hpivot.
  pose proof (Nat.Div0.mul_div_le (hi - lo) 4) as Hquarter.
  pose proof (Nat.Div0.mul_div_le (lo + hi) 2) as Hhalf.
  assert (Hhalf' : lo + hi < 2 * S ((lo + hi) / 2))
    by (apply Nat.mul_succ_div_gt; lia).
  (* data[hi-1] = pivot *)
  assert (H1 : exists l1 c1 dups1,
             (if negb (Less l lo (hi - 1))
              then (Swap l c (hi - 1), c + 1, 1)
              else (l, c, 0)) = (l1, c1, dups1)
             /\ kinv lo hi l0 l1 c c1).
  { rewrite Less_spec by lia. rewrite Hpivot.
    destruct (less l0.[lo] l.[hi - 1]) eqn:Hlast; cbn [negb].
    - exists l, c, 0. split; [reflexivity | exact Hinv].
    - exists (Swap l c (hi - 1)), (c + 1), 1. split; [reflexivity|].
      apply kinv_swap_last; auto. lia. }
  destruct H1 as (l1 & c1 & dups1 & -> & Hinv1).
  pose proof (kinv_length _ _ _ Hinv1) as Hlen1.
  pose proof (kinv_pivot _ _ _ Hinv1) as Hpivot1.
  (* data[b-1] = pivot *)
  assert (H2 : exists b2 dups2,
             (if negb (Less l1 (c - 1) lo)
              then (c - 1, dups1 + 1)
              else (c, dups1)) = (b2, dups2)
             /\ kinv lo hi l0 l1 b2 c1 /\ c - 1 <= b2).
  { rewrite Less_spec by lia. rewrite Hpivot1.
    destruct (less l1.[c - 1] l0.[lo]) eqn:Hb; cbn [negb].
    - exists c, dups1. split; [reflexivity|]. split; [exact Hinv1 | lia].
    - exists (c - 1), (dups1 + 1). split; [reflexivity|]. split; [|lia].
      apply kinv_shrink with (b := c); auto; try lia.
      intros i Hi Hi'. replace i with (c - 1) by lia. exact Hb. }
  destruct H2 as (b2 & dups2 & -> & Hinv2 & Hb2).
  (* data[m] = pivot *)
  rewrite Less_spec by lia. rewrite Hpivot1.
  destruct (less l1.[(lo + hi) / 2] l0.[lo]) eqn:Hm; cbn [negb fst snd].
  - exact Hinv2.
  - apply kinv_swap_down; auto; lia.
Qed.

Lemma doPivot_protect_spec (c : nat) :
  forall (fuel : nat) (l : list A) (a b : nat),
    kinv lo hi l0 l b c -> lo + 1 <= a ->
    kinv lo hi l0 (fst (doPivot_protect fuel l lo a b))
         (snd (doPivot_protect fuel l lo a b)) c.
Proof.
  induction fuel as [|fuel IH]; intros l a b Hinv Ha; [exact Hinv|].
  pose proof (kinv_length _ _ _ Hinv) as Hlen.
  pose proof (kinv_pivot _ _ _ Hinv) as Hpivot.
  assert (Hbhi : b <= hi) by (destruct Hinv as (_ & _ & ? & ? & _); lia).
  cbn [sort.doPivot_protect sort.Swap slice_Interface].
  destruct (skip_equal_spec l lo a) with (fuel := b - a) (b := b)
    as (Hb1 & Hab1 & Heq & Hstop1); try lia.
  set (b1 := skip_equal (b - a) l lo a b) in *.
  rewrite Hpivot in Heq, Hstop1.
  assert (Hinv1 : kinv lo hi l0 l b1 c).
  { destruct (Nat.le_gt_cases a b) as [Hab | Hab].
    - apply kinv_shrink with (b := b); auto. specialize (Hab1 Hab). lia.
    - assert (Hb1b : b1 = b).
      { unfold b1. replace (b - a) with 0 by lia. reflexivity. }
      now rewrite Hb1b. }
  destruct (skip_less_spec l lo b1) with (fuel := b1 - a) (a := a)
    as (Ha1 & Ha1b & Hlt & Hstop2); try lia.
  set (a1 := skip_less (b1 - a) l lo a b1) in *.
  rewrite Hpivot in Hlt, Hstop2.
  destruct (Nat.leb_spec b1 a1) as [Hexit | Hgo]; cbn [fst snd];
    [exact Hinv1|].
  assert (Hn : less l.[a1] l0.[lo] = false) by (apply Hstop2; lia).
  assert (Hy : less l.[b1 - 1] l0.[lo] = true) by (apply Hstop1; lia).
  assert (Hne : a1 <> b1 - 1)
    by (intros Heq'; rewrite Heq' in Hn; congruence).
  apply IH; [|lia].
  apply kinv_swap_down; auto; lia.
Qed.

Lemma kinv_finish (l : list A) (b c : nat) :
  kinv lo hi l0 l b c ->
  rperm lo hi l0 (Swap l lo (b - 1))
  /\ pivoted less d lo hi (Swap l lo (b - 1)) (b - 1) c.
Proof.
  intros Hinv.
  pose proof (kinv_length _ _ _ Hinv) as Hlen.
  pose proof (kinv_pivot _ _ _ Hinv) as Hpivot.
  destruct Hinv as (Hperm & Hb & Hbc & Hc & Hlow & Hmid & Hhigh).
  split.
  - eapply rperm_trans;
      [apply rperm_widen with (a := lo + 1) (b := hi); [lia|lia|exact Hperm]|].
    apply rperm_Swap; lia.
  - assert (Hp : (Swap l lo (b - 1)).[b - 1] = l0.[lo])
      by (swap_nth; exact Hpivot).
    unfold pivoted. rewrite Hp.
    split; [lia|]. split; [lia|]. split; [lia|]. split; [|split].
    + intros i Hi Hi'. unfold not_after. swap_nth; subst; apply Hlow; lia.
    + intros i Hi Hi'. unfold equivalent. swap_nth; subst.
      * rewrite Hpivot. split; apply (less_irrefl less_swo).
      * apply Hmid; lia.
    + intros i Hi Hi'. unfold not_after. swap_nth; subst. apply Hhigh; lia.
Qed.

End Pivot.

(** *** [doPivot] *)

Local Abbreviation doPivot_median :=
  (@sort.doPivot_median (list A) (slice_Interface less)).
Local Abbreviation doPivot :=
  (@sort.doPivot (list A) (slice_Interface less)).

Lemma doPivot_median_spec (l : list A) (lo hi : nat) :
  12 < hi - lo -> hi <= List.length l ->
  rperm lo hi l (doPivot_median l lo hi)
  /\ le (doPivot_median l lo hi).[lo] (doPivot_median l lo hi).[hi - 1].
Proof.
  intros Hbig Hhi. unfold sort.doPivot_median.
  pose proof (Nat.Div0.mul_div_le (hi - lo) 8) as Heighth.
  pose proof (Nat.Div0.mul_div_le (lo + hi) 2) as Hhalf.
  assert (Hhalf' : lo + hi < 2 * S ((lo + hi) / 2))
    by (apply Nat.mul_succ_div_gt; lia).
  set (m := (lo + hi) / 2) in *.
  set (s := (hi - lo) / 8) in *.
  set (l1 := if Nat.ltb 40 (hi - lo)
             then medianOfThree
                    (medianOfThree
                       (medianOfThree l lo (lo + s) (lo + 2 * s))
                       m (m - s) (m + s))
                    (hi - 1) (hi - 1 - s) (hi - 1 - 2 * s)
             else l).
  assert (Hl1 : rperm lo hi l l1).
  { unfold l1. destruct (Nat.ltb_spec 40 (hi - lo)) as [H40 | H40];
      [|apply rperm_refl].
    destruct (medianOfThree_spec lo hi l lo (lo + s) (lo + 2 * s))
      as [Hp1 _]; try lia.
    pose proof (rperm_length _ _ _ _ Hp1) as Hlen1.
    destruct (medianOfThree_spec lo hi
                (medianOfThree l lo (lo + s) (lo + 2 * s)) m (m - s) (m + s))
      as [Hp2 _]; try lia.
    pose proof (rperm_length _ _ _ _ Hp2) as Hlen2.
    destruct (medianOfThree_spec lo hi
                (medianOfThree
                   (medianOfThree l lo (lo + s) (lo + 2 * s))
                   m (m - s) (m + s))
                (hi - 1) (hi - 1 - s) (hi - 1 - 2 * s))
      as [Hp3 _]; try lia.
    eapply rperm_trans; [exact Hp1|].
    eapply rperm_trans; [exact Hp2 | exact Hp3]. }
  pose proof (rperm_length _ _ _ _ Hl1) as Hlen1.
  destruct (medianOfThree_spec lo hi l1 lo m (hi - 1)) as [Hp Hle];
    try lia.
  split.
  - eapply rperm_trans; eassumption.
  - apply Hle; lia.
Qed.

Lemma doPivot_spec (l : list A) (lo hi : nat) :
  12 < hi - lo -> hi <= List.length l ->
  rperm lo hi l (fst (fst (doPivot l lo hi)))
  /\ pivoted less d lo hi (fst (fst (doPivot l lo hi)))
       (snd (fst (doPivot l lo hi))) (snd (doPivot l lo hi)).
Proof.
  intros Hbig Hhi. unfold sort.doPivot.
  destruct (doPivot_median_spec l lo hi Hbig Hhi) as [Hperm0 Hlast].
  set (l0 := doPivot_median l lo hi) in *.
  pose proof (rperm_length _ _ _ _ Hperm0) as Hlen0.
  assert (Hhi0 : hi <= List.length l0) by lia.
  assert (Hlo0 : lo + 1 < hi) by lia.
  destruct (skip_less_spec l0 lo (hi - 1)) with (fuel := hi - 1 - (lo + 1))
                                               (a := lo + 1)
    as (Ha & Hac & Hlt & _); try lia.
  set (a := skip_less (hi - 1 - (lo + 1)) l0 lo (lo + 1) (hi - 1)) in *.
  assert (Hinv : pinv lo hi l0 l0 a (hi - 1)).
  { split; [apply rperm_refl|]. split; [lia|]. split; [lia|]. split; [lia|].
    split.
    - intros i Hi Hi'. apply less_le, Hlt; lia.
    - intros i Hi Hi'. lia. }
  destruct (doPivot_partition_spec lo hi l0 Hhi0 Hlo0 (hi - 1 - a + 1)
              l0 a (hi - 1) Hinv) as [Hinv2 Hbc]; [lia|].
  destruct (doPivot_partition (hi - 1 - a + 1) l0 lo a (hi - 1))
    as [[l2 b2] c2].
  cbn [fst snd] in Hinv2, Hbc. subst b2.
  assert (Hk2 : kinv lo hi l0 l2 c2 c2).
  { destruct Hinv2 as (Hperm2 & Hb2 & _ & Hc2 & Hlow2 & Hhigh2).
    split; [apply rperm_widen with (a := lo + 1) (b := hi - 1);
            [lia | lia | exact Hperm2]|].
    split; [lia|]. split; [lia|]. split; [lia|]. split; [exact Hlow2|].
    split; [intros i Hi Hi'; lia|].
    intros i Hi Hi'.
    destruct (Nat.eq_dec i (hi - 1)) as [-> | Hne]; [|apply Hhigh2; lia].
    rewrite (rperm_outside _ _ _ _ (hi - 1) Hperm2) by lia. exact Hlast. }
  pose proof (doPivot_dups_spec lo hi l0 Hhi0 Hlo0 l2 c2 Hbig Hk2) as Hk3.
  cbn zeta in Hk3.
  destruct (doPivot_dups l2 lo ((lo + hi) / 2) lo hi c2 c2)
    as [[[l3 b3] c3] protect].
  cbn [fst snd] in Hk3.
  assert (Hk4 : kinv lo hi l0
                  (fst (if protect
                        then doPivot_protect (b3 - a + 1) l3 lo a b3
                        else (l3, b3)))
                  (snd (if protect
                        then doPivot_protect (b3 - a + 1) l3 lo a b3
                        else (l3, b3))) c3).
  { destruct protect; [|exact Hk3].
    apply doPivot_protect_spec; auto. }
  destruct (if protect then doPivot_protect (b3 - a + 1) l3 lo a b3
            else (l3, b3)) as [l4 b4].
  cbn [fst snd] in *.
  destruct (kinv_finish lo hi l0 Hhi0 Hlo0 l4 b4 c3 Hk4) as [Hperm5 Hpiv].
  split; [|exact Hpiv].
  eapply rperm_trans; eassumption.
Qed.

(** *** Heapsort *)

Local Abbreviation siftDown_loop :=
  (@sort.siftDown_loop (list A) (slice_Interface less)).
Local Abbreviation siftDown :=
  (@sort.siftDown (list A) (slice_Interface less)).
Local Abbreviation heapSort_build :=
  (@sort.heapSort_build (list A) (slice_Interface less)).
Local Abbreviation heapSort_pop :=
  (@sort.heapSort_pop (list A) (slice_Interface less)).
Local Abbreviation heapSort :=
  (@sort.heapSort (list A) (slice_Interface less)).
Local Abbreviation heap_at := (heap_at less d).
Local Abbreviation heap_from := (heap_from less d).
Local Abbreviation sift_inv := (sift_inv less d).

Lemma siftDown_loop_spec (first hi r : nat) :
  forall (fuel : nat) (l : list A) (k : nat),
    hi - k <= fuel -> r <= k -> first + hi <= List.length l ->
    sift_inv l first hi r k ->
    rperm (first + r) (first + hi) l (siftDown_loop fuel l k hi first)
    /\ heap_from (siftDown_loop fuel l k hi first) first hi r.
Proof.
  induction fuel as [|fuel IH]; intros l k Hfuel Hrk Hlen [Hother Hparent].
  - cbn. split; [apply rperm_refl|].
    intros i Hi Hi'. apply Hother; lia.
  - cbn [sort.siftDown_loop sort.Less sort.Swap slice_Interface].
    destruct (Nat.leb_spec hi (2 * k + 1)) as [Hleaf | Hchild].
    { split; [apply rperm_refl|].
      intros i Hi Hi'.
      destruct (Nat.eq_dec i k) as [-> | Hne]; [|apply Hother; lia].
      intros c Hc Hc'. lia. }
    (* the child that is not before the other *)
    set (cm := if Nat.ltb (2 * k + 1 + 1) hi
                  && Less l (first + (2 * k + 1)) (first + (2 * k + 1) + 1)
               then 2 * k + 1 + 1 else 2 * k + 1).
    assert (Hcm : (cm = 2 * k + 1 \/ cm = 2 * k + 2) /\ cm < hi
                  /\ forall c, c = 2 * k + 1 \/ c = 2 * k + 2 -> c < hi ->
                               le l.[first + c] l.[first + cm]).
    { unfold cm.
      destruct (Nat.ltb_spec (2 * k + 1 + 1) hi) as [Htwo | Hone];
        cbn [andb].
      - rewrite Less_spec by lia.
        replace (first + (2 * k + 1) + 1) with (first + (2 * k + 2)) by lia.
        destruct (less l.[first + (2 * k + 1)] l.[first + (2 * k + 2)])
          eqn:Hless.
        + split; [right; lia|]. split; [lia|].
          intros c [-> | ->] Hc.
          * replace (2 * k + 1 + 1) with (2 * k + 2) by lia.
            now apply less_le.
          * replace (2 * k + 1 + 1) with (2 * k + 2) by lia. apply le_refl.
        + split; [left; lia|]. split; [lia|].
          intros c [-> | ->] Hc; [apply le_refl | exact Hless].
      - split; [left; lia|]. split; [lia|].
        intros c [-> | ->] Hc; [apply le_refl | lia]. }
    destruct Hcm as (Hcm & Hcmhi & Hmax).
    clearbody cm.
    rewrite Less_spec by lia.
    destruct (less l.[first + k] l.[first + cm]) eqn:Hless; cbn [negb].
    + (* the element sinks to [cm] *)
      destruct (IH (Swap l (first + k) (first + cm)) cm) as [Hperm Hheap];
        try lia.
      * rewrite Swap_length. lia.
      * split.
        -- intros i Hi Hi' Hne c Hc Hc'. unfold not_after.
           destruct (Nat.eq_dec i k) as [-> | Hik].
           ++ (* the node the element left *)
              swap_nth.
              ** now apply less_asym.
              ** assert (Hle : le l.[first + c] l.[first + cm])
                   by (apply Hmax; [lia | assumption]).
                 exact Hle.
           ++ swap_nth.
              ** (* [c] is [k]: [i] is the parent of [k] *)
                 replace c with k in * by lia.
                 apply (Hparent i cm); lia.
              ** apply (Hother i); try lia.
        -- intros p c Hp Hpk Hc Hc'. unfold not_after.
           replace p with k in * by lia. swap_nth.
           apply (Hother cm); lia.
      * split; [|exact Hheap].
        eapply rperm_trans; [|exact Hperm].
        apply rperm_Swap; lia.
    + (* the element stays *)
      split; [apply rperm_refl|].
      intros i Hi Hi'.
      destruct (Nat.eq_dec i k) as [-> | Hne]; [|apply Hother; lia].
      intros c Hc Hc'.
      apply le_trans with (y := l.[first + cm]); [now apply Hmax | exact Hless].
Qed.

Lemma siftDown_spec (first hi lo : nat) (l : list A) :
  first + hi <= List.length l ->
  heap_from l first hi (S lo) ->
  rperm (first + lo) (first + hi) l (siftDown l lo hi first)
  /\ heap_from (siftDown l lo hi first) first hi lo.
Proof.
  intros Hlen Hheap. unfold sort.siftDown.
  apply siftDown_loop_spec; try lia.
  split.
  - intros i Hi Hi' Hne. apply Hheap; lia.
  - intros p c Hp Hk. lia.
Qed.

Lemma heapSort_build_spec (first hi : nat) :
  forall (i : nat) (l : list A),
    first + hi <= List.length l ->
    heap_from l first hi (S i) ->
    rperm first (first + hi) l (heapSort_build l i hi first)
    /\ heap_from (heapSort_build l i hi first) first hi 0.
Proof.
  induction i as [|i IH]; intros l Hlen Hheap; cbn [sort.heapSort_build];
    destruct (siftDown_spec first hi _ l Hlen Hheap) as [Hperm1 Hheap1].
  - split; [|exact Hheap1].
    eapply rperm_widen; [| |exact Hperm1]; lia.
  - pose proof (rperm_length _ _ _ _ Hperm1) as Hlen1.
    destruct (IH (siftDown l (S i) hi first)) as [Hperm2 Hheap2];
      [lia | exact Hheap1 |].
    split; [|exact Hheap2].
    eapply rperm_trans; [|exact Hperm2].
    eapply rperm_widen; [| |exact Hperm1]; lia.
Qed.

Lemma parent_node (j : nat) :
  0 < j -> exists p, p < j /\ (j = 2 * p + 1 \/ j = 2 * p + 2).
Proof.
  intros Hj. exists ((j - 1) / 2).
  pose proof (Nat.div_mod_eq (j - 1) 2) as Hdiv.
  pose proof (Nat.mod_upper_bound (j - 1) 2) as Hmod.
  lia.
Qed.

(** The root of a heap is not before any of its elements. *)
Lemma heap_root_max (l : list A) (first m : nat) :
  heap_from l first m 0 ->
  forall j, j < m -> le l.[first + j] l.[first + 0].
Proof.
  intros Hheap j. induction j as [j IH] using lt_wf_ind. intros Hj.
  destruct (Nat.eq_dec j 0) as [-> | Hne]; [apply le_refl|].
  destruct (parent_node j) as (p & Hp & Hchild); [lia|].
  apply le_trans with (y := l.[first + p]).
  - apply (Hheap p); lia.
  - apply IH; lia.
Qed.

Lemma heapSort_pop_spec (first n : nat) :
  forall (i : nat) (l : list A),
    i < n -> first + n <= List.length l ->
    heap_from l first (S i) 0 ->
    sorted l (first + S i) (first + n) ->
    (forall j k, j < S i -> S i <= k -> k < n ->
                 le l.[first + j] l.[first + k]) ->
    rperm first (first + n) l (heapSort_pop l i first)
    /\ sorted (heapSort_pop l i first) first (first + n).
Proof.
  induction i as [|i IH]; intros l Hi Hlen Hheap Hsorted Hcross;
    cbn [sort.heapSort_pop sort.Swap slice_Interface].
  - (* one element left: nothing moves *)
    assert (Hswap : Swap l first (first + 0) = l).
    { apply nth_ext with (d := d) (d' := d); [apply Swap_length|].
      intros k Hk. rewrite Swap_length in Hk.
      rewrite nth_Swap by lia.
      destruct (Nat.eqb_spec k (first + 0)) as [-> | _];
        [f_equal; lia|].
      destruct (Nat.eqb_spec k first) as [-> | _]; [f_equal; lia|].
      reflexivity. }
    rewrite Hswap. unfold sort.siftDown. cbn [sort.siftDown_loop].
    split; [apply rperm_refl|].
    intros x y Hx Hxy Hy.
    destruct (Nat.eq_dec x first) as [-> | Hne].
    + replace first with (first + 0) at 1 by lia.
      replace y with (first + (y - first)) by lia.
      apply Hcross; lia.
    + apply Hsorted; lia.
  - set (l1 := Swap l first (first + S i)).
    assert (Hlen1 : List.length l1 = List.length l) by apply Swap_length.
    assert (Hheap1 : heap_from l1 first (S i) 1).
    { intros j Hj Hj' c Hc Hc'. unfold not_after, l1. swap_nth.
      apply (Hheap j); lia. }
    destruct (siftDown_spec first (S i) 0 l1) as [Hperm2 Hheap2];
      [lia | exact Hheap1 |].
    set (l2 := siftDown l1 0 (S i) first) in *.
    pose proof (rperm_length _ _ _ _ Hperm2) as Hlen2.
    assert (Hout : forall k, S i <= k -> l2.[first + k] = l1.[first + k])
      by (intros k Hk; apply (rperm_outside _ _ _ _ _ Hperm2); lia).
    assert (Hroot : forall j, j < S (S i) -> le l.[first + j] l.[first])
      by (intros j Hj; replace first with (first + 0) at 2 by lia;
          now apply heap_root_max with (m := S (S i))).
    assert (Hcross0 : forall k, S (S i) <= k -> k < n ->
                                le l.[first] l.[first + k]).
    { intros k Hk Hk'. replace first with (first + 0) at 1 by lia.
      apply Hcross; lia. }
    destruct (IH l2) as [Hperm3 Hsorted3]; try lia.
    + exact Hheap2.
    + (* the sorted part gained the root *)
      intros x y Hx Hxy Hy.
      replace x with (first + (x - first)) by lia.
      replace y with (first + (y - first)) by lia.
      rewrite !Hout by lia. unfold not_after, l1. swap_nth;
        solve [ apply Hcross0; lia | apply Hsorted; lia ].
    + (* what is left of the heap is not after the sorted part *)
      intros j k Hj Hk Hk'.
      rewrite (Hout k) by lia.
      assert (Hall : all_range d (fun x => le x l1.[first + k]) l1
                       (first + 0) (first + S i)).
      { intros x Hx Hx'. unfold not_after, l1.
        replace x with (first + (x - first)) by lia.
        swap_nth;
          solve [ apply Hroot; lia
                | apply Hcross; lia
                | apply Hcross0; lia ]. }
      apply (all_range_rperm _ _ _ _ l2) in Hall;
        [apply Hall; lia | lia | lia | exact Hperm2].
    + split; [|exact Hsorted3].
      apply (rperm_trans first (first + n) l l1);
        [apply rperm_Swap; lia|].
      apply (rperm_trans first (first + n) l1 l2); [|exact Hperm3].
      eapply rperm_widen; [| |exact Hperm2]; lia.
Qed.

Lemma heapSort_spec (l : list A) (a b : nat) :
  b <= List.length l ->
  rperm a b l (heapSort l a b) /\ sorted (heapSort l a b) a b.
Proof.
  intros Hb. unfold sort.heapSort.
  destruct (Nat.eqb_spec (b - a) 0) as [Hzero | Hpos].
  - split; [apply rperm_refl|]. intros i j Hi Hij Hj. lia.
  - assert (Hhalf : b - a - 1 < 2 * S ((b - a - 1) / 2))
      by (apply Nat.mul_succ_div_gt; lia).
    destruct (heapSort_build_spec a (b - a) ((b - a - 1) / 2) l)
      as [Hperm1 Hheap1]; [lia| |].
    { intros i Hi Hi' c Hc Hc'. lia. }
    set (l1 := heapSort_build l ((b - a - 1) / 2) (b - a) a) in *.
    pose proof (rperm_length _ _ _ _ Hperm1) as Hlen1.
    destruct (heapSort_pop_spec a (b - a) (b - a - 1) l1)
      as [Hperm2 Hsorted2]; try lia; try (intros i j; lia).
    { replace (S (b - a - 1)) with (b - a) by lia. exact Hheap1. }
    replace (a + (b - a)) with b in * by lia.
    split; [|exact Hsorted2].
    eapply rperm_trans; eassumption.
Qed.

(** *** Quicksort *)

Local Abbreviation quickSort :=
  (@sort.quickSort (list A) (slice_Interface less)).

Lemma sorted_ext (l l' : list A) (a b : nat) :
  (forall i, a <= i -> i < b -> l'.[i] = l.[i]) ->
  sorted l a b -> sorted l' a b.
Proof.
  intros Hext Hsorted i j Hi Hij Hj.
  rewrite !Hext by lia. now apply Hsorted.
Qed.

Lemma all_range_ext (P : A -> Prop) (l l' : list A) (a b : nat) :
  (forall i, a <= i -> i < b -> l'.[i] = l.[i]) ->
  all_range d P l a b -> all_range d P l' a b.
Proof.
  intros Hext Hall i Hi Hi'. rewrite Hext by lia. now apply Hall.
Qed.

(** A range cut around a pivot and sorted on both sides is sorted. *)
Lemma sorted_around_pivot (l : list A) (a b mlo mhi : nat) (p : A) :
  a <= mlo -> mlo <= mhi -> mhi <= b ->
  all_range d (fun x => le x p) l a mlo ->
  all_range d (fun x => equivalent less x p) l mlo mhi ->
  all_range d (fun x => le p x) l mhi b ->
  sorted l a mlo -> sorted l mhi b ->
  sorted l a b.
Proof.
  intros Ha Hm Hb Hleft Hmid Hright Hsl Hsr i j Hi Hij Hj.
  assert (Hlow : forall k, a <= k -> k < mhi -> le l.[k] p).
  { intros k Hk Hk'.
    destruct (Nat.lt_ge_cases k mlo) as [H | H]; [apply Hleft; lia|].
    apply (Hmid k); lia. }
  assert (Hupp : forall k, mlo <= k -> k < b -> le p l.[k]).
  { intros k Hk Hk'.
    destruct (Nat.lt_ge_cases k mhi) as [H | H]; [|apply Hright; lia].
    apply (Hmid k); lia. }
  destruct (Nat.lt_ge_cases j mlo) as [Hjl | Hjl]; [apply Hsl; lia|].
  destruct (Nat.lt_ge_cases i mhi) as [Hil | Hil]; [|apply Hsr; lia].
  apply le_trans with (y := p); [apply Hlow | apply Hupp]; lia.
Qed.

(** The two ranges beside the pivot are sorted one after the other, in
    either order. *)
Lemma sorted_both_sides (l1 l2 l3 : list A) (a b mlo mhi : nat) :
  b <= List.length l1 ->
  pivoted less d a b l1 mlo mhi ->
  (rperm a mlo l1 l2 /\ sorted l2 a mlo
   /\ rperm mhi b l2 l3 /\ sorted l3 mhi b)
  \/ (rperm mhi b l1 l2 /\ sorted l2 mhi b
      /\ rperm a mlo l2 l3 /\ sorted l3 a mlo) ->
  rperm a b l1 l3 /\ sorted l3 a b.
Proof.
  intros Hlen (Ha & Hm & Hb & Hleft & Hmid & Hright) Hcases.
  destruct Hcases as [(Hp1 & Hs1 & Hp2 & Hs2) | (Hp1 & Hs1 & Hp2 & Hs2)];
    pose proof (rperm_length _ _ _ _ Hp1) as Hlen2;
    pose proof (rperm_length _ _ _ _ Hp2) as Hlen3.
  - split.
    + eapply rperm_trans;
        [eapply rperm_widen; [| |exact Hp1] | eapply rperm_widen;
                                              [| |exact Hp2]]; lia.
    + apply sorted_around_pivot with (mlo := mlo) (mhi := mhi)
                                     (p := l1.[mlo]); try lia.
      * apply all_range_ext with (l := l2).
        -- intros i Hi Hi'. apply (rperm_outside _ _ _ _ i Hp2). lia.
        -- apply (all_range_rperm _ a mlo l1 l2); auto; lia.
      * apply all_range_ext with (l := l1); [|exact Hmid].
        intros i Hi Hi'.
        rewrite (rperm_outside _ _ _ _ i Hp2) by lia.
        apply (rperm_outside _ _ _ _ i Hp1). lia.
      * apply (all_range_rperm _ mhi b l2 l3); auto; try lia.
        apply all_range_ext with (l := l1); [|exact Hright].
        intros i Hi Hi'. apply (rperm_outside _ _ _ _ i Hp1). lia.
      * apply sorted_ext with (l := l2); [|exact Hs1].
        intros i Hi Hi'. apply (rperm_outside _ _ _ _ i Hp2). lia.
      * exact Hs2.
  - split.
    + eapply rperm_trans;
        [eapply rperm_widen; [| |exact Hp1] | eapply rperm_widen;
                                              [| |exact Hp2]]; lia.
    + apply sorted_around_pivot with (mlo := mlo) (mhi := mhi)
                                     (p := l1.[mlo]); try lia.
      * apply (all_range_rperm _ a mlo l2 l3); auto; try lia.
        apply all_range_ext with (l := l1); [|exact Hleft].
        intros i Hi Hi'. apply (rperm_outside _ _ _ _ i Hp1). lia.
      * apply all_range_ext with (l := l1); [|exact Hmid].
        intros i Hi Hi'.
        rewrite (rperm_outside _ _ _ _ i Hp2) by lia.
        apply (rperm_outside _ _ _ _ i Hp1). lia.
      * apply all_range_ext with (l := l2).
        -- intros i Hi Hi'. apply (rperm_outside _ _ _ _ i Hp2). lia.
        -- apply (all_range_rperm _ mhi b l1 l2); auto; lia.
      * exact Hs2.
      * apply sorted_ext with (l := l2); [|exact Hs1].
        intros i Hi Hi'. apply (rperm_outside _ _ _ _ i Hp2). lia.
Qed.

Lemma quickSort_spec :
  forall (fuel : nat) (l : list A) (a b maxDepth : nat),
    b - a <= fuel -> b <= List.length l ->
    rperm a b l (quickSort fuel l a b maxDepth)
    /\ sorted (quickSort fuel l a b maxDepth) a b.
Proof.
  induction fuel as [|fuel IH]; intros l a b maxDepth Hfuel Hlen;
    cbn [sort.quickSort].
  - now apply sortSmall_spec.
  - destruct (Nat.ltb_spec 12 (b - a)) as [Hbig | Hsmall];
      [|now apply sortSmall_spec].
    destruct maxDepth as [|maxDepth]; [now apply heapSort_spec|].
    destruct (doPivot_spec l a b Hbig Hlen) as [Hperm1 Hpiv].
    destruct (doPivot l a b) as [[l1 mlo] mhi]. cbn [fst snd] in *.
    pose proof (rperm_length _ _ _ _ Hperm1) as Hlen1.
    assert (Hbounds : a <= mlo /\ mlo < mhi /\ mhi <= b)
      by (destruct Hpiv as (? & ? & ? & _); auto).
    destruct (Nat.ltb (mlo - a) (b - mhi)).
    + destruct (IH l1 a mlo maxDepth) as [Hp2 Hs2]; try lia.
      pose proof (rperm_length _ _ _ _ Hp2) as Hlen2.
      destruct (IH (quickSort fuel l1 a mlo maxDepth) mhi b maxDepth)
        as [Hp3 Hs3]; try lia.
      destruct (sorted_both_sides l1 (quickSort fuel l1 a mlo maxDepth)
                  (quickSort fuel (quickSort fuel l1 a mlo maxDepth)
                     mhi b maxDepth) a b mlo mhi) as [Hp Hs];
        [lia | exact Hpiv | left; auto |].
      split; [|exact Hs]. eapply rperm_trans; eassumption.
    + destruct (IH l1 mhi b maxDepth) as [Hp2 Hs2]; try lia.
      pose proof (rperm_length _ _ _ _ Hp2) as Hlen2.
      destruct (IH (quickSort fuel l1 mhi b maxDepth) a mlo maxDepth)
        as [Hp3 Hs3]; try lia.
      destruct (sorted_both_sides l1 (quickSort fuel l1 mhi b maxDepth)
                  (quickSort fuel (quickSort fuel l1 mhi b maxDepth)
                     a mlo maxDepth) a b mlo mhi) as [Hp Hs];
        [lia | exact Hpiv | right; auto |].
      split; [|exact Hs]. eapply rperm_trans; eassumption.
Qed.

(** *** Pattern-defeating quicksort (Go 1.19 on) *)

Variable xorshift_Next : N -> N.

Local Abbreviation order2 :=
  (@sort119.order2 (list A) (slice_Interface less)).
Local Abbreviation median :=
  (@sort119.median (list A) (slice_Interface less)).
Local Abbreviation medianAdjacent :=
  (@sort119.medianAdjacent (list A) (slice_Interface less)).
Local Abbreviation choosePivot :=
  (@sort119.choosePivot (list A) (slice_Interface less)).
Local Abbreviation reverseRange_loop :=
  (@sort119.reverseRange_loop (list A) (slice_Interface less)).
Local Abbreviation reverseRange :=
  (@sort119.reverseRange (list A) (slice_Interface less)).
Local Abbreviation breakPatterns_loop :=
  (@sort119.breakPatterns_loop (list A) (slice_Interface less)
     xorshift_Next).
Local Abbreviation breakPatterns :=
  (@sort119.breakPatterns (list A) (slice_Interface less) xorshift_Next).

(** The pivot is an index of the range. *)
Lemma median_cases (l : list A) (a b c swaps : nat) :
  fst (median l a b c swaps) = a \/ fst (median l a b c swaps) = b
  \/ fst (median l a b c swaps) = c.
Proof.
  unfold sort119.median, sort119.order2.
  destruct (sort.Less l b a); destruct (sort.Less l c _);
    destruct (sort.Less l _ _); cbn; auto.
Qed.

Lemma choosePivot_range (l : list A) (a b : nat) :
  12 < b - a ->
  a <= fst (choosePivot l a b) /\ fst (choosePivot l a b) < b.
Proof.
  intros Hlen. unfold sort119.choosePivot.
  pose proof (Nat.Div0.mul_div_le (b - a) 4) as Hq1.
  pose proof (Nat.mul_succ_div_gt (b - a) 4) as Hq2.
  set (q := (b - a) / 4) in *.
  destruct (Nat.leb_spec 8 (b - a)) as [_ | H8]; [|lia].
  assert (Hfinal : forall j swaps,
             a <= j < b ->
             a <= fst (if Nat.eqb swaps 0 then (j, sort119.increasingHint)
                       else if Nat.eqb swaps (4 * 3)
                            then (j, sort119.decreasingHint)
                            else (j, sort119.unknownHint)) < b).
  { intros j swaps Hj.
    destruct (Nat.eqb swaps 0); [exact Hj|].
    destruct (Nat.eqb swaps (4 * 3)); exact Hj. }
  destruct (Nat.leb_spec 50 (b - a)) as [H50 | H50].
  - unfold sort119.medianAdjacent.
    pose proof (median_cases l (a + q * 1 - 1) (a + q * 1) (a + q * 1 + 1) 0)
      as Hi.
    destruct (median l (a + q * 1 - 1) (a + q * 1) (a + q * 1 + 1) 0)
      as [i s1].
    pose proof (median_cases l (a + q * 2 - 1) (a + q * 2) (a + q * 2 + 1)
                  s1) as Hj.
    destruct (median l (a + q * 2 - 1) (a + q * 2) (a + q * 2 + 1) s1)
      as [j s2].
    pose proof (median_cases l (a + q * 3 - 1) (a + q * 3) (a + q * 3 + 1)
                  s2) as Hk.
    destruct (median l (a + q * 3 - 1) (a + q * 3) (a + q * 3 + 1) s2)
      as [k s3].
    pose proof (median_cases l i j k s3) as Hm.
    destruct (median l i j k s3) as [m s4].
    cbn [fst] in *.
    assert (a <= m < b) by lia.
    specialize (Hfinal m s4 H). destruct Hfinal. split; assumption.
  - pose proof (median_cases l (a + q * 1) (a + q * 2) (a + q * 3) 0) as Hm.
    destruct (median l (a + q * 1) (a + q * 2) (a + q * 3) 0) as [m s4].
    cbn [fst] in *.
    assert (a <= m < b) by lia.
    specialize (Hfinal m s4 H). destruct Hfinal. split; assumption.
Qed.

Lemma reverseRange_loop_spec (a b : nat) :
  forall (fuel : nat) (l : list A) (i j : nat),
    a <= i -> j < b -> b <= List.length l ->
    rperm a b l (reverseRange_loop fuel l i j).
Proof.
  induction fuel as [|fuel IH]; intros l i j Hi Hj Hb;
    cbn [sort119.reverseRange_loop sort.Swap slice_Interface];
    [apply rperm_refl|].
  destruct (Nat.ltb_spec i j) as [Hij | Hij]; [|apply rperm_refl].
  eapply rperm_trans; [apply (rperm_Swap a b l i j); lia|].
  apply IH; try lia. rewrite Swap_length. lia.
Qed.

Lemma reverseRange_spec (l : list A) (a b : nat) :
  a < b -> b <= List.length l -> rperm a b l (reverseRange l a b).
Proof.
  intros Hab Hb. unfold sort119.reverseRange.
  apply reverseRange_loop_spec; lia.
Qed.

(** The index [breakPatterns] draws is inside the range. *)
Lemma breakPatterns_other (length : nat) (random : N) :
  0 < length ->
  let other :=
    N.to_nat (N.land random (sort119.nextPowerOfTwo length - 1)) in
  (if Nat.leb length other then other - length else other) < length.
Proof.
  intros Hpos other.
  assert (Hother : other < 2 * length).
  { unfold other, sort119.nextPowerOfTwo, sort119.bits_Len.
    destruct length as [|n]; [lia|].
    rewrite N.shiftl_1_l, N.sub_1_r, <- N.ones_equiv, N.land_ones.
    pose proof (Nat.log2_spec (S n) ltac:(lia)) as [Hlow _].
    assert (Hlt : (random mod 2 ^ N.of_nat (S (Nat.log2 (S n)))
                   < 2 ^ N.of_nat (S (Nat.log2 (S n))))%N).
    { apply N.mod_lt. apply N.pow_nonzero. discriminate. }
    assert (Hpow : N.to_nat (2 ^ N.of_nat (S (Nat.log2 (S n))))
                   = 2 ^ S (Nat.log2 (S n))).
    { rewrite N2Nat.inj_pow, Nat2N.id. reflexivity. }
    assert (Hnat : N.to_nat (random mod 2 ^ N.of_nat (S (Nat.log2 (S n))))
                   < 2 ^ S (Nat.log2 (S n))).
    { rewrite <- Hpow. lia. }
    rewrite Nat.pow_succ_r' in Hnat. lia. }
  destruct (Nat.leb_spec length other); lia.
Qed.

Lemma breakPatterns_loop_spec (a b : nat) :
  forall (count : nat) (l : list A) (random : N) (idx i : nat),
    0 < b - a -> b <= List.length l ->
    a <= idx - 1 + i -> idx - 1 + i + count <= b ->
    rperm a b l
      (breakPatterns_loop count l random (sort119.nextPowerOfTwo (b - a))
         a (b - a) idx i).
Proof.
  induction count as [|count IH]; intros l random idx i Hab Hb Hlow Hhigh;
    cbn [sort119.breakPatterns_loop sort.Swap slice_Interface];
    [apply rperm_refl|].
  pose proof (breakPatterns_other (b - a) (xorshift_Next random) Hab)
    as Hother.
  cbn zeta in Hother.
  match goal with
  | |- range_perm _ _ _ _ (sort119.breakPatterns_loop _ _ ?l1 _ _ _ _ _ _) =>
      apply (rperm_trans a b l l1)
  end.
  - apply rperm_Swap; lia.
  - apply IH; try lia. rewrite Swap_length. lia.
Qed.

Lemma breakPatterns_spec (l : list A) (a b : nat) :
  b <= List.length l -> rperm a b l (breakPatterns l a b).
Proof.
  intros Hb. unfold sort119.breakPatterns.
  destruct (Nat.leb_spec 8 (b - a)) as [H8 | H8]; [|apply rperm_refl].
  pose proof (Nat.Div0.mul_div_le (b - a) 4) as Hq1.
  pose proof (Nat.mul_succ_div_gt (b - a) 4) as Hq2.
  apply (breakPatterns_loop_spec a b); lia.
Qed.

(** *** Finishing an almost sorted range *)

Local Abbreviation bounded := (bounded_below less d).
Local Abbreviation skip :=
  (@sort119.partialInsertionSort_skip (list A) (slice_Interface less)).
Local Abbreviation shift_left :=
  (@sort119.partialInsertionSort_left (list A) (slice_Interface less)).
Local Abbreviation shift_right :=
  (@sort119.partialInsertionSort_right (list A) (slice_Interface less)).
Local Abbreviation partialInsertionSort_steps :=
  (@sort119.partialInsertionSort_steps (list A) (slice_Interface less)).
Local Abbreviation partialInsertionSort :=
  (@sort119.partialInsertionSort (list A) (slice_Interface less)).

Lemma bounded_rperm (l l' : list A) (a b : nat) :
  a <= b -> b <= List.length l ->
  rperm a b l l' -> bounded l a b -> bounded l' a b.
Proof.
  intros Hab Hb Hperm Hbound Ha.
  rewrite (rperm_outside a b l l' (a - 1) Hperm) by lia.
  apply (all_range_rperm (fun x => le l.[a - 1] x) a b l l' Hab Hb Hperm).
  intros y Hy Hy'. now apply Hbound.
Qed.

(** A sorted range grows by elements each not before its neighbour. *)
Lemma sorted_grow (l : list A) (a : nat) :
  forall (n i : nat),
    a < i -> sorted l a i ->
    (forall k, i <= k -> k < i + n -> less l.[k] l.[k - 1] = false) ->
    sorted l a (i + n).
Proof.
  induction n as [|n IH]; intros i Hai Hsorted Hadj.
  - now rewrite Nat.add_0_r.
  - replace (i + S n) with (S i + n) by lia.
    apply IH; [lia| |intros k Hk Hk'; apply Hadj; lia].
    intros x y Hx Hxy Hy.
    destruct (Nat.eq_dec y i) as [-> | Hne]; [|apply Hsorted; lia].
    pose proof (Hadj i ltac:(lia) ltac:(lia)) as Hlast.
    destruct (Nat.eq_dec x (i - 1)) as [-> | Hne]; [exact Hlast|].
    apply le_trans with (y := l.[i - 1]); [apply Hsorted; lia | exact Hlast].
Qed.

Lemma skip_spec (l : list A) (b : nat) :
  b <= List.length l ->
  forall (fuel i : nat),
    0 < i -> i <= b -> b - i <= fuel ->
    i <= skip fuel l i b /\ skip fuel l i b <= b
    /\ (forall k, i <= k -> k < skip fuel l i b ->
                  less l.[k] l.[k - 1] = false)
    /\ (skip fuel l i b < b ->
        less l.[skip fuel l i b] l.[skip fuel l i b - 1] = true).
Proof.
  intros Hb.
  induction fuel as [|fuel IH]; intros i Hi Hib Hfuel;
    cbn [sort119.partialInsertionSort_skip sort.Less slice_Interface].
  - repeat split; solve [lia | intros; lia | intros; assumption].
  - destruct (Nat.ltb_spec i b) as [Hlt | Hge]; cbn [andb].
    + rewrite Less_spec by lia.
      destruct (less l.[i] l.[i - 1]) eqn:Hless; cbn [negb].
      * repeat split; solve [lia | intros; lia | intros; assumption].
      * destruct (IH (S i)) as (H1 & H2 & H3 & H4); try lia.
        split; [lia|]. split; [exact H2|]. split; [|exact H4].
        intros k Hk Hk'.
        destruct (Nat.eq_dec k i) as [-> | Hne]; [exact Hless|].
        apply H3; lia.
    + repeat split; solve [lia | intros; lia | intros; assumption].
Qed.

(** On a range bounded below, the shift to the left stops at the start of
    the range: it is the inner loop of insertion sort. *)
Lemma shift_left_inner (a b : nat) :
  forall (j : nat) (l : list A),
    a <= j -> j < b -> b <= List.length l -> bounded l a b ->
    shift_left l j = insertionSort_inner l a j.
Proof.
  induction j as [|j' IH]; intros l Haj Hjb Hb Hbound; [reflexivity|].
  cbn [sort119.partialInsertionSort_left sort.insertionSort_inner
         sort.Less sort.Swap slice_Interface].
  rewrite Less_spec by lia.
  destruct (Nat.ltb_spec a (S j')) as [Hlt | Hge]; cbn [andb].
  - destruct (less l.[S j'] l.[j']) eqn:Hless; cbn [negb]; [|reflexivity].
    apply IH; try lia.
    + rewrite Swap_length. lia.
    + apply (bounded_rperm l); try lia; [|exact Hbound].
      apply rperm_Swap; lia.
  - assert (a = S j') by lia. subst a.
    pose proof (Hbound ltac:(lia) (S j') ltac:(lia) Hjb) as Hle.
    unfold not_after in Hle. replace (S j' - 1) with j' in Hle by lia.
    now rewrite Hle.
Qed.

Lemma shift_right_spec (i b : nat) :
  forall (count : nat) (l : list A) (j : nat),
    i < j -> j + count <= b -> b <= List.length l ->
    rperm i b l (shift_right count l j).
Proof.
  induction count as [|count IH]; intros l j Hij Hjb Hb;
    cbn [sort119.partialInsertionSort_right sort.Less sort.Swap
           slice_Interface]; [apply rperm_refl|].
  destruct (negb (Less l j (j - 1))); [apply rperm_refl|].
  apply (rperm_trans i b l (Swap l j (j - 1))).
  - apply rperm_Swap; lia.
  - apply IH; try lia. rewrite Swap_length. lia.
Qed.

Lemma partialInsertionSort_steps_spec (a b : nat) (l0 : list A) :
  a < b -> b <= List.length l0 ->
  forall (steps : nat) (l : list A) (i : nat),
    rperm a b l0 l -> bounded l a b ->
    a < i -> i <= b -> sorted l a i ->
    rperm a b l0 (fst (partialInsertionSort_steps steps l a b i))
    /\ (snd (partialInsertionSort_steps steps l a b i) = true ->
        sorted (fst (partialInsertionSort_steps steps l a b i)) a b).
Proof.
  intros Hab Hb0.
  induction steps as [|steps IH]; intros l i Hperm Hbound Hai Hib Hsorted;
    cbn [sort119.partialInsertionSort_steps sort.Swap slice_Interface].
  - cbn. split; [exact Hperm | discriminate].
  - pose proof (rperm_length _ _ _ _ Hperm) as Hlen.
    destruct (skip_spec l b ltac:(lia) (b - i) i) as (H1 & H2 & H3 & H4);
      try lia.
    set (i1 := skip (b - i) l i b) in *.
    assert (Hsorted1 : sorted l a i1).
    { replace i1 with (i + (i1 - i)) by lia.
      apply sorted_grow; [lia | exact Hsorted|].
      intros k Hk Hk'. apply H3; lia. }
    destruct (Nat.eqb_spec i1 b) as [Heq | Hne]; cbn [fst snd].
    { split; [exact Hperm|]. intros _. now rewrite <- Heq. }
    destruct (Nat.ltb_spec (b - a) 50) as [Hshort | Hlong]; cbn [fst snd].
    { split; [exact Hperm | discriminate]. }
    assert (Hi1 : i1 < b) by lia.
    specialize (H4 Hi1).
    set (l1 := Swap l i1 (i1 - 1)).
    assert (Hperm1 : rperm a b l l1) by (apply rperm_Swap; lia).
    pose proof (rperm_length _ _ _ _ Hperm1) as Hlen1.
    assert (Hbound1 : bounded l1 a b)
      by (apply (bounded_rperm l); try lia; assumption).
    set (l2 := if Nat.leb 2 (i1 - a) then shift_left l1 (i1 - 1) else l1).
    assert (H2' : rperm a i1 l1 l2 /\ sorted l2 a i1).
    { unfold l2.
      destruct (Nat.leb_spec 2 (i1 - a)) as [Hfar | Hnear].
      - rewrite (shift_left_inner a b) by (try lia; assumption).
        destruct (insertionSort_inner_spec a (i1 - 1) (i1 - 1) l1)
          as [Hp Hs]; try lia;
          try (intros x y Hx Hxy Hy; unfold not_after, l1; swap_nth;
               apply Hsorted1; lia).
        replace (S (i1 - 1)) with i1 in * by lia. split; assumption.
      - split; [apply rperm_refl|]. intros x y Hx Hxy Hy. lia. }
    destruct H2' as [Hperm2 Hsorted2].
    pose proof (rperm_length _ _ _ _ Hperm2) as Hlen2.
    set (l3 := if Nat.leb 2 (b - i1)
               then shift_right (b - (i1 + 1)) l2 (i1 + 1) else l2).
    assert (Hperm3 : rperm i1 b l2 l3).
    { unfold l3. destruct (Nat.leb_spec 2 (b - i1)) as [Hfar | Hnear];
        [|apply rperm_refl].
      apply shift_right_spec; lia. }
    pose proof (rperm_length _ _ _ _ Hperm3) as Hlen3.
    assert (Hperm13 : rperm a b l1 l3).
    { apply (rperm_trans a b l1 l2 l3).
      - apply (rperm_widen a i1); try lia. exact Hperm2.
      - apply (rperm_widen i1 b); try lia. exact Hperm3. }
    apply IH; try lia.
    + apply (rperm_trans a b l0 l l3); [exact Hperm|].
      apply (rperm_trans a b l l1 l3); assumption.
    + apply (bounded_rperm l1); try lia; assumption.
    + apply (sorted_ext l2); [|exact Hsorted2].
      intros k Hk Hk'. apply (rperm_outside i1 b l2 l3 k Hperm3). lia.
Qed.

Lemma partialInsertionSort_spec (l : list A) (a b : nat) :
  a < b -> b <= List.length l -> bounded l a b ->
  rperm a b l (fst (partialInsertionSort l a b))
  /\ (snd (partialInsertionSort l a b) = true ->
      sorted (fst (partialInsertionSort l a b)) a b).
Proof.
  intros Hab Hb Hbound. unfold sort119.partialInsertionSort.
  apply partialInsertionSort_steps_spec; try lia; try assumption.
  - apply rperm_refl.
  - intros x y Hx Hxy Hy. lia.
Qed.

(** *** The partitions *)

Local Abbreviation partition_up :=
  (@sort119.partition_up (list A) (slice_Interface less)).
Local Abbreviation partition_down :=
  (@sort119.partition_down (list A) (slice_Interface less)).
Local Abbreviation partition_loop :=
  (@sort119.partition_loop (list A) (slice_Interface less)).
Local Abbreviation partition :=
  (@sort119.partition (list A) (slice_Interface less)).
Local Abbreviation partitionEqual_up :=
  (@sort119.partitionEqual_up (list A) (slice_Interface less)).
Local Abbreviation partitionEqual_down :=
  (@sort119.partitionEqual_down (list A) (slice_Interface less)).
Local Abbreviation partitionEqual_loop :=
  (@sort119.partitionEqual_loop (list A) (slice_Interface less)).
Local Abbreviation partitionEqual :=
  (@sort119.partitionEqual (list A) (slice_Interface less)).

Lemma partition_up_spec (l : list A) (a j : nat) :
  a < List.length l -> j < List.length l ->
  forall (fuel i : nat),
    i <= j + 1 -> j + 1 - i <= fuel ->
    i <= partition_up fuel l a i j /\ partition_up fuel l a i j <= j + 1
    /\ (forall k, i <= k -> k < partition_up fuel l a i j ->
                  less l.[k] l.[a] = true)
    /\ (partition_up fuel l a i j <= j ->
        less l.[partition_up fuel l a i j] l.[a] = false).
Proof.
  intros Ha Hj.
  induction fuel as [|fuel IH]; intros i Hij Hfuel;
    cbn [sort119.partition_up sort.Less slice_Interface].
  - repeat split; solve [lia | intros; lia].
  - destruct (Nat.leb_spec i j) as [Hle | Hgt]; cbn [andb].
    + rewrite Less_spec by lia.
      destruct (less l.[i] l.[a]) eqn:Hless.
      * destruct (IH (S i)) as (H1 & H2 & H3 & H4); try lia.
        split; [lia|]. split; [exact H2|]. split; [|exact H4].
        intros k Hk Hk'.
        destruct (Nat.eq_dec k i) as [-> | Hne]; [exact Hless|].
        apply H3; lia.
      * repeat split; solve [lia | intros; lia | intros; assumption].
    + repeat split; solve [lia | intros; lia].
Qed.

Lemma partition_down_spec (l : list A) (a i : nat) :
  a < List.length l -> 0 < i ->
  forall (fuel j : nat),
    j < List.length l -> i <= j + 1 -> j + 1 - i <= fuel ->
    partition_down fuel l a i j <= j
    /\ i <= partition_down fuel l a i j + 1
    /\ (forall k, partition_down fuel l a i j < k -> k <= j ->
                  less l.[k] l.[a] = false)
    /\ (i <= partition_down fuel l a i j ->
        less l.[partition_down fuel l a i j] l.[a] = true).
Proof.
  intros Ha Hi.
  induction fuel as [|fuel IH]; intros j Hj Hij Hfuel;
    cbn [sort119.partition_down sort.Less slice_Interface].
  - repeat split; solve [lia | intros; lia].
  - destruct (Nat.leb_spec i j) as [Hle | Hgt]; cbn [andb].
    + rewrite Less_spec by lia.
      destruct (less l.[j] l.[a]) eqn:Hless; cbn [negb].
      * repeat split; solve [lia | intros; lia | intros; assumption].
      * destruct (IH (j - 1)) as (H1 & H2 & H3 & H4); try lia.
        split; [lia|]. split; [exact H2|]. split; [|exact H4].
        intros k Hk Hk'.
        destruct (Nat.eq_dec k j) as [-> | Hne]; [exact Hless|].
        apply H3; lia.
    + repeat split; solve [lia | intros; lia].
Qed.

(** The state of the loop of [partition] on the range from [a] to [b],
    the pivot [p] being at [a]. *)
Lemma partition_loop_spec (a b : nat) (l1 : list A) :
  a < b -> b <= List.length l1 ->
  forall (fuel : nat) (l : list A) (i j : nat),
    rperm (a + 1) b l1 l ->
    a + 1 <= i -> i <= j + 1 -> j <= b - 1 -> j + 1 - i < fuel ->
    (forall k, a + 1 <= k -> k < i -> less l.[k] l1.[a] = true) ->
    (forall k, j < k -> k < b -> less l.[k] l1.[a] = false) ->
    let l' := fst (partition_loop fuel l a i j) in
    let m := snd (partition_loop fuel l a i j) in
    rperm (a + 1) b l1 l'
    /\ a <= m /\ m < b
    /\ (forall k, a + 1 <= k -> k <= m -> less l'.[k] l1.[a] = true)
    /\ (forall k, m < k -> k < b -> less l'.[k] l1.[a] = false).
Proof.
  intros Hab Hb.
  induction fuel as [|fuel IH]; intros l i j Hperm Hi Hij Hj Hfuel Hlow Hhigh;
    [lia|].
  pose proof (rperm_length _ _ _ _ Hperm) as Hlen.
  assert (Hpivot : l.[a] = l1.[a])
    by (apply (rperm_outside _ _ _ _ a Hperm); lia).
  cbn [sort119.partition_loop sort.Swap slice_Interface].
  replace (S j - i) with (j + 1 - i) by lia.
  destruct (partition_up_spec l a j ltac:(lia) ltac:(lia) (j + 1 - i) i)
    as (U1 & U2 & U3 & U4); try lia.
  set (i1 := partition_up (j + 1 - i) l a i j) in *.
  replace (S j - i1) with (j + 1 - i1) by lia.
  destruct (partition_down_spec l a i1 ltac:(lia) ltac:(lia)
              (j + 1 - i1) j) as (D1 & D2 & D3 & D4); try lia.
  set (j1 := partition_down (j + 1 - i1) l a i1 j) in *.
  rewrite Hpivot in U3, U4, D3, D4.
  assert (Hlow1 : forall k, a + 1 <= k -> k < i1 ->
                            less l.[k] l1.[a] = true).
  { intros k Hk Hk'.
    destruct (Nat.lt_ge_cases k i); [apply Hlow | apply U3]; lia. }
  assert (Hhigh1 : forall k, j1 < k -> k < b ->
                             less l.[k] l1.[a] = false).
  { intros k Hk Hk'.
    destruct (Nat.lt_ge_cases j k); [apply Hhigh | apply D3]; lia. }
  destruct (Nat.ltb_spec j1 i1) as [Hexit | Hgo]; cbn [fst snd].
  - split; [exact Hperm|]. split; [lia|]. split; [lia|].
    split; intros k Hk Hk'; [apply Hlow1 | apply Hhigh1]; lia.
  - specialize (U4 ltac:(lia)). specialize (D4 Hgo).
    assert (Hne : i1 <> j1) by (intros Heq; rewrite Heq in U4; congruence).
    apply IH; try lia.
    + apply (rperm_trans (a + 1) b l1 l); [exact Hperm|].
      apply rperm_Swap; lia.
    + intros k Hk Hk'. swap_nth; subst; [exact D4|].
      apply Hlow1; lia.
    + intros k Hk Hk'. swap_nth; subst; [exact U4|].
      apply Hhigh1; lia.
Qed.

Lemma partition_unfold (l : list A) (a b pivot : nat) :
  fst (partition l a b pivot)
  = (Swap (fst (partition_loop (S (b - a)) (Swap l a pivot) a (a + 1)
                  (b - 1)))
          (snd (partition_loop (S (b - a)) (Swap l a pivot) a (a + 1)
                  (b - 1))) a,
     snd (partition_loop (S (b - a)) (Swap l a pivot) a (a + 1) (b - 1))).
Proof.
  unfold sort119.partition.
  cbn [sort119.partition_loop sort.Swap slice_Interface].
  destruct (Nat.ltb _ _); [reflexivity|].
  destruct (sort119.partition_loop _ _ _ _ _) as [l' j']. reflexivity.
Qed.

(** [partition] cuts the range around the pivot it leaves at [mid]. *)
Lemma partition_spec (l : list A) (a b pivot : nat) :
  a < b -> b <= List.length l -> a <= pivot -> pivot < b ->
  let l' := fst (fst (partition l a b pivot)) in
  let mid := snd (fst (partition l a b pivot)) in
  rperm a b l l' /\ pivoted less d a b l' mid (mid + 1).
Proof.
  intros Hab Hb Hap Hpb. cbn zeta. rewrite partition_unfold. cbn [fst snd].
  set (l1 := Swap l a pivot).
  assert (Hperm1 : rperm a b l l1) by (apply rperm_Swap; lia).
  pose proof (rperm_length _ _ _ _ Hperm1) as Hlen1.
  destruct (partition_loop_spec a b l1 Hab ltac:(lia) (S (b - a)) l1
              (a + 1) (b - 1)) as (Hperm & Ham & Hmb & Hlow & Hhigh);
    try lia; try (intros k Hk Hk'; lia); [apply rperm_refl|].
  set (l2 := fst (partition_loop (S (b - a)) l1 a (a + 1) (b - 1))) in *.
  set (m := snd (partition_loop (S (b - a)) l1 a (a + 1) (b - 1))) in *.
  pose proof (rperm_length _ _ _ _ Hperm) as Hlen2.
  assert (Hpivot : l2.[a] = l1.[a])
    by (apply (rperm_outside _ _ _ _ a Hperm); lia).
  split.
  - apply (rperm_trans a b l l1); [exact Hperm1|].
    apply (rperm_trans a b l1 l2).
    + apply (rperm_widen (a + 1) b); try lia. exact Hperm.
    + apply rperm_Swap; lia.
  - split; [lia|]. split; [lia|]. split; [lia|]. split; [|split].
    + intros k Hk Hk'. unfold not_after. swap_nth.
      all: rewrite Hpivot; apply less_asym; apply Hlow; lia.
    + intros k Hk Hk'. assert (Hkm : k = m) by lia. rewrite Hkm.
      split; apply (less_irrefl less_swo).
    + intros k Hk Hk'. unfold not_after. swap_nth.
      all: try (replace l2.[m] with l2.[a] by (f_equal; lia)).
      all: rewrite Hpivot; apply Hhigh; lia.
Qed.

Lemma partitionEqual_up_spec (l : list A) (a j : nat) :
  a < List.length l -> j < List.length l ->
  forall (fuel i : nat),
    i <= j + 1 -> j + 1 - i <= fuel ->
    i <= partitionEqual_up fuel l a i j
    /\ partitionEqual_up fuel l a i j <= j + 1
    /\ (forall k, i <= k -> k < partitionEqual_up fuel l a i j ->
                  less l.[a] l.[k] = false)
    /\ (partitionEqual_up fuel l a i j <= j ->
        less l.[a] l.[partitionEqual_up fuel l a i j] = true).
Proof.
  intros Ha Hj.
  induction fuel as [|fuel IH]; intros i Hij Hfuel;
    cbn [sort119.partitionEqual_up sort.Less slice_Interface].
  - repeat split; solve [lia | intros; lia].
  - destruct (Nat.leb_spec i j) as [Hle | Hgt]; cbn [andb].
    + rewrite Less_spec by lia.
      destruct (less l.[a] l.[i]) eqn:Hless; cbn [negb].
      * repeat split; solve [lia | intros; lia | intros; assumption].
      * destruct (IH (S i)) as (H1 & H2 & H3 & H4); try lia.
        split; [lia|]. split; [exact H2|]. split; [|exact H4].
        intros k Hk Hk'.
        destruct (Nat.eq_dec k i) as [-> | Hne]; [exact Hless|].
        apply H3; lia.
    + repeat split; solve [lia | intros; lia].
Qed.

Lemma partitionEqual_down_spec (l : list A) (a i : nat) :
  a < List.length l -> 0 < i ->
  forall (fuel j : nat),
    j < List.length l -> i <= j + 1 -> j + 1 - i <= fuel ->
    partitionEqual_down fuel l a i j <= j
    /\ i <= partitionEqual_down fuel l a i j + 1
    /\ (forall k, partitionEqual_down fuel l a i j < k -> k <= j ->
                  less l.[a] l.[k] = true)
    /\ (i <= partitionEqual_down fuel l a i j ->
        less l.[a] l.[partitionEqual_down fuel l a i j] = false).
Proof.
  intros Ha Hi.
  induction fuel as [|fuel IH]; intros j Hj Hij Hfuel;
    cbn [sort119.partitionEqual_down sort.Less slice_Interface].
  - repeat split; solve [lia | intros; lia].
  - destruct (Nat.leb_spec i j) as [Hle | Hgt]; cbn [andb].
    + rewrite Less_spec by lia.
      destruct (less l.[a] l.[j]) eqn:Hless.
      * destruct (IH (j - 1)) as (H1 & H2 & H3 & H4); try lia.
        split; [lia|]. split; [exact H2|]. split; [|exact H4].
        intros k Hk Hk'.
        destruct (Nat.eq_dec k j) as [-> | Hne]; [exact Hless|].
        apply H3; lia.
      * repeat split; solve [lia | intros; lia | intros; assumption].
    + repeat split; solve [lia | intros; lia].
Qed.

Lemma partitionEqual_loop_spec (a b : nat) (l1 : list A) :
  a < b -> b <= List.length l1 ->
  forall (fuel : nat) (l : list A) (i j : nat),
    rperm (a + 1) b l1 l ->
    a + 1 <= i -> i <= j + 1 -> j <= b - 1 -> j + 1 - i < fuel ->
    (forall k, a + 1 <= k -> k < i -> less l1.[a] l.[k] = false) ->
    (forall k, j < k -> k < b -> less l1.[a] l.[k] = true) ->
    let l' := fst (partitionEqual_loop fuel l a i j) in
    let m := snd (partitionEqual_loop fuel l a i j) in
    rperm (a + 1) b l1 l'
    /\ a + 1 <= m /\ m <= b
    /\ (forall k, a + 1 <= k -> k < m -> less l1.[a] l'.[k] = false)
    /\ (forall k, m <= k -> k < b -> less l1.[a] l'.[k] = true).
Proof.
  intros Hab Hb.
  induction fuel as [|fuel IH]; intros l i j Hperm Hi Hij Hj Hfuel Hlow Hhigh;
    [lia|].
  pose proof (rperm_length _ _ _ _ Hperm) as Hlen.
  assert (Hpivot : l.[a] = l1.[a])
    by (apply (rperm_outside _ _ _ _ a Hperm); lia).
  cbn [sort119.partitionEqual_loop sort.Swap slice_Interface].
  replace (S j - i) with (j + 1 - i) by lia.
  destruct (partitionEqual_up_spec l a j ltac:(lia) ltac:(lia) (j + 1 - i) i)
    as (U1 & U2 & U3 & U4); try lia.
  set (i1 := partitionEqual_up (j + 1 - i) l a i j) in *.
  replace (S j - i1) with (j + 1 - i1) by lia.
  destruct (partitionEqual_down_spec l a i1 ltac:(lia) ltac:(lia)
              (j + 1 - i1) j) as (D1 & D2 & D3 & D4); try lia.
  set (j1 := partitionEqual_down (j + 1 - i1) l a i1 j) in *.
  rewrite Hpivot in U3, U4, D3, D4.
  assert (Hlow1 : forall k, a + 1 <= k -> k < i1 ->
                            less l1.[a] l.[k] = false).
  { intros k Hk Hk'.
    destruct (Nat.lt_ge_cases k i); [apply Hlow | apply U3]; lia. }
  assert (Hhigh1 : forall k, j1 < k -> k < b ->
                             less l1.[a] l.[k] = true).
  { intros k Hk Hk'.
    destruct (Nat.lt_ge_cases j k); [apply Hhigh | apply D3]; lia. }
  destruct (Nat.ltb_spec j1 i1) as [Hexit | Hgo]; cbn [fst snd].
  - split; [exact Hperm|]. split; [lia|]. split; [lia|].
    split; intros k Hk Hk'; [apply Hlow1 | apply Hhigh1]; lia.
  - specialize (U4 ltac:(lia)). specialize (D4 Hgo).
    assert (Hne : i1 <> j1) by (intros Heq; rewrite Heq in U4; congruence).
    apply IH; try lia.
    + apply (rperm_trans (a + 1) b l1 l); [exact Hperm|].
      apply rperm_Swap; lia.
    + intros k Hk Hk'. swap_nth; subst; [exact D4|].
      apply Hlow1; lia.
    + intros k Hk Hk'. swap_nth; subst; [exact U4|].
      apply Hhigh1; lia.
Qed.

(** On a range with no element before the pivot, [partitionEqual] gathers
    the elements equivalent to the pivot before [mid] and leaves the
    greater ones from [mid] on. *)
Lemma partitionEqual_spec (l : list A) (a b pivot : nat) :
  a < b -> b <= List.length l -> a <= pivot -> pivot < b ->
  (forall y, a <= y -> y < b -> less l.[y] l.[pivot] = false) ->
  let l' := fst (partitionEqual l a b pivot) in
  let mid := snd (partitionEqual l a b pivot) in
  rperm a b l l' /\ a < mid /\ mid <= b
  /\ (forall k, a <= k -> k < mid -> equivalent less l'.[k] l.[pivot])
  /\ (forall k, mid <= k -> k < b -> less l.[pivot] l'.[k] = true).
Proof.
  intros Hab Hb Hap Hpb Hmin. cbn zeta. unfold sort119.partitionEqual.
  cbn [sort.Swap slice_Interface].
  set (l1 := Swap l a pivot).
  assert (Hperm1 : rperm a b l l1) by (apply rperm_Swap; lia).
  pose proof (rperm_length _ _ _ _ Hperm1) as Hlen1.
  assert (Hp : l1.[a] = l.[pivot]).
  { unfold l1. rewrite nth_Swap by lia.
    destruct (Nat.eqb_spec a pivot) as [-> | _]; [reflexivity|].
    now rewrite Nat.eqb_refl. }
  destruct (partitionEqual_loop_spec a b l1 Hab ltac:(lia) (b - a) l1
              (a + 1) (b - 1)) as (Hperm & Ham & Hmb & Hlow & Hhigh);
    try lia; try (intros k Hk Hk'; lia); [apply rperm_refl|].
  set (l2 := fst (partitionEqual_loop (b - a) l1 a (a + 1) (b - 1))) in *.
  set (m := snd (partitionEqual_loop (b - a) l1 a (a + 1) (b - 1))) in *.
  assert (Hperm2 : rperm a b l l2).
  { apply (rperm_trans a b l l1); [exact Hperm1|].
    apply (rperm_widen (a + 1) b); try lia. exact Hperm. }
  assert (Hmin2 : forall k, a <= k -> k < b -> less l2.[k] l.[pivot] = false).
  { apply (all_range_rperm (fun x => less x l.[pivot] = false) a b l l2);
      try lia; assumption. }
  rewrite Hp in Hlow, Hhigh.
  split; [exact Hperm2|]. split; [lia|]. split; [lia|]. split.
  - intros k Hk Hk'. split; [now apply Hmin2; lia|].
    destruct (Nat.eq_dec k a) as [-> | Hne]; [|apply Hlow; lia].
    rewrite (rperm_outside (a + 1) b l1 l2 a Hperm) by lia.
    rewrite Hp. apply (less_irrefl less_swo).
  - exact Hhigh.
Qed.

(** *** The loop of [pdqsort] *)

Local Abbreviation pdqsort :=
  (@sort119.pdqsort (list A) (slice_Interface less) xorshift_Next).

Lemma bounded_narrow (l : list A) (a b b' : nat) :
  b' <= b -> bounded l a b -> bounded l a b'.
Proof. intros Hb H Ha y Hy Hy'. apply H; lia. Qed.

Lemma bounded_ext (l l' : list A) (a b : nat) :
  (forall k, k < b -> l'.[k] = l.[k]) -> bounded l a b -> bounded l' a b.
Proof.
  intros Hext H Ha y Hy Hy'. rewrite !Hext by lia. now apply H.
Qed.

(** What follows the choice of the pivot in a round of [pdqsort], given
    that the shorter ranges are sorted by the calls that follow. *)
Lemma pdqsort_round (fuel : nat) :
  (forall (l : list A) (a b limit : nat) (wb wp : bool),
      b - a <= fuel -> b <= List.length l -> bounded l a b ->
      rperm a b l (pdqsort fuel l a b limit wb wp)
      /\ sorted (pdqsort fuel l a b limit wb wp) a b) ->
  forall (l0 l3 : list A) (a b pivot limit : nat) (wb wp : bool),
    a < b -> b - a <= S fuel -> b <= List.length l0 -> bounded l0 a b ->
    rperm a b l0 l3 -> a <= pivot -> pivot < b ->
    let result :=
      if Nat.ltb 0 a && negb (Less l3 (a - 1) pivot) then
        let '(data, mid) := partitionEqual l3 a b pivot in
        pdqsort fuel data mid b limit wb wp
      else
        let '(data, mid, alreadyPartitioned) := partition l3 a b pivot in
        if Nat.ltb (mid - a) (b - mid) then
          pdqsort fuel (pdqsort fuel data a mid limit true true)
            (mid + 1) b limit (Nat.leb ((b - a) / 8) (mid - a))
            alreadyPartitioned
        else
          pdqsort fuel (pdqsort fuel data (mid + 1) b limit true true)
            a mid limit (Nat.leb ((b - a) / 8) (b - mid))
            alreadyPartitioned in
    rperm a b l0 result /\ sorted result a b.
Proof.
  intros IH l0 l3 a b pivot limit wb wp Hab Hfuel Hb Hbound0 Hperm3 Hap Hpb.
  cbn zeta.
  pose proof (rperm_length _ _ _ _ Hperm3) as Hlen3.
  assert (Hbound3 : bounded l3 a b)
    by (apply (bounded_rperm l0); try lia; assumption).
  destruct (Nat.ltb_spec 0 a) as [Ha | Ha]; cbn [andb];
    [rewrite Less_spec by lia;
     destruct (less l3.[a - 1] l3.[pivot]) eqn:Hless; cbn [negb]|].
  2: { (* no element of the range is before the pivot *)
    assert (Hmin : forall y, a <= y -> y < b ->
                             less l3.[y] l3.[pivot] = false).
    { intros y Hy Hy'.
      apply (le_trans l3.[pivot] l3.[a - 1] l3.[y]);
        [exact Hless | now apply Hbound3]. }
    pose proof (partitionEqual_spec l3 a b pivot Hab ltac:(lia) Hap Hpb Hmin)
      as Hspec.
    cbn zeta in Hspec.
    destruct (partitionEqual l3 a b pivot) as [l4 mid]. cbn [fst snd] in Hspec.
    destruct Hspec as (Hperm4 & Ham & Hmb & Hequal & Hgreater).
    pose proof (rperm_length _ _ _ _ Hperm4) as Hlen4.
    destruct (IH l4 mid b limit wb wp) as [Hperm5 Hsorted5]; try lia.
    { intros _ y Hy Hy'.
      apply (le_trans l4.[mid - 1] l3.[pivot] l4.[y]).
      - apply (Hequal (mid - 1)); lia.
      - apply less_le. apply Hgreater; lia. }
    set (l5 := pdqsort fuel l4 mid b limit wb wp) in *.
    split.
    - apply (rperm_trans a b l0 l3); [exact Hperm3|].
      apply (rperm_trans a b l3 l4); [exact Hperm4|].
      apply (rperm_widen mid b); try lia. exact Hperm5.
    - apply (sorted_around_pivot l5 a b a mid l3.[pivot]); try lia.
      + intros k Hk Hk'. lia.
      + intros k Hk Hk'.
        rewrite (rperm_outside mid b l4 l5 k Hperm5) by lia.
        apply Hequal; lia.
      + apply (all_range_rperm (fun x => le l3.[pivot] x) mid b l4 l5);
          try lia; [exact Hperm5|].
        intros k Hk Hk'. apply less_le. apply Hgreater; lia.
      + intros x y Hx Hxy Hy. lia.
      + exact Hsorted5. }
  all: (* the range is cut around the pivot *)
    pose proof (partition_spec l3 a b pivot Hab ltac:(lia) Hap Hpb) as Hspec;
    cbn zeta in Hspec;
    destruct (partition l3 a b pivot) as [[l4 mid] flag];
    cbn [fst snd] in Hspec;
    destruct Hspec as [Hperm4 Hpiv];
    pose proof (rperm_length _ _ _ _ Hperm4) as Hlen4;
    pose proof Hpiv as (Hm1 & Hm2 & Hm3 & Hleft & _ & Hright);
    assert (Hbound4 : bounded l4 a b)
      by (apply (bounded_rperm l3); try lia; assumption);
    assert (Hgoal : forall l6,
               rperm a b l4 l6 /\ sorted l6 a b ->
               rperm a b l0 l6 /\ sorted l6 a b)
      by (intros l6 [Hp Hs]; split; [|exact Hs];
          apply (rperm_trans a b l0 l3); [exact Hperm3|];
          apply (rperm_trans a b l3 l4); assumption);
    destruct (Nat.ltb (mid - a) (b - mid)); apply Hgoal;
    eapply (sorted_both_sides l4 _ _ a b mid (mid + 1)); try lia;
      try exact Hpiv.
  all: first
    [ (* the left part first *)
      left;
      destruct (IH l4 a mid limit true true) as [Hp5 Hs5]; try lia;
        [apply (bounded_narrow l4 a b); [lia | exact Hbound4]|];
      pose proof (rperm_length _ _ _ _ Hp5) as Hlen5;
      split; [exact Hp5|]; split; [exact Hs5|];
      apply IH; try lia;
      intros _ y Hy Hy';
      rewrite !(rperm_outside a mid l4 _ _ Hp5) by lia;
      replace (mid + 1 - 1) with mid by lia;
      apply Hright; lia
    | (* the right part first *)
      right;
      destruct (IH l4 (mid + 1) b limit true true) as [Hp5 Hs5]; try lia;
        [intros _ y Hy Hy'; replace (mid + 1 - 1) with mid by lia;
         apply Hright; lia|];
      pose proof (rperm_length _ _ _ _ Hp5) as Hlen5;
      split; [exact Hp5|]; split; [exact Hs5|];
      apply IH; try lia;
      apply (bounded_ext l4);
        [intros k Hk; apply (rperm_outside (mid + 1) b l4 _ k Hp5); lia|];
      apply (bounded_narrow l4 a b); [lia | exact Hbound4] ].
Qed.

Lemma pdqsort_spec :
  forall (fuel : nat) (l : list A) (a b limit : nat) (wb wp : bool),
    b - a <= fuel -> b <= List.length l -> bounded l a b ->
    rperm a b l (pdqsort fuel l a b limit wb wp)
    /\ sorted (pdqsort fuel l a b limit wb wp) a b.
Proof.
  induction fuel as [|fuel IH]; intros l a b limit wb wp Hfuel Hlen Hbound;
    cbn [sort119.pdqsort].
  - now apply insertionSort_spec.
  - destruct (Nat.leb_spec (b - a) 12) as [Hsmall | Hbig];
      [now apply insertionSort_spec|].
    destruct (Nat.eqb_spec limit 0) as [Hlimit | Hlimit];
      [now apply heapSort_spec|].
    (* the patterns are broken after an unbalanced partition *)
    assert (H1 : exists l1 limit1,
               (if negb wb
                then (breakPatterns l a b, limit - 1)
                else (l, limit)) = (l1, limit1)
               /\ rperm a b l l1).
    { destruct wb; cbn [negb]; eexists; eexists; split; try reflexivity;
        [apply rperm_refl | now apply breakPatterns_spec]. }
    destruct H1 as (l1 & limit1 & -> & Hperm1).
    pose proof (rperm_length _ _ _ _ Hperm1) as Hlen1.
    (* the pivot is chosen, and a decreasing range reversed *)
    pose proof (choosePivot_range l1 a b Hbig) as Hpivot.
    destruct (choosePivot l1 a b) as [pivot hint]. cbn [fst] in Hpivot.
    assert (H2 : exists l2 pivot2 hint2,
               (if sort119.sortedHint_eqb hint sort119.decreasingHint
                then (reverseRange l1 a b, b - 1 - (pivot - a),
                      sort119.increasingHint)
                else (l1, pivot, hint)) = (l2, pivot2, hint2)
               /\ rperm a b l1 l2 /\ a <= pivot2 /\ pivot2 < b).
    { destruct (sort119.sortedHint_eqb hint sort119.decreasingHint);
        eexists; eexists; eexists; split; try reflexivity.
      - split; [apply reverseRange_spec; lia | lia].
      - split; [apply rperm_refl | lia]. }
    destruct H2 as (l2 & pivot2 & hint2 & -> & Hperm2 & Hp2a & Hp2b).
    pose proof (rperm_length _ _ _ _ Hperm2) as Hlen2.
    assert (Hperm02 : rperm a b l l2)
      by (apply (rperm_trans a b l l1 l2); assumption).
    (* an almost sorted range is finished by insertion *)
    assert (H3 : exists l3 done,
               (if wb && wp
                   && sort119.sortedHint_eqb hint2 sort119.increasingHint
                then partialInsertionSort l2 a b
                else (l2, false)) = (l3, done)
               /\ rperm a b l2 l3 /\ (done = true -> sorted l3 a b)).
    { destruct (wb && wp
                && sort119.sortedHint_eqb hint2 sort119.increasingHint).
      - destruct (partialInsertionSort_spec l2 a b) as [Hp Hs];
          try lia.
        + apply (bounded_rperm l); try lia; assumption.
        + destruct (partialInsertionSort l2 a b) as [l3 done].
          exists l3, done. split; [reflexivity|]. split; assumption.
      - exists l2, false. split; [reflexivity|].
        split; [apply rperm_refl | discriminate]. }
    destruct H3 as (l3 & done & -> & Hperm3 & Hdone).
    assert (Hperm03 : rperm a b l l3)
      by (apply (rperm_trans a b l l2 l3); assumption).
    destruct done; [split; [exact Hperm03 | now apply Hdone]|].
    apply (pdqsort_round fuel IH l l3 a b pivot2 limit1 wb wp); try lia;
      assumption.
Qed.

(** [sort.Sort] of Go 1.19 and later rearranges a slice into
    non-decreasing order, whatever the generator of [breakPatterns]. *)
Lemma sort119_Sort_spec (l : list A) :
  Permutation l
    (@sort119.Sort (list A) (slice_Interface less) xorshift_Next l)
  /\ sorted (@sort119.Sort (list A) (slice_Interface less) xorshift_Next l)
            0 (List.length l).
Proof.
  unfold sort119.Sort. cbn [sort.Len slice_Interface].
  destruct (Nat.leb_spec (List.length l) 1) as [Hsmall | Hbig].
  - split; [reflexivity|]. intros i j Hi Hij Hj. lia.
  - destruct (pdqsort_spec (List.length l) l 0 (List.length l)
                (sort119.bits_Len (List.length l)) true true)
      as [Hperm Hsorted]; try lia.
    + intros Ha. lia.
    + split; [|exact Hsorted]. now destruct Hperm as (_ & Hp & _).
Qed.


(** [sort.Sort] rearranges a slice into non-decreasing order. *)
Lemma sort_Sort_spec (l : list A) :
  Permutation l (@sort.Sort (list A) (slice_Interface less) l)
  /\ sorted (@sort.Sort (list A) (slice_Interface less) l)
            0 (List.length l).
Proof.
  unfold sort.Sort. cbn [sort.Len slice_Interface].
  destruct (quickSort_spec (List.length l) l 0 (List.length l)
              (sort.maxDepth (List.length l))) as [Hperm Hsorted];
    try lia.
  split; [|exact Hsorted]. now destruct Hperm as (_ & Hp & _).
Qed.

Lemma sorted_range_StronglySorted (l : list A) :
  sorted l 0 (List.length l) -> StronglySorted le l.
Proof.
  induction l as [|x t IH]; intros Hsorted; [constructor|].
  constructor.
  - apply IH. intros i j Hi Hij Hj.
    apply (Hsorted (S i) (S j)); cbn [List.length]; lia.
  - apply Forall_forall. intros y Hy.
    apply In_nth with (d := d) in Hy. destruct Hy as (i & Hi & <-).
    apply (Hsorted 0 (S i)); cbn [List.length]; lia.
Qed.

End SliceSort.

(** ** The order of names *)

Lemma Ascii_compare_Lt_trans (a b c : ascii) :
  Ascii.compare a b = Lt -> Ascii.compare b c = Lt -> Ascii.compare a c = Lt.
Proof.
  unfold Ascii.compare. rewrite !N.compare_lt_iff. apply N.lt_trans.
Qed.

Lemma String_compare_Lt_trans (x y z : string) :
  String.compare x y = Lt -> String.compare y z = Lt ->
  String.compare x z = Lt.
Proof.
  revert y z. induction x as [|a x IH]; intros [|b y] [|c z]; cbn;
    try discriminate; try reflexivity.
  destruct (Ascii.compare a b) eqn:Hab; try discriminate;
    destruct (Ascii.compare b c) eqn:Hbc; try discriminate; intros Hxy Hyz.
  - apply Ascii.compare_eq_iff in Hab. subst b. rewrite Hbc. eauto.
  - apply Ascii.compare_eq_iff in Hab. subst b. now rewrite Hbc.
  - apply Ascii.compare_eq_iff in Hbc. subst c. now rewrite Hab.
  - now rewrite (Ascii_compare_Lt_trans a b c Hab Hbc).
Qed.

Lemma String_compare_refl (x : string) : String.compare x x = Eq.
Proof.
  induction x as [|a x IH]; cbn; [reflexivity|].
  unfold Ascii.compare. now rewrite N.compare_refl.
Qed.

Lemma String_ltb_Lt (x y : string) :
  String.ltb x y = true <-> String.compare x y = Lt.
Proof.
  unfold String.ltb. destruct (String.compare x y); split;
    intros; congruence.
Qed.

Lemma String_ltb_false_leb (x y : string) :
  String.ltb y x = false <-> String.leb x y = true.
Proof.
  unfold String.ltb, String.leb. rewrite (String.compare_antisym y x).
  destruct (String.compare x y); cbn; split; intros; congruence.
Qed.

Lemma less_Name_swo : strict_weak_order less_Name.
Proof.
  unfold less_Name. constructor.
  - intros x. unfold String.ltb. now rewrite String_compare_refl.
  - intros x y z Hxy Hyz. rewrite String_ltb_Lt in *.
    eapply String_compare_Lt_trans; eassumption.
  - unfold not_after. intros x y z Hxy Hyz.
    destruct (String.ltb (Name z) (Name x)) eqn:Hzx; [|reflexivity].
    rewrite String_ltb_Lt in Hzx.
    destruct (String.compare (Name y) (Name x)) eqn:Hc.
    + apply String.compare_eq_iff in Hc. rewrite Hc in Hyz.
      apply String_ltb_Lt in Hzx. congruence.
    + apply String_ltb_Lt in Hc. congruence.
    + rewrite String.compare_antisym in Hc.
      destruct (String.compare (Name x) (Name y)) eqn:Hc'; try discriminate.
      assert (Hzy : String.compare (Name z) (Name y) = Lt)
        by (eapply String_compare_Lt_trans; eassumption).
      apply String_ltb_Lt in Hzy. congruence.
Qed.

(** ** [Sort] on a collection *)

Lemma StronglySorted_weaken (A : Type) (R R' : A -> A -> Prop)
    (l : list A) :
  (forall x y, R x y -> R' x y) ->
  StronglySorted R l -> StronglySorted R' l.
Proof.
  intros Himp. induction 1 as [|x t Ht IH Hall]; constructor; auto.
  eapply Forall_impl; [|exact Hall]. intros y. apply Himp.
Qed.

Lemma Go119_Sort_Permutation (xorshift_Next : N -> N)
    (collection : LocalstackServiceCollection) :
  Permutation collection (Go119.Sort xorshift_Next collection).
Proof.
  exact (proj1 (sort119_Sort_spec LocalstackService less_Name s3
                  less_Name_swo xorshift_Next collection)).
Qed.

Lemma Go119_Sort_StronglySorted (xorshift_Next : N -> N)
    (collection : LocalstackServiceCollection) :
  StronglySorted (fun x y => String.leb (Name x) (Name y) = true)
                 (Go119.Sort xorshift_Next collection).
Proof.
  destruct (sort119_Sort_spec LocalstackService less_Name s3 less_Name_swo
              xorshift_Next collection) as [Hperm Hsorted].
  change (@sort119.Sort (list LocalstackService) (slice_Interface less_Name)
            xorshift_Next collection)
    with (Go119.Sort xorshift_Next collection) in *.
  rewrite (Permutation_length Hperm) in Hsorted.
  apply (sorted_range_StronglySorted _ less_Name s3) in Hsorted.
  eapply StronglySorted_weaken; [|exact Hsorted].
  intros x y Hxy. now apply String_ltb_false_leb.
Qed.

Lemma named_Permutation (name : string)
    (c1 c2 : LocalstackServiceCollection) :
  Permutation c1 c2 -> Permutation (named name c1) (named name c2).
Proof.
  unfold named.
  induction 1 as [|x l l' Hp IH|x y l|l l' l'' Hp1 IH1 Hp2 IH2]; cbn.
  - constructor.
  - destruct (String.eqb (Name x) name); [now constructor | exact IH].
  - destruct (String.eqb (Name x) name), (String.eqb (Name y) name);
      try reflexivity. apply perm_swap.
  - eapply perm_trans; eassumption.
Qed.

(** A rearrangement of a list whose elements are all the same is the
    list. *)
Lemma Permutation_all_same (A : Type) (l l' : list A) :
  (forall x y, In x l -> In y l -> x = y) ->
  Permutation l l' -> l = l'.
Proof.
  revert l'. induction l as [|x t IH]; intros l' Hsame Hperm.
  - apply Permutation_nil in Hperm. now subst.
  - destruct l' as [|y t'].
    + apply Permutation_sym, Permutation_nil in Hperm. discriminate.
    + assert (Hy : y = x).
      { apply Hsame; [|now left].
        eapply Permutation_in; [apply Permutation_sym; exact Hperm|].
        now left. }
      subst y. f_equal. apply IH.
      * intros u v Hu Hv. apply Hsame; now right.
      * eapply Permutation_cons_inv. exact Hperm.
Qed.

Lemma named_stable (name : string) (c1 c2 : LocalstackServiceCollection) :
  names_identify c1 -> Permutation c1 c2 -> named name c2 = named name c1.
Proof.
  intros Hid Hperm. symmetry. apply Permutation_all_same.
  - intros x y Hx Hy. unfold named in Hx, Hy.
    apply filter_In in Hx, Hy.
    destruct Hx as [Hx Hnx], Hy as [Hy Hny].
    apply String.eqb_eq in Hnx, Hny. apply Hid; congruence.
  - now apply named_Permutation.
Qed.

Lemma built_from_constructor_names_identify
    (collection : LocalstackServiceCollection) :
  built_from_constructor collection -> names_identify collection.
Proof.
  intros Hbuilt x y Hx Hy Hname.
  unfold built_from_constructor in Hbuilt. rewrite Forall_forall in Hbuilt.
  assert (Hshape : forall s : LocalstackService,
             (exists n, NewLocalstackService n = (Some s, None)) ->
             s = {| Name := Name s; Protocol := "tcp"; Port := 4566 |}).
  { intros s [n Hn]. unfold NewLocalstackService in Hn.
    destruct (In_allowed_dec n) as [Hin | Hnot].
    - rewrite (NewLocalstackService_loop_In _ _ Hin) in Hn.
      now injection Hn as <-.
    - rewrite (NewLocalstackService_loop_not_In _ _ Hnot) in Hn.
      discriminate. }
  rewrite (Hshape x (Hbuilt x Hx)), (Hshape y (Hbuilt y Hy)).
  now rewrite Hname.
Qed.

(** C8, as amended.  For every collection, [Sort] leaves the collection it
    was called on (and returns) rearranged, with the same elements, into
    lexicographically non-decreasing order of [Name]: in a program built
    with Go 1.11 to 1.18, and in one built with Go 1.19 or later (whatever
    the generator of [breakPatterns] draws).  When descriptors that share a
    name are the same descriptor, as in every collection built from
    [NewLocalstackService], the descriptors of each name keep their
    relative order. *)
Theorem Sort_orders_by_Name (collection : LocalstackServiceCollection) :
  Permutation collection (Sort collection)
  /\ List.length (Sort collection) = List.length collection
  /\ StronglySorted
       (fun x y => String.leb (Name x) (Name y) = true) (Sort collection)
  /\ (forall xorshift_Next : N -> N,
        Permutation collection (Go119.Sort xorshift_Next collection)
        /\ List.length (Go119.Sort xorshift_Next collection)
           = List.length collection
        /\ StronglySorted
             (fun x y => String.leb (Name x) (Name y) = true)
             (Go119.Sort xorshift_Next collection))
  /\ (names_identify collection ->
      forall name : string,
        named name (Sort collection) = named name collection
        /\ forall xorshift_Next : N -> N,
             named name (Go119.Sort xorshift_Next collection)
             = named name collection)
  /\ (built_from_constructor collection -> names_identify collection).
Proof.
  destruct (sort_Sort_spec LocalstackService less_Name s3 less_Name_swo
              collection) as [Hperm Hsorted].
  change (@sort.Sort (list LocalstackService) (slice_Interface less_Name)
            collection) with (Sort collection) in *.
  split; [exact Hperm|]. split; [|split; [|split; [|split]]].
  - symmetry. now apply Permutation_length.
  - rewrite (Permutation_length Hperm) in Hsorted.
    apply (sorted_range_StronglySorted _ less_Name s3) in Hsorted.
    eapply StronglySorted_weaken; [|exact Hsorted].
    intros x y Hxy. now apply String_ltb_false_leb.
  - intros xorshift_Next.
    pose proof (Go119_Sort_Permutation xorshift_Next collection) as Hperm'.
    split; [exact Hperm'|]. split.
    + symmetry. now apply Permutation_length.
    + apply Go119_Sort_StronglySorted.
  - intros Hid name. split.
    + now apply named_stable.
    + intros xorshift_Next. apply named_stable; [exact Hid|].
      apply Go119_Sort_Permutation.
  - apply built_from_constructor_names_identify.
Qed.

Lemma Sort_orders_by_Name_witness :
  named "sqs" (Sort [sqs; s3; sqs]) = [sqs; sqs]
  /\ forall xorshift_Next : N -> N,
       named "sqs" (Go119.Sort xorshift_Next [sqs; s3; sqs]) = [sqs; sqs].
Proof.
  destruct (Sort_orders_by_Name [sqs; s3; sqs])
    as (_ & _ & _ & _ & Hstable & Hbuilt).
  apply (Hstable (Hbuilt ltac:(repeat constructor;
                                [exists "sqs" | exists "s3" | exists "sqs"];
                                reflexivity)) "sqs").
Defined.

(** C8 as stated does not hold: [Sort] is not stable.  In
    [unstable_collection], thirteen descriptors, the descriptor "sns" with
    port 4566 comes before the one with port 4575; after [Sort] it comes
    after it, in a program built with Go 1.11 to 1.18 and in one built
    with Go 1.19 or later alike.  (For twelve descriptors or fewer the
    later releases sort by insertion, which keeps the order.) *)
Lemma Sort_not_stable :
  named "sns" unstable_collection = [sns_first; sns_second]
  /\ named "sns" (Sort unstable_collection) = [sns_second; sns_first]
  /\ (forall xorshift_Next : N -> N,
        named "sns" (Go119.Sort xorshift_Next unstable_collection)
        = [sns_second; sns_first])
  /\ named "sns" (Sort unstable_collection)
     <> named "sns" unstable_collection.
Proof.
  split; [reflexivity|]. split; [vm_compute; reflexivity|].
  split; [intros xorshift_Next; vm_compute; reflexivity|].
  vm_compute. discriminate.
Qed.

(** ** The scenarios of the package's tests, run on the scripted adapter *)

Example GetNamePort_s3 : GetNamePort s3 = "s3:4566".
Proof. reflexivity. Qed.

Example GetPortProtocol_s3 : GetPortProtocol s3 = "4566/tcp".
Proof. reflexivity. Qed.

Example GetServiceMap_sqs_s3 : GetServiceMap [sqs; s3] = "sqs:4566,s3:4566".
Proof. reflexivity. Qed.

Example TrimSpace_mixed :
  strings_TrimSpace
    (bytes [32; 194; 160; 9] ++ "Ready. x" ++ bytes [226; 128; 128; 13])
  = "Ready. x".
Proof. reflexivity. Qed.

Example Scanner_lines :
  bufio_Scanner ("abc" ++ bytes [13; 10] ++ bytes [10] ++ " Ready. ")
  = (["abc"; ""; " Ready. "], None).
Proof. reflexivity. Qed.

Example Scanner_final_newline :
  bufio_Scanner ("abc" ++ bytes [10]) = (["abc"], None).
Proof. reflexivity. Qed.

(** [Test_getLocalstack_UnableToFindContainer] *)
Example getLocalstack_nothing_listed :
  run MockDockerWrapper
    (getLocalstack [sqs] LocalstackName LocalstackRepository LocalstackTag)
    (script_empty [])
  = ([CallListContainers {| docker.All := true |} ([], None)],
     (None, None), script_empty []).
Proof. reflexivity. Qed.

(** [Test_NewLocalstack_StartFreshContainer_RunWithOptions] *)
Example newLocalstack_starts_container :
  let p := newLocalstack [sqs; s3] LocalstackName LocalstackRepository
             LocalstackTag in
  result_of MockDockerWrapper p (script_empty [None; None])
  = (Some {| Resource := Some {| dockertest.Container := None |};
             Services := [sqs; s3] |}, None)
  /\ retry_answers (calls_of MockDockerWrapper p (script_empty [None; None]))
     = [None; None]
  /\ run_options (calls_of MockDockerWrapper p (script_empty [None; None]))
     = [ {| dockertest.Repository := "localstack/localstack";
            dockertest.Tag := "0.11.5";
            dockertest.Name := "testLocalstackName";
            dockertest.Env := ["SERVICES=sqs:4566,s3:4566"];
            dockertest.Mounts := [];
            dockertest.PortBindings := [];
            dockertest.ExposedPorts := [] |} ].
Proof. repeat split. Qed.

(** [Test_NewLocalstack_GetLocalstackReturnsResult_RetryFailsOnSecondtService] *)
Example newLocalstack_second_poll_fails :
  let p := newLocalstack [sqs; s3] LocalstackName LocalstackRepository
             LocalstackTag in
  result_of MockDockerWrapper p (script_found [None; Some "dummyError"])
  = (None, Some "unable to connect to s3: dummyError")
  /\ run_options
       (calls_of MockDockerWrapper p (script_found [None; Some "dummyError"]))
     = [].
Proof. repeat split. Qed.

(** The readiness closure on a log that ends with the emulator's signal,
    and on one that does not. *)
Example readiness_ready :
  readiness (Some {| dockertest.Container := Some inspected_container |})
    (env_with_log ("Starting edge router" ++ bytes [13; 10]
                   ++ "Ready." ++ bytes [10]))
  = Returns None.
Proof. reflexivity. Qed.

Example readiness_not_ready :
  readiness (Some {| dockertest.Container := Some inspected_container |})
    (env_with_log ("Starting edge router" ++ bytes [10] ++ "Ready"))
  = Returns (Some "not Ready").
Proof. reflexivity. Qed.

Example readiness_nil_container :
  readiness (Some {| dockertest.Container := None |}) (env_with_log "Ready.")
  = Panics.
Proof. reflexivity. Qed.

Example Sort_three : map Name (Sort [sqs; sns_first; s3]) = ["s3"; "sns"; "sqs"].
Proof. reflexivity. Qed.

(* ================================================================== *)
(** * Further properties of the service descriptors and the collection  *)
(* ================================================================== *)

(** X1.  [Equals] is equality of descriptors behind the pointers: it
    returns true exactly when both pointers are nil or both point to
    descriptors with the same [Name], [Protocol] and [Port]. *)
Theorem Equals_iff_eq (service rhs : option LocalstackService) :
  Equals service rhs = true <-> service = rhs.
Proof.
  destruct service as [[n p q]|], rhs as [[n' p' q']|]; cbn;
    try (split; [discriminate | congruence]); [|tauto].
  rewrite !andb_true_iff, !String.eqb_eq, Z.eqb_eq.
  split.
  - intros [[-> ->] ->]. reflexivity.
  - intros H. injection H as -> -> ->. auto.
Qed.

Lemma GetServiceMap_cons (service : LocalstackService)
    (collection : LocalstackServiceCollection) :
  collection <> [] ->
  GetServiceMap (service :: collection)
  = GetNamePort service ++ "," ++ GetServiceMap collection.
Proof.
  destruct collection as [|s rest]; [congruence | reflexivity].
Qed.

(** X2.  [GetServiceMap] of the empty collection is the empty string, of a
    single descriptor its [GetNamePort], and of two non-empty collections
    one after the other the two service maps joined by a comma. *)
Theorem GetServiceMap_app (c1 c2 : LocalstackServiceCollection) :
  GetServiceMap [] = ""
  /\ (forall service, GetServiceMap [service] = GetNamePort service)
  /\ (c1 <> [] -> c2 <> [] ->
      GetServiceMap (c1 ++ c2)%list
      = GetServiceMap c1 ++ "," ++ GetServiceMap c2).
Proof.
  split; [reflexivity|]. split; [reflexivity|].
  intros H1 H2. induction c1 as [|s c1 IH]; [congruence|].
  destruct c1 as [|s' c1].
  - cbn [app]. now rewrite GetServiceMap_cons.
  - change ((s :: s' :: c1) ++ c2)%list with (s :: ((s' :: c1) ++ c2))%list.
    rewrite GetServiceMap_cons by discriminate.
    rewrite IH by discriminate.
    rewrite (GetServiceMap_cons s) by discriminate.
    now rewrite !string_app_assoc.
Qed.

Lemma GetServiceMap_app_witness :
  GetServiceMap ([sqs] ++ [s3])%list
  = GetServiceMap [sqs] ++ "," ++ GetServiceMap [s3].
Proof.
  apply (GetServiceMap_app [sqs] [s3]); discriminate.
Defined.

(** X3.  [Contains] answers true exactly when some descriptor of the
    collection carries the name, and on two collections one after the
    other it is the disjunction of the two answers. *)
Theorem Contains_iff_Name (collection : LocalstackServiceCollection)
    (name : string) :
  (Contains collection name = true
   <-> exists service, In service collection /\ Name service = name)
  /\ forall c2 : LocalstackServiceCollection,
       Contains (collection ++ c2)%list name
       = Contains collection name || Contains c2 name.
Proof.
  split.
  - rewrite Contains_true_iff, in_map_iff.
    split; intros [service [H1 H2]]; exists service; auto.
  - intros c2. induction collection as [|value rest IH]; cbn; [reflexivity|].
    destruct (String.eqb (Name value) name); [reflexivity | exact IH].
Qed.

Lemma Swap_is_slice_Swap (collection : LocalstackServiceCollection)
    (i j : nat) :
  Swap collection i j = slice_Swap collection i j.
Proof. reflexivity. Qed.

(** X4.  For two indices inside the collection, [Swap] exchanges the two
    elements, leaves every other element where it is, keeps [Len], and
    undoes itself when applied twice. *)
Theorem Swap_exchanges (collection : LocalstackServiceCollection)
    (i j : nat) :
  i < Len collection -> j < Len collection ->
  Len (Swap collection i j) = Len collection
  /\ nth_error (Swap collection i j) i = nth_error collection j
  /\ nth_error (Swap collection i j) j = nth_error collection i
  /\ (forall k, k <> i -> k <> j ->
                nth_error (Swap collection i j) k = nth_error collection k)
  /\ Swap (Swap collection i j) i j = collection.
Proof.
  unfold Len. intros Hi Hj. rewrite !Swap_is_slice_Swap.
  pose proof (Swap_length LocalstackService collection i j) as Hlen.
  assert (Hnth : forall k, k < List.length collection ->
                   nth_error (slice_Swap collection i j) k
                   = Some (if Nat.eqb k j then nth i collection s3
                           else if Nat.eqb k i then nth j collection s3
                                else nth k collection s3)).
  { intros k Hk.
    rewrite (nth_error_nth_d LocalstackService s3) by lia.
    now rewrite (nth_Swap LocalstackService s3) by assumption. }
  split; [exact Hlen|]. split; [|split; [|split]].
  - rewrite Hnth by assumption. rewrite Nat.eqb_refl.
    rewrite (nth_error_nth_d LocalstackService s3 collection j) by assumption.
    destruct (Nat.eqb_spec i j) as [-> | _]; reflexivity.
  - rewrite Hnth by assumption. rewrite Nat.eqb_refl.
    now rewrite (nth_error_nth_d LocalstackService s3 collection i).
  - intros k Hki Hkj.
    destruct (Nat.lt_ge_cases k (List.length collection)) as [Hk | Hk].
    + rewrite Hnth by assumption.
      destruct (Nat.eqb_spec k j); [contradiction|].
      destruct (Nat.eqb_spec k i); [contradiction|].
      now rewrite (nth_error_nth_d LocalstackService s3).
    + rewrite (proj2 (nth_error_None _ _)) by lia.
      now rewrite (proj2 (nth_error_None _ _)) by lia.
  - apply nth_ext with (d := s3) (d' := s3).
    + now rewrite !(Swap_length LocalstackService).
    + intros k Hk.
      rewrite (nth_Swap LocalstackService s3) by lia.
      rewrite !(nth_Swap LocalstackService s3) by assumption.
      rewrite !Nat.eqb_refl.
      destruct (Nat.eqb_spec k j) as [-> | Hkj].
      * destruct (Nat.eqb_spec i j) as [-> | _]; reflexivity.
      * destruct (Nat.eqb_spec k i) as [-> | Hki]; [|reflexivity].
        reflexivity.
Qed.

Lemma Swap_exchanges_witness :
  Swap [sqs; s3] 0 1 = [s3; sqs]
  /\ Swap (Swap [sqs; s3] 0 1) 0 1 = [sqs; s3].
Proof.
  destruct (Swap_exchanges [sqs; s3] 0 1) as (_ & _ & _ & _ & Hback).
  - cbn. lia.
  - cbn. lia.
  - split; [reflexivity | exact Hback].
Defined.

(** X5.  [Less] compares the names of the two elements, and on the indices
    inside a collection it is a strict weak order: never true of an index
    and itself, never true both ways, transitive, and so is its
    negation. *)
Theorem Less_strict_weak_order (collection : LocalstackServiceCollection)
    (i j k : nat) :
  i < Len collection -> j < Len collection -> k < Len collection ->
  (forall ci cj,
      nth_error collection i = Some ci ->
      nth_error collection j = Some cj ->
      Less collection i j = String.ltb (Name ci) (Name cj))
  /\ Less collection i i = false
  /\ (Less collection i j = true -> Less collection j i = false)
  /\ (Less collection i j = true -> Less collection j k = true ->
      Less collection i k = true)
  /\ (Less collection i j = false -> Less collection j k = false ->
      Less collection i k = false).
Proof.
  pose proof less_Name_swo as Hswo.
  unfold Len. intros Hi Hj Hk. unfold Less.
  rewrite (nth_error_nth_d LocalstackService s3 collection i Hi),
          (nth_error_nth_d LocalstackService s3 collection j Hj),
          (nth_error_nth_d LocalstackService s3 collection k Hk).
  split; [|split; [|split; [|split]]].
  - intros ci cj [= <-] [= <-]. reflexivity.
  - apply (less_irrefl Hswo).
  - apply (less_asym LocalstackService less_Name Hswo).
  - apply (less_trans Hswo).
  - intros Hij Hjk. exact (not_after_trans Hswo Hjk Hij).
Qed.

Lemma Less_strict_weak_order_witness :
  Less [sqs; s3; sqs] 0 2 = false.
Proof.
  destruct (Less_strict_weak_order [sqs; s3; sqs] 0 0 2)
    as (_ & _ & _ & _ & H); [cbn; lia | cbn; lia | cbn; lia |].
  apply H; reflexivity.
Defined.

Lemma Contains_Permutation (c1 c2 : LocalstackServiceCollection)
    (name : string) :
  Permutation c1 c2 -> Contains c1 name = Contains c2 name.
Proof.
  intros Hperm.
  destruct (Contains c2 name) eqn:H2.
  - apply Contains_true_iff. apply Contains_true_iff in H2.
    eapply Permutation_in; [|exact H2].
    apply Permutation_map. now apply Permutation_sym.
  - destruct (Contains c1 name) eqn:H1; [|reflexivity].
    apply Contains_true_iff in H1.
    assert (H : In name (map Name c2)).
    { eapply Permutation_in; [|exact H1]. now apply Permutation_map. }
    apply Contains_true_iff in H. congruence.
Qed.

Lemma Sort_Permutation (collection : LocalstackServiceCollection) :
  Permutation collection (Sort collection).
Proof.
  exact (proj1 (sort_Sort_spec LocalstackService less_Name s3 less_Name_swo
                  collection)).
Qed.

Lemma Sort_StronglySorted (collection : LocalstackServiceCollection) :
  StronglySorted (fun x y => String.leb x y = true)
                 (map Name (Sort collection)).
Proof.
  destruct (sort_Sort_spec LocalstackService less_Name s3 less_Name_swo
              collection) as [Hperm Hsorted].
  change (@sort.Sort (list LocalstackService) (slice_Interface less_Name)
            collection) with (Sort collection) in *.
  rewrite (Permutation_length Hperm) in Hsorted.
  apply (sorted_range_StronglySorted _ less_Name s3) in Hsorted.
  clear Hperm. generalize dependent (Sort collection). intros l Hsorted.
  induction Hsorted as [|x t Ht IH Hall]; cbn [map]; constructor; [exact IH|].
  rewrite Forall_map. eapply Forall_impl; [|exact Hall].
  intros y Hxy. now apply String_ltb_false_leb.
Qed.

(** X6.  [Sort] changes neither what [Contains] answers for any name nor,
    with the resolver's arguments fixed, what [EndpointFor] resolves for a
    handle whose [Services] it is applied to. *)
Theorem Sort_keeps_Contains (collection : LocalstackServiceCollection) :
  (forall name, Contains (Sort collection) name = Contains collection name)
  /\ forall (OptFn : Type)
       (GetHostPort : dockertest.Resource -> string -> string)
       (DefaultResolver_EndpointFor :
          string -> string -> list OptFn
          -> endpoints.ResolvedEndpoint * option error)
       (resource : option dockertest.Resource)
       (service region : string) (optFns : list OptFn),
       EndpointFor GetHostPort DefaultResolver_EndpointFor
         {| Resource := resource; Services := Sort collection |}
         service region optFns
       = EndpointFor GetHostPort DefaultResolver_EndpointFor
           {| Resource := resource; Services := collection |}
           service region optFns.
Proof.
  assert (HC : forall name,
             Contains (Sort collection) name = Contains collection name).
  { intros name. symmetry. apply Contains_Permutation, Sort_Permutation. }
  split; [exact HC|].
  intros OptFn GetHostPort Default resource service region optFns.
  unfold EndpointFor.
  generalize (map_keys availableServices) as keys.
  induction keys as [|k rest IH]; cbn [EndpointFor_range]; [reflexivity|].
  cbn [Services]. rewrite HC, IH. reflexivity.
Qed.

Lemma sorted_names_unique (l1 l2 : list string) :
  StronglySorted (fun x y => String.leb x y = true) l1 ->
  StronglySorted (fun x y => String.leb x y = true) l2 ->
  Permutation l1 l2 -> l1 = l2.
Proof.
  intros H1. revert l2.
  induction H1 as [|x t1 Ht1 IH Hx]; intros l2 H2 Hperm.
  - apply Permutation_nil in Hperm. now subst.
  - destruct H2 as [|y t2 Ht2 Hy].
    + apply Permutation_sym, Permutation_nil in Hperm. discriminate.
    + assert (Hxy : x = y).
      { assert (Hin1 : In x (y :: t2))
          by (eapply Permutation_in; [exact Hperm | now left]).
        assert (Hin2 : In y (x :: t1))
          by (eapply Permutation_in;
              [apply Permutation_sym; exact Hperm | now left]).
        destruct Hin1 as [Heq | Hin1]; [now symmetry|].
        destruct Hin2 as [Heq | Hin2]; [exact Heq|].
        rewrite Forall_forall in Hx, Hy.
        apply String.leb_antisym; auto. }
      subst y. f_equal. apply IH; [exact Ht2|].
      eapply Permutation_cons_inv; exact Hperm.
Qed.

Lemma NewLocalstackService_descriptor (name : string)
    (service : LocalstackService) :
  NewLocalstackService name = (Some service, None) ->
  service = descriptor name /\ In name allowed_services.
Proof.
  intros H. unfold NewLocalstackService in H.
  destruct (In_allowed_dec name) as [Hin | Hnot].
  - rewrite (NewLocalstackService_loop_In _ _ Hin) in H.
    injection H as <-. split; [reflexivity | exact Hin].
  - rewrite (NewLocalstackService_loop_not_In _ _ Hnot) in H. discriminate.
Qed.

Lemma built_from_constructor_descriptors
    (services : LocalstackServiceCollection) :
  built_from_constructor services ->
  services = map descriptor (map Name services).
Proof.
  unfold built_from_constructor.
  induction 1 as [|service rest [name Hname] _ IH]; [reflexivity|].
  cbn [map]. rewrite <- IH. f_equal.
  apply NewLocalstackService_descriptor in Hname.
  destruct Hname as [-> _]. reflexivity.
Qed.

(** X7.  [Sort] forgets the order it was given: two collections with the
    same elements in any order have the same sequence of names after
    [Sort], and when the elements came out of [NewLocalstackService] the
    two sorted collections, and so their [GetServiceMap] strings, are
    equal. *)
Theorem Sort_canonical (c1 c2 : LocalstackServiceCollection) :
  Permutation c1 c2 ->
  map Name (Sort c1) = map Name (Sort c2)
  /\ (built_from_constructor c1 ->
      Sort c1 = Sort c2
      /\ GetServiceMap (Sort c1) = GetServiceMap (Sort c2)).
Proof.
  intros Hperm.
  assert (Hnames : map Name (Sort c1) = map Name (Sort c2)).
  { apply sorted_names_unique; try apply Sort_StronglySorted.
    apply Permutation_map.
    apply (Permutation_trans (Permutation_sym (Sort_Permutation c1))).
    apply (Permutation_trans Hperm). apply Sort_Permutation. }
  split; [exact Hnames|].
  intros Hbuilt.
  assert (Heq : Sort c1 = Sort c2).
  { assert (Hb : forall c, Permutation c1 c -> built_from_constructor c).
    { intros c Hc. unfold built_from_constructor in *.
      rewrite Forall_forall in *. intros service Hin.
      apply Hbuilt. eapply Permutation_in; [|exact Hin].
      now apply Permutation_sym. }
    pose proof (built_from_constructor_descriptors _
                  (Hb _ (Sort_Permutation c1))) as H1.
    pose proof (built_from_constructor_descriptors _
                  (Hb _ (Permutation_trans Hperm (Sort_Permutation c2))))
      as H2.
    rewrite H1, H2, Hnames. reflexivity. }
  split; [exact Heq | now rewrite Heq].
Qed.

Lemma Sort_canonical_witness :
  map Name (Sort [sqs; s3]) = map Name (Sort [s3; sqs])
  /\ Sort [sqs; s3] = Sort [s3; sqs].
Proof.
  destruct (Sort_canonical [sqs; s3] [s3; sqs]) as [Hnames Hbuilt].
  - apply perm_swap.
  - split; [exact Hnames|].
    apply Hbuilt. repeat constructor.
    + exists "sqs". reflexivity.
    + exists "s3". reflexivity.
Defined.

(** X8.  [NewLocalstackService] returns either a descriptor and no error
    or an error and no descriptor.  A descriptor it returns has
    [GetPortProtocol] "4566/tcp", and two descriptors it returns are
    [Equals] exactly when they were asked for under the same name. *)
Theorem NewLocalstackService_results (name1 name2 : string) :
  (match NewLocalstackService name1 with
   | (Some _, None) | (None, Some _) => True
   | _ => False
   end)
  /\ forall service1 service2,
       NewLocalstackService name1 = (Some service1, None) ->
       NewLocalstackService name2 = (Some service2, None) ->
       GetPortProtocol service1 = "4566/tcp"
       /\ (Equals (Some service1) (Some service2) = true <-> name1 = name2).
Proof.
  split.
  - unfold NewLocalstackService.
    destruct (In_allowed_dec name1) as [Hin | Hnot].
    + now rewrite (NewLocalstackService_loop_In _ _ Hin).
    + now rewrite (NewLocalstackService_loop_not_In _ _ Hnot).
  - intros service1 service2 H1 H2.
    apply NewLocalstackService_descriptor in H1, H2.
    destruct H1 as [-> _], H2 as [-> _].
    split; [reflexivity|].
    unfold Equals, descriptor. cbn [Name Protocol Port].
    rewrite String.eqb_refl, Z.eqb_refl, !andb_true_r.
    apply String.eqb_eq.
Qed.

Lemma NewLocalstackService_results_witness :
  GetPortProtocol s3 = "4566/tcp"
  /\ (Equals (Some s3) (Some sqs) = true <-> "s3" = "sqs").
Proof.
  apply (proj2 (NewLocalstackService_results "s3" "sqs") s3 sqs);
    reflexivity.
Defined.

(* ================================================================== *)
(** * Further properties of the runs of the constructors                *)
(* ================================================================== *)

Lemma matches_dec (name repository tag : string) (c : docker.APIContainers) :
  {matches name repository tag c} + {~ matches name repository tag c}.
Proof.
  unfold matches.
  destruct (string_dec (docker.Image c) (repository ++ ":" ++ tag))
    as [Himg | Himg]; [|right; tauto].
  destruct (in_dec string_dec ("/" ++ name) (docker.Names c))
    as [Hin | Hin]; [left | right]; tauto.
Qed.

Lemma only_Retry (calls : list Call) :
  forallb is_Retry calls = true ->
  listings calls = [] /\ inspected_ids calls = [] /\ run_options calls = []
  /\ resources_of calls = [].
Proof.
  induction calls as [|[] calls IH]; cbn; try discriminate; auto.
Qed.

Lemma listings_app (l1 l2 : list Call) :
  listings (l1 ++ l2) = (listings l1 ++ listings l2)%list.
Proof.
  induction l1 as [|[] l1 IH]; cbn; rewrite ?IH; reflexivity.
Qed.

Lemma inspected_ids_app (l1 l2 : list Call) :
  inspected_ids (l1 ++ l2) = (inspected_ids l1 ++ inspected_ids l2)%list.
Proof.
  induction l1 as [|[] l1 IH]; cbn; rewrite ?IH; reflexivity.
Qed.

Lemma resources_of_app (l1 l2 : list Call) :
  resources_of (l1 ++ l2) = (resources_of l1 ++ resources_of l2)%list.
Proof.
  induction l1 as [|[? ?|? [? [?|]]|? [? [?|]]|? ?] l1 IH]; cbn;
    rewrite ?IH; reflexivity.
Qed.

Section Traces.

Context {W : Type} (d : DockerWrapper W).

Lemma waitForServices_only_Retry (localstack : option dockertest.Resource)
    (services : LocalstackServiceCollection)
    (remaining : list LocalstackService) (w : W) :
  forallb is_Retry
    (calls_of d (waitForServices localstack services remaining) w) = true.
Proof.
  unfold calls_of. revert w.
  induction remaining as [|service rest IH]; intros w;
    cbn [waitForServices run]; [reflexivity|].
  destruct (doRetry d (readiness localstack) w) as [[e|] w1];
    [reflexivity|].
  specialize (IH w1).
  destruct (run d (waitForServices localstack services rest) w1)
    as [[calls r] w2].
  exact IH.
Qed.

(** The run of the two loops over a listing: nothing is inspected when no
    listed container matches, and otherwise the first one that matches is
    inspected, and nothing else. *)
Lemma getLocalstack_containers_run
    (containers : list docker.APIContainers) (name repository tag : string)
    (w : W) :
  (Forall (fun c => ~ matches name repository tag c) containers
   /\ run d (getLocalstack_containers containers name repository tag) w
      = ([], (None, None), w))
  \/ exists before c after,
       containers = (before ++ c :: after)%list
       /\ Forall (fun c' => ~ matches name repository tag c') before
       /\ matches name repository tag c
       /\ run d (getLocalstack_containers containers name repository tag) w
          = ([CallInspectContainer (docker.ID c)
                (fst (doInspectContainer d (docker.ID c) w))],
             match snd (fst (doInspectContainer d (docker.ID c) w)) with
             | Some e =>
                 (None, Some ("unable to inspect container " ++ docker.ID c
                              ++ ": " ++ e))
             | None =>
                 (Some {| dockertest.Container :=
                            fst (fst (doInspectContainer d (docker.ID c) w))
                       |}, None)
             end,
             snd (doInspectContainer d (docker.ID c) w)).
Proof.
  induction containers as [|c rest IH].
  - left. split; [constructor | reflexivity].
  - destruct (matches_dec name repository tag c) as [Hc | Hc].
    + right. exists [], c, rest. split; [reflexivity|].
      split; [constructor|]. split; [exact Hc|].
      change (c :: rest) with ([] ++ c :: rest)%list.
      rewrite (@getLocalstack_containers_first [] c rest name repository
                 tag (Forall_nil _) Hc).
      cbn [run].
      destruct (doInspectContainer d (docker.ID c) w)
        as [[container [e|]] w1]; reflexivity.
    + rewrite (@getLocalstack_containers_skip c rest name repository tag Hc).
      destruct IH as [[Hnone Hrun] | (before & c' & after & -> & Hb & Hc'
                                      & Hrun)].
      * left. split; [now constructor | exact Hrun].
      * right. exists (c :: before), c', after.
        split; [reflexivity|]. split; [now constructor|].
        split; [exact Hc' | exact Hrun].
Qed.

(** Every run of [getLocalstack] is of one of four kinds. *)
Lemma getLocalstack_run_cases (services : LocalstackServiceCollection)
    (name repository tag : string) (w : W) :
  let calls := calls_of d (getLocalstack services name repository tag) w in
  let r := result_of d (getLocalstack services name repository tag) w in
  (name = "" /\ calls = [] /\ r = (None, None))
  \/ (name <> "" /\ exists containers e,
        calls = [CallListContainers {| docker.All := true |}
                   (containers, Some e)]
        /\ r = (None, Some ("unable to retrieve docker containers: " ++ e)))
  \/ (name <> "" /\ exists containers,
        calls = [CallListContainers {| docker.All := true |}
                   (containers, None)]
        /\ Forall (fun c => ~ matches name repository tag c) containers
        /\ r = (None, None))
  \/ (name <> "" /\ exists containers c answer,
        calls = [CallListContainers {| docker.All := true |}
                   (containers, None);
                 CallInspectContainer (docker.ID c) answer]
        /\ In c containers
        /\ matches name repository tag c
        /\ r = match snd answer with
               | Some e =>
                   (None, Some ("unable to inspect container "
                                ++ docker.ID c ++ ": " ++ e))
               | None =>
                   (Some {| dockertest.Container := fst answer |}, None)
               end).
Proof.
  cbn zeta. unfold calls_of, result_of.
  destruct (string_dec name "") as [-> | Hname]; [left; auto|].
  right. rewrite (@getLocalstack_named services name repository tag Hname).
  cbn [run].
  destruct (doListContainers d {| docker.All := true |} w)
    as [[containers [e|]] w1]; cbn [listed].
  - left. split; [exact Hname|]. exists containers, e. split; reflexivity.
  - right.
    destruct (getLocalstack_containers_run containers name repository tag
                w1) as [[Hnone Hrun] | (before & c & after & -> & Hb & Hc
                                        & Hrun)];
      rewrite Hrun; cbn [fst snd app].
    + left. split; [exact Hname|]. exists containers. auto.
    + right. split; [exact Hname|].
      exists (before ++ c :: after)%list, c,
        (fst (doInspectContainer d (docker.ID c) w1)).
      split; [reflexivity|]. split; [apply in_elt|]. split; [exact Hc|].
      reflexivity.
Qed.

(** X9.  With the empty name [getLocalstack] calls nothing and returns no
    resource and no error.  With any other name its first call lists the
    containers, once, stopped ones included; when the listing fails nothing
    else is called; at most one container is inspected after it, one that
    was listed and matches; and no container is started and nothing is
    polled. *)
Theorem getLocalstack_lists_once (services : LocalstackServiceCollection)
    (name repository tag : string) (w : W) :
  let calls := calls_of d (getLocalstack services name repository tag) w in
  let r := result_of d (getLocalstack services name repository tag) w in
  (name = "" -> calls = [] /\ r = (None, None))
  /\ (name <> "" ->
      exists answer rest,
        calls = CallListContainers {| docker.All := true |} answer :: rest
        /\ listings rest = []
        /\ (forall e, snd answer = Some e ->
              rest = []
              /\ r = (None,
                      Some ("unable to retrieve docker containers: " ++ e)))
        /\ (rest = []
            \/ exists c inspection,
                 rest = [CallInspectContainer (docker.ID c) inspection]
                 /\ In c (fst answer)
                 /\ matches name repository tag c))
  /\ run_options calls = []
  /\ retry_ops calls = [].
Proof.
  cbn zeta.
  destruct (getLocalstack_run_cases services name repository tag w)
    as [(Hname & -> & ->)
       | [(Hname & containers & e & -> & ->)
         | [(Hname & containers & -> & Hnone & ->)
           | (Hname & containers & c & answer & -> & Hin & Hc & ->)]]].
  - split; [auto|]. split; [congruence|]. split; reflexivity.
  - split; [congruence|]. split; [|split; reflexivity].
    intros _. exists (containers, Some e), [].
    split; [reflexivity|]. split; [reflexivity|]. split; [|now left].
    cbn [snd]. intros e' [= <-]. split; reflexivity.
  - split; [congruence|]. split; [|split; reflexivity].
    intros _. exists (containers, None), [].
    split; [reflexivity|]. split; [reflexivity|]. split; [|now left].
    cbn [snd]. discriminate.
  - split; [congruence|]. split; [|split; reflexivity].
    intros _. exists (containers, None),
                [CallInspectContainer (docker.ID c) answer].
    split; [reflexivity|]. split; [reflexivity|]. split.
    + cbn [snd]. discriminate.
    + right. exists c, answer. cbn [fst]. auto.
Qed.

(** What follows discovery: the calls of [resolved] are at most one start,
    with [runOptions], and then polls only; a discovery error or a failed
    start ends the run at once. *)
Lemma resolved_run_cases (services : LocalstackServiceCollection)
    (name repository tag data : string) (answer : found * option error)
    (w : W) :
  let calls := calls_of d (resolved services name repository tag data answer)
                 w in
  let r := result_of d (resolved services name repository tag data answer)
             w in
  match answer with
  | (_, Some e) => calls = [] /\ r = (None, Some e)
  | (Some resource, None) =>
      calls = calls_of d (waitForServices (Some resource) services services)
                w
      /\ r = result_of d (waitForServices (Some resource) services services)
               w
  | (None, None) =>
      exists started_answer w1,
        doRunWithOptions d (runOptions services name repository tag data) w
        = (started_answer, w1)
        /\ match snd started_answer with
           | Some e =>
               calls = [CallRunWithOptions
                          (runOptions services name repository tag data)
                          started_answer]
               /\ r = (None, Some ("could not start resource: " ++ e))
           | None =>
               calls = CallRunWithOptions
                         (runOptions services name repository tag data)
                         started_answer
                       :: calls_of d (waitForServices (fst started_answer)
                                        services services) w1
               /\ r = result_of d (waitForServices (fst started_answer)
                                     services services) w1
           end
  end.
Proof.
  cbn zeta. unfold calls_of, result_of.
  destruct answer as [[resource|] [e|]]; cbn [resolved run fst snd]; auto.
  destruct (doRunWithOptions d (runOptions services name repository tag data)
              w) as [[localstack [e|]] w1] eqn:Hrun.
  - exists (localstack, Some e), w1. cbn [snd started run fst]. auto.
  - exists (localstack, None), w1. cbn [snd started fst].
    split; [reflexivity|].
    destruct (run d (waitForServices localstack services services) w1)
      as [[calls r] w2].
    cbn [fst snd]. auto.
Qed.

Lemma newPersistentLocalstack_split (services : LocalstackServiceCollection)
    (name repository tag data : string) (w : W) :
  let g := getLocalstack services name repository tag in
  let rest := resolved services name repository tag data (result_of d g w) in
  calls_of d (newPersistentLocalstack services name repository tag data) w
  = (calls_of d g w ++ calls_of d rest (snd (run d g w)))%list
  /\ result_of d (newPersistentLocalstack services name repository tag data)
       w
     = result_of d rest (snd (run d g w)).
Proof.
  cbn zeta. unfold calls_of, result_of.
  rewrite newPersistentLocalstack_run.
  destruct (run d (getLocalstack services name repository tag) w)
    as [[calls0 answer] w0].
  cbn [fst snd].
  destruct (run d (resolved services name repository tag data answer) w0)
    as [[calls1 r] w1].
  split; reflexivity.
Qed.

Lemma waitForServices_polled (localstack : option dockertest.Resource)
    (services : LocalstackServiceCollection) (w : W) :
  polled_in_order services localstack
    (calls_of d (waitForServices localstack services services) w)
    (result_of d (waitForServices localstack services services) w).
Proof.
  pose proof (waitForServices_run d localstack services services w) as H.
  cbn zeta in H. destruct H as (_ & _ & Hops & Hcases).
  split; [exact Hops | exact Hcases].
Qed.

Lemma polled_in_order_after (services : LocalstackServiceCollection)
    (localstack : option dockertest.Resource) (before calls : list Call)
    (r : option Localstack * option error) :
  retry_answers before = [] -> retry_ops before = [] ->
  polled_in_order services localstack calls r ->
  polled_in_order services localstack (before ++ calls)%list r.
Proof.
  unfold polled_in_order. intros Ha Ho H.
  now rewrite retry_answers_app, retry_ops_app, Ha, Ho.
Qed.

(** C1.  In every run of the constructor, on every adapter.  When discovery
    finds a container, and when it finds none and a container is started,
    the services are polled in collection order with the readiness closure
    of that resource: either [Retry] is called exactly once for each
    service, every call answers [nil], and the handle on the resource and
    the collection is returned; or the call for the n-th service answers
    with an error, it is the last [Retry] call, and the constructor returns
    a nil handle and the error "unable to connect to <name of that
    service>: ...".  When discovery fails or the start fails, nothing is
    polled.  So [Retry] is never called more than once per service; an
    error answer is always the last one and names the service at its
    position; and without an error answer either every service was polled
    exactly once and a handle is returned, or the constructor had failed
    before the first poll. *)
Theorem readiness_polled_once_per_service
    (services : LocalstackServiceCollection)
    (name repository tag data : string) (w : W) :
  let p := newPersistentLocalstack services name repository tag data in
  let calls := calls_of d p w in
  let answers := retry_answers calls in
  let r := result_of d p w in
  (forall resource,
      result_of d (getLocalstack services name repository tag) w
      = (Some resource, None) ->
      polled_in_order services (Some resource) calls r)
  /\ (forall calls0 w0 localstack w1,
        run d (getLocalstack services name repository tag) w
        = (calls0, (None, None), w0) ->
        doRunWithOptions d (runOptions services name repository tag data) w0
        = ((localstack, None), w1) ->
        polled_in_order services localstack calls r)
  /\ (forall e,
        snd (result_of d (getLocalstack services name repository tag) w)
        = Some e ->
        answers = [] /\ r = (None, Some e))
  /\ (forall calls0 w0 localstack e w1,
        run d (getLocalstack services name repository tag) w
        = (calls0, (None, None), w0) ->
        doRunWithOptions d (runOptions services name repository tag data) w0
        = ((localstack, Some e), w1) ->
        answers = []
        /\ r = (None, Some ("could not start resource: " ++ e)))
  /\ List.length answers <= List.length services
  /\ (exists localstack,
        retry_ops calls
        = repeat (readiness localstack) (List.length answers))
  /\ (forall n e,
        nth_error answers n = Some (Some e) ->
        List.length answers = S n
        /\ exists service,
             nth_error services n = Some service
             /\ r = (None, Some ("unable to connect to " ++ Name service
                                 ++ ": " ++ e)))
  /\ ((forall answer, In answer answers -> answer = None) ->
      (answers = repeat None (List.length services)
       /\ exists localstack,
            r = (Some {| Resource := localstack; Services := services |},
                 None))
      \/ (answers = [] /\ exists e, r = (None, Some e))).
Proof.
  cbn zeta.
  destruct (newPersistentLocalstack_split services name repository tag data
              w) as [Hcalls Hresult].
  cbn zeta in Hcalls, Hresult.
  destruct (discovery_shaped_getLocalstack d services name repository tag w)
    as (Ha0 & Ho0 & _ & _).
  split; [|split; [|split; [|split]]].
  - (* a container was found *)
    intros resource Hfound.
    rewrite Hcalls, Hresult, Hfound. cbn [resolved].
    apply polled_in_order_after; [exact Ha0 | exact Ho0|].
    apply waitForServices_polled.
  - (* a container was started *)
    intros calls0 w0 localstack w1 Hnone Hstart.
    assert (Hr0 : result_of d (getLocalstack services name repository tag) w
                  = (None, None)) by (unfold result_of; now rewrite Hnone).
    assert (Hw0 : snd (run d (getLocalstack services name repository tag) w)
                  = w0) by now rewrite Hnone.
    rewrite Hcalls, Hresult, Hr0, Hw0. cbn [resolved].
    apply polled_in_order_after; [exact Ha0 | exact Ho0|].
    unfold calls_of, result_of. cbn [run]. rewrite Hstart. cbn [started].
    pose proof (waitForServices_polled localstack services w1) as H.
    unfold calls_of, result_of in H.
    destruct (run d (waitForServices localstack services services) w1)
      as [[calls1 r1] w2].
    exact H.
  - (* discovery failed *)
    intros e He. rewrite Hcalls, Hresult.
    destruct (result_of d (getLocalstack services name repository tag) w)
      as [localstack err].
    cbn [snd] in He. subst err. cbn [resolved].
    unfold calls_of at 2. unfold result_of. cbn [run fst snd].
    now rewrite app_nil_r, Ha0.
  - (* the start failed *)
    intros calls0 w0 localstack e w1 Hnone Hstart.
    assert (Hr0 : result_of d (getLocalstack services name repository tag) w
                  = (None, None)) by (unfold result_of; now rewrite Hnone).
    assert (Hw0 : snd (run d (getLocalstack services name repository tag) w)
                  = w0) by now rewrite Hnone.
    rewrite Hcalls, Hresult, Hr0, Hw0. cbn [resolved].
    unfold calls_of at 2. unfold result_of. cbn [run]. rewrite Hstart.
    cbn [started run fst snd].
    rewrite retry_answers_app, Ha0. split; reflexivity.
  - destruct (newPersistentLocalstack_outcome d services name repository tag
                data w) as [Hops Hcases].
    cbn zeta in Hcases.
    split; [|split; [exact Hops|split]].
    + destruct Hcases as [[-> _] | [[-> _] | (n & s & e & Hn & -> & _)]].
      * cbn. lia.
      * rewrite repeat_length. lia.
      * rewrite length_app, repeat_length. cbn.
        assert (n < List.length services)
          by (apply nth_error_Some; congruence).
        lia.
    + intros m e' Hm.
      destruct Hcases as [[Ha _] | [[Ha _] | (n & s & e & Hn & Ha & Hr)]];
        rewrite Ha in Hm.
      * destruct m; discriminate.
      * now apply nth_error_repeat_None in Hm.
      * apply nth_error_repeat_None_snoc in Hm. destruct Hm as [-> ->].
        rewrite Ha, length_app, repeat_length. cbn.
        split; [lia|]. eauto.
    + intros Hall.
      destruct Hcases as [H | [H | (n & s & e & Hn & Ha & Hr)]]; auto.
      exfalso. specialize (Hall (Some e)).
      rewrite Ha in Hall. discriminate Hall.
      apply in_or_app. right. now left.
Qed.

(** X10.  The calls of a constructor come in three stages, in this order:
    the calls of [getLocalstack]; then, exactly when discovery returned no
    resource and no error, one [RunWithOptions] with [runOptions]; then
    [Retry] calls only.  After a discovery error or a failed start nothing
    is polled, and a run never both inspects and starts a container. *)
Theorem newPersistentLocalstack_call_order
    (services : LocalstackServiceCollection)
    (name repository tag data : string) (w : W) :
  let p := newPersistentLocalstack services name repository tag data in
  let lookup := calls_of d (getLocalstack services name repository tag) w in
  let discovered :=
    result_of d (getLocalstack services name repository tag) w in
  exists create polls,
    calls_of d p w = (lookup ++ create ++ polls)%list
    /\ forallb is_Retry polls = true
    /\ (discovered = (None, None) ->
        exists answer,
          create = [CallRunWithOptions
                      (runOptions services name repository tag data) answer]
          /\ (snd answer <> None -> polls = []))
    /\ (discovered <> (None, None) -> create = [])
    /\ (snd discovered <> None -> polls = [])
    /\ List.length (inspected_ids (calls_of d p w))
       + List.length (run_options (calls_of d p w)) <= 1.
Proof.
  cbn zeta.
  destruct (newPersistentLocalstack_split services name repository tag data
              w) as [Hcalls _].
  cbn zeta in Hcalls. rewrite Hcalls. clear Hcalls.
  pose proof (resolved_run_cases services name repository tag data
                (result_of d (getLocalstack services name repository tag) w)
                (snd (run d (getLocalstack services name repository tag) w)))
    as Hres.
  cbn zeta in Hres.
  set (w0 := snd (run d (getLocalstack services name repository tag) w))
    in *.
  assert (Hlookup :
            (result_of d (getLocalstack services name repository tag) w
             = (None, None)
             /\ inspected_ids
                  (calls_of d (getLocalstack services name repository tag) w)
                = [])
            \/ (result_of d (getLocalstack services name repository tag) w
                <> (None, None)
                /\ List.length
                     (inspected_ids
                        (calls_of d (getLocalstack services name repository
                                       tag) w)) <= 1)).
  { destruct (getLocalstack_run_cases services name repository tag w)
      as [(_ & -> & ->)
         | [(_ & containers & e & -> & ->)
           | [(_ & containers & -> & _ & ->)
             | (_ & containers & c & [container [e|]] & -> & _ & _ & ->)]]];
      cbn [snd fst inspected_ids List.length];
      solve [ left; split; reflexivity
            | right; split; [discriminate | lia] ]. }
  assert (Hrun :
            run_options
              (calls_of d (getLocalstack services name repository tag) w)
            = []).
  { now destruct (discovery_shaped_getLocalstack d services name repository
                    tag w) as (_ & _ & H & _). }
  rewrite !inspected_ids_app, !run_options_app, Hrun, !length_app.
  cbn [app List.length].
  destruct (result_of d (getLocalstack services name repository tag) w)
    as [[resource|] [e|]].
  - (* discovery failed *)
    destruct Hres as [-> _]. exists [], [].
    split; [reflexivity|]. split; [reflexivity|].
    split; [discriminate|]. split; [reflexivity|]. split; [reflexivity|].
    destruct Hlookup as [[Heq _] | [_ Hle]]; [discriminate|].
    cbn. lia.
  - (* found *)
    destruct Hres as [-> _]. exists [].
    exists (calls_of d (waitForServices (Some resource) services services)
              w0).
    pose proof (waitForServices_only_Retry (Some resource) services services
                  w0) as Hpolls.
    destruct (only_Retry _ Hpolls) as (_ & Hins & Hopts & _).
    split; [reflexivity|]. split; [exact Hpolls|].
    split; [discriminate|]. split; [reflexivity|].
    split; [cbn [snd]; congruence|].
    rewrite Hins, Hopts.
    destruct Hlookup as [[Heq _] | [_ Hle]]; [discriminate|].
    cbn. lia.
  - destruct Hres as [-> _]. exists [], [].
    split; [reflexivity|]. split; [reflexivity|].
    split; [discriminate|]. split; [reflexivity|]. split; [reflexivity|].
    destruct Hlookup as [[Heq _] | [_ Hle]]; [discriminate|].
    cbn. lia.
  - (* nothing found: a container is started *)
    destruct Hres as (started_answer & w1 & _ & Hres).
    destruct Hlookup as [[_ Hins0] | [Hne _]];
      [|exfalso; apply Hne; reflexivity].
    rewrite Hins0.
    destruct started_answer as [localstack [e|]]; cbn [snd fst] in Hres;
      destruct Hres as [-> _].
    + exists [CallRunWithOptions
                (runOptions services name repository tag data)
                (localstack, Some e)], [].
      split; [reflexivity|]. split; [reflexivity|].
      split; [intros _; eexists; split; [reflexivity | reflexivity]|].
      split; [intros Hne; exfalso; apply Hne; reflexivity|].
      split; [reflexivity|].
      cbn. lia.
    + exists [CallRunWithOptions
                (runOptions services name repository tag data)
                (localstack, None)].
      exists (calls_of d (waitForServices localstack services services) w1).
      pose proof (waitForServices_only_Retry localstack services services
                    w1) as Hpolls.
      destruct (only_Retry _ Hpolls) as (_ & Hins & Hopts & _).
      split; [reflexivity|]. split; [exact Hpolls|].
      split; [intros _; eexists; split; [reflexivity|];
              cbn [snd]; congruence|].
      split; [intros Hne; exfalso; apply Hne; reflexivity|].
      split; [cbn [snd]; congruence|].
      cbn [inspected_ids run_options List.length].
      rewrite Hins, Hopts. cbn. lia.
Qed.

(** X11.  A handle that a constructor returns carries the collection it was
    given and the one resource the run obtained, from the inspection of the
    container found or from the start of a new one; and every service was
    polled once, successfully, with the readiness closure of that
    resource. *)
Theorem handle_wraps_resolved_resource
    (services : LocalstackServiceCollection)
    (name repository tag data : string) (w : W) (handle : Localstack) :
  let p := newPersistentLocalstack services name repository tag data in
  result_of d p w = (Some handle, None) ->
  Services handle = services
  /\ resources_of (calls_of d p w) = [Resource handle]
  /\ retry_ops (calls_of d p w)
     = repeat (readiness (Resource handle)) (List.length services)
  /\ retry_answers (calls_of d p w) = repeat None (List.length services).
Proof.
  cbn zeta.
  destruct (newPersistentLocalstack_split services name repository tag data
              w) as [Hcalls Hresult].
  cbn zeta in Hcalls, Hresult. rewrite Hcalls, Hresult.
  clear Hcalls Hresult.
  pose proof (resolved_run_cases services name repository tag data
                (result_of d (getLocalstack services name repository tag) w)
                (snd (run d (getLocalstack services name repository tag) w)))
    as Hres.
  cbn zeta in Hres.
  set (w0 := snd (run d (getLocalstack services name repository tag) w))
    in *.
  assert (Hwait : forall localstack w',
            result_of d (waitForServices localstack services services) w'
            = (Some handle, None) ->
            handle = {| Resource := localstack; Services := services |}
            /\ resources_of
                 (calls_of d (waitForServices localstack services services)
                    w') = []
            /\ retry_ops
                 (calls_of d (waitForServices localstack services services)
                    w')
               = repeat (readiness localstack) (List.length services)
            /\ retry_answers
                 (calls_of d (waitForServices localstack services services)
                    w')
               = repeat None (List.length services)).
  { intros localstack w' Hr.
    pose proof (waitForServices_run d localstack services services w') as H.
    cbn zeta in H. destruct H as (_ & _ & Hops & Hcases).
    destruct (only_Retry _ (waitForServices_only_Retry localstack services
                              services w')) as (_ & _ & _ & Hnone).
    destruct Hcases as [[Hans Heq] | (n & s & e & _ & _ & Heq)];
      rewrite Heq in Hr; [|discriminate].
    injection Hr as <-.
    split; [reflexivity|]. split; [exact Hnone|].
    split; [|exact Hans].
    now rewrite Hops, Hans, repeat_length. }
  rewrite resources_of_app, retry_ops_app, retry_answers_app.
  destruct (getLocalstack_run_cases services name repository tag w)
    as [(_ & Hc & Hr)
       | [(_ & containers & e & Hc & Hr)
         | [(_ & containers & Hc & _ & Hr)
           | (_ & containers & c & [container [e|]] & Hc & _ & _ & Hr)]]];
    cbn [snd fst] in Hr; rewrite Hc, Hr; rewrite Hr in Hres;
    cbn [snd fst] in Hres;
    cbn [resources_of retry_ops retry_answers app].
  - destruct Hres as (started_answer & w1 & _ & Hres).
    destruct started_answer as [localstack [e|]]; cbn [snd fst] in Hres;
      destruct Hres as [-> ->]; [discriminate|].
    intros Hr'. destruct (Hwait localstack w1 Hr') as (-> & Hn & Ho & Ha).
    cbn [resources_of retry_ops retry_answers Services Resource].
    now rewrite Hn, Ho, Ha.
  - destruct Hres as [-> ->]. discriminate.
  - destruct Hres as (started_answer & w1 & _ & Hres).
    destruct started_answer as [localstack [e|]]; cbn [snd fst] in Hres;
      destruct Hres as [-> ->]; [discriminate|].
    intros Hr'. destruct (Hwait localstack w1 Hr') as (-> & Hn & Ho & Ha).
    cbn [resources_of retry_ops retry_answers Services Resource].
    now rewrite Hn, Ho, Ha.
  - destruct Hres as [-> ->]. discriminate.
  - destruct Hres as [-> ->].
    intros Hr'.
    destruct (Hwait (Some {| dockertest.Container := container |}) w0 Hr')
      as (-> & Hn & Ho & Ha).
    cbn [Services Resource]. now rewrite Hn, Ho, Ha.
Qed.

(** X12.  [NewLocalstack] and [NewPersistentLocalstack] never look for an
    existing container: their first call starts one, from
    "localstack/localstack:latest" and under no name, and every later call
    is a poll. *)
Theorem unnamed_constructors_start_a_container
    (services : LocalstackServiceCollection) (data : string) (w : W) :
  NewLocalstack services = NewPersistentLocalstack services ""
  /\ exists answer polls,
       calls_of d (NewPersistentLocalstack services data) w
       = CallRunWithOptions
           (runOptions services "" "localstack/localstack" "latest" data)
           answer :: polls
       /\ forallb is_Retry polls = true
       /\ listings (calls_of d (NewPersistentLocalstack services data) w)
          = []
       /\ inspected_ids
            (calls_of d (NewPersistentLocalstack services data) w) = [].
Proof.
  split; [reflexivity|].
  unfold NewPersistentLocalstack, NewPersistentSpecificLocalstack.
  destruct (newPersistentLocalstack_split services "" LocalstackRepository
              "latest" data w) as [Hcalls _].
  cbn zeta in Hcalls. rewrite Hcalls. clear Hcalls.
  unfold getLocalstack. cbn [String.eqb negb].
  unfold calls_of, result_of. cbn [run fst snd app resolved].
  destruct (doRunWithOptions d
              (runOptions services "" LocalstackRepository "latest" data) w)
    as [[localstack [e|]] w1]; cbn [started].
  - exists (localstack, Some e), []. cbn. auto.
  - pose proof (waitForServices_only_Retry localstack services services w1)
      as Hpolls.
    destruct (only_Retry _ Hpolls) as (Hl & Hi & _ & _).
    unfold calls_of in *.
    destruct (run d (waitForServices localstack services services) w1)
      as [[calls r] w2].
    cbn [fst] in *. exists (localstack, None), calls.
    cbn [listings inspected_ids]. auto.
Qed.

(** X13.  Whatever the name, the options of a container that a constructor
    starts hold the repository, tag and name it was given, no port binding
    and no exposed port; the environment is "SERVICES=" and the service
    map, followed by "DATA_DIR=" and the data directory exactly when that
    is not empty, and exactly then the data path is mounted. *)
Theorem started_container_options
    (services : LocalstackServiceCollection)
    (name repository tag data : string) (w : W)
    (options : dockertest.RunOptions) :
  In options
     (run_options
        (calls_of d
           (newPersistentLocalstack services name repository tag data) w)) ->
  options
  = {| dockertest.Repository := repository;
       dockertest.Tag := tag;
       dockertest.Name := name;
       dockertest.Env :=
         ("SERVICES=" ++ GetServiceMap services)
         :: match data with
            | EmptyString => []
            | _ => ["DATA_DIR=" ++ data]
            end;
       dockertest.Mounts :=
         match data with
         | EmptyString => []
         | _ => ["/tmp/localstack/data:/tmp/localstack/data"]
         end;
       dockertest.PortBindings := [];
       dockertest.ExposedPorts := [] |}.
Proof.
  destruct (discovery_shaped_getLocalstack d services name repository tag w)
    as (_ & _ & _ & Hshape).
  destruct Hshape as [Hr | [[resource Hr] | [e Hr]]].
  - rewrite (creation_run_options d services name repository tag data w Hr).
    intros [<- | []]. unfold runOptions.
    destruct data as [|c data]; reflexivity.
  - now rewrite (found_no_run d services name repository tag data w Hr).
  - destruct (newPersistentLocalstack_split services name repository tag
                data w) as [Hcalls _].
    cbn zeta in Hcalls. rewrite Hcalls, Hr. cbn [resolved].
    unfold calls_of at 2. cbn [run fst]. rewrite app_nil_r.
    destruct (discovery_shaped_getLocalstack d services name repository tag
                w) as (_ & _ & -> & _).
    intros [].
Qed.

End Traces.

(** The scenarios of the package's tests: services sqs and s3; the
    container is found and both services are ready; and no container is
    found, one starts, and the first poll fails. *)
Lemma readiness_polled_once_per_service_witness :
  polled_in_order [sqs; s3] (Some inspected_resource)
    (calls_of MockDockerWrapper
       (newLocalstack [sqs; s3] LocalstackName LocalstackRepository
          LocalstackTag) (script_found [None; None]))
    (result_of MockDockerWrapper
       (newLocalstack [sqs; s3] LocalstackName LocalstackRepository
          LocalstackTag) (script_found [None; None]))
  /\ result_of MockDockerWrapper
       (newLocalstack [sqs; s3] LocalstackName LocalstackRepository
          LocalstackTag) (script_empty [Some "dummyError"; None])
     = (None, Some "unable to connect to sqs: dummyError").
Proof.
  split.
  - destruct (readiness_polled_once_per_service MockDockerWrapper [sqs; s3]
                LocalstackName LocalstackRepository LocalstackTag ""
                (script_found [None; None])) as (Hfound & _).
    apply (Hfound inspected_resource). reflexivity.
  - destruct (readiness_polled_once_per_service MockDockerWrapper [sqs; s3]
                LocalstackName LocalstackRepository LocalstackTag ""
                (script_empty [Some "dummyError"; None]))
      as (_ & _ & _ & _ & _ & _ & Herr & _).
    destruct (Herr 0 "dummyError" eq_refl) as [_ [service [Hs Hr]]].
    cbn in Hs. injection Hs as <-. exact Hr.
Defined.

Lemma handle_wraps_resolved_resource_witness :
  resources_of
    (calls_of MockDockerWrapper
       (newPersistentLocalstack [sqs; s3] "" LocalstackRepository "latest" "")
       (script_empty []))
  = [Some {| dockertest.Container := None |}].
Proof.
  apply (handle_wraps_resolved_resource MockDockerWrapper [sqs; s3] ""
           LocalstackRepository "latest" "" (script_empty [])
           {| Resource := Some {| dockertest.Container := None |};
              Services := [sqs; s3] |}).
  reflexivity.
Defined.

Lemma started_container_options_witness :
  runOptions [s3] LocalstackName LocalstackRepository "latest" "/data"
  = {| dockertest.Repository := "localstack/localstack";
       dockertest.Tag := "latest";
       dockertest.Name := "testLocalstackName";
       dockertest.Env := ["SERVICES=s3:4566"; "DATA_DIR=/data"];
       dockertest.Mounts := ["/tmp/localstack/data:/tmp/localstack/data"];
       dockertest.PortBindings := [];
       dockertest.ExposedPorts := [] |}.
Proof.
  apply (started_container_options MockDockerWrapper [s3] LocalstackName
           LocalstackRepository "latest" "/data" (script_empty [])).
  left. reflexivity.
Defined.

(* ================================================================== *)
(** * Further properties of the readiness check                         *)
(* ================================================================== *)

Lemma fits_leb (piece : string) :
  Nat.leb MaxScanTokenSize (String.length piece) = negb (fits piece).
Proof.
  unfold fits. rewrite Nat.ltb_antisym. now rewrite negb_involutive.
Qed.

(** What the scanner yields and reports, by the lines that fit its buffer:
    a line with "Ready." is among the tokens exactly when one is among the
    lines before the first that does not fit, and the scanner reports
    [ErrTooLong] exactly when some line does not fit. *)
Lemma scan_pieces_scanned (pieces : list string) :
  existsb ready_line (fst (scan_pieces pieces))
  = existsb (fun piece => strings_Contains piece expected) (scanned pieces)
  /\ snd (scan_pieces pieces)
     = if forallb fits pieces then None else Some ErrTooLong.
Proof.
  induction pieces as [|piece rest IH]; [split; reflexivity|].
  cbn [scan_pieces scanned forallb]. rewrite fits_leb.
  destruct (fits piece); cbn [negb andb]; [|split; reflexivity].
  destruct rest as [|piece' rest'].
  - destruct piece as [|c piece]; [split; reflexivity|].
    cbn [fst snd existsb scanned forallb].
    rewrite ready_line_Contains, strings_Contains_dropCR.
    split; reflexivity.
  - destruct (scan_pieces (piece' :: rest')) as [tokens err].
    cbn [fst snd existsb] in *. destruct IH as [-> ->].
    rewrite ready_line_Contains, strings_Contains_dropCR.
    split; reflexivity.
Qed.

(** X14.  Once the client is created and the log fetched, the check
    depends on the log alone, whatever the length of its lines: it returns
    [nil] when a line with "Ready." comes before the first line of 65536
    bytes or more; otherwise "not Ready" when every line is shorter than
    that, and the scanner's error when one is not. *)
Theorem readiness_by_scanned_lines
    (env : DockerEnv) (container : docker.Container.t) (buffer : string) :
  NewClientFromEnv env = None ->
  Logs env {| docker.Container := docker.Container.ID container;
              docker.RawTerminal := true;
              docker.Stdout := true;
              docker.Stderr := true |} = (buffer, None) ->
  readiness (Some {| dockertest.Container := Some container |}) env
  = if existsb (fun line => strings_Contains line "Ready.")
         (scanned (split_lines buffer))
    then Returns None
    else if forallb fits (split_lines buffer)
         then Returns (Some "not Ready")
         else Returns (Some "reading input: bufio.Scanner: token too long").
Proof.
  intros Hclient Hlogs.
  unfold readiness. rewrite Hclient. cbn [dockertest.Container].
  rewrite Hlogs. unfold bufio_Scanner.
  destruct (scan_pieces_scanned (split_lines buffer)) as [Hready Herr].
  destruct (scan_pieces (split_lines buffer)) as [tokens scanErr].
  cbn [fst snd] in *. rewrite Hready, Herr.
  change "Ready." with expected.
  destruct (existsb (fun piece => strings_Contains piece expected)
              (scanned (split_lines buffer))); [reflexivity|].
  destruct (forallb fits (split_lines buffer)); reflexivity.
Qed.

Lemma readiness_by_scanned_lines_witness :
  readiness (Some {| dockertest.Container := Some inspected_container |})
    (env_with_log ("Starting" ++ String LF "Waiting"))
  = Returns (Some "not Ready").
Proof.
  rewrite (readiness_by_scanned_lines
             (env_with_log ("Starting" ++ String LF "Waiting"))
             inspected_container ("Starting" ++ String LF "Waiting")
             eq_refl eq_refl).
  vm_compute. reflexivity.
Defined.

Lemma split_lines_app (log more : string) :
  split_lines (log ++ String LF more)
  = (split_lines log ++ split_lines more)%list.
Proof.
  induction log as [|c log IH]; [reflexivity|].
  cbn [append split_lines].
  destruct (Ascii.eqb c LF); rewrite IH; [reflexivity|].
  destruct (split_lines log) as [|line lines] eqn:Hsplit; [|reflexivity].
  destruct log as [|c' log']; [discriminate|].
  cbn [split_lines] in Hsplit.
  destruct (Ascii.eqb c' LF); [discriminate|].
  destruct (split_lines log'); discriminate.
Qed.

Lemma scanned_app_Ready (pieces more : list string) :
  existsb (fun piece => strings_Contains piece expected) (scanned pieces)
  = true ->
  existsb (fun piece => strings_Contains piece expected)
          (scanned (pieces ++ more))
  = true.
Proof.
  induction pieces as [|piece rest IH]; [discriminate|].
  cbn [app scanned]. destruct (fits piece); [|discriminate].
  cbn [existsb]. destruct (strings_Contains piece expected); [reflexivity|].
  exact IH.
Qed.

Lemma scanned_snoc_empty (pieces : list string) :
  existsb (fun piece => strings_Contains piece expected)
          (scanned (pieces ++ [EmptyString]))
  = existsb (fun piece => strings_Contains piece expected) (scanned pieces).
Proof.
  induction pieces as [|piece rest IH].
  - cbn [app scanned]. destruct (fits ""); reflexivity.
  - cbn [app scanned]. destruct (fits piece); [|reflexivity].
    cbn [existsb]. now rewrite IH.
Qed.

(** X15.  Readiness, once logged, stays: if the check returns [nil] on a
    log that ends with a line feed, it returns [nil] on every log that
    continues it, whatever is appended. *)
Theorem readiness_stays_ready
    (env env' : DockerEnv) (container : docker.Container.t)
    (log more : string) :
  NewClientFromEnv env = None ->
  Logs env {| docker.Container := docker.Container.ID container;
              docker.RawTerminal := true;
              docker.Stdout := true;
              docker.Stderr := true |} = (log ++ String LF "", None) ->
  NewClientFromEnv env' = None ->
  Logs env' {| docker.Container := docker.Container.ID container;
               docker.RawTerminal := true;
               docker.Stdout := true;
               docker.Stderr := true |} = (log ++ String LF more, None) ->
  readiness (Some {| dockertest.Container := Some container |}) env
  = Returns None ->
  readiness (Some {| dockertest.Container := Some container |}) env'
  = Returns None.
Proof.
  intros Hclient Hlogs Hclient' Hlogs'.
  unfold readiness. rewrite Hclient, Hclient'. cbn [dockertest.Container].
  rewrite Hlogs, Hlogs'. unfold bufio_Scanner.
  rewrite !split_lines_app.
  destruct (scan_pieces_scanned (split_lines log ++ split_lines ""))
    as [Hready Herr].
  destruct (scan_pieces_scanned (split_lines log ++ split_lines more))
    as [Hready' _].
  destruct (scan_pieces (split_lines log ++ split_lines ""))
    as [tokens scanErr].
  destruct (scan_pieces (split_lines log ++ split_lines more))
    as [tokens' scanErr'].
  cbn [fst snd] in *. rewrite Hready, Hready'.
  change (split_lines "") with [EmptyString].
  rewrite scanned_snoc_empty.
  destruct (existsb (fun piece => strings_Contains piece expected)
              (scanned (split_lines log))) eqn:Hex.
  - now rewrite (scanned_app_Ready _ _ Hex).
  - rewrite Herr.
    match goal with
    | |- context [forallb fits ?l] => destruct (forallb fits l)
    end; discriminate.
Qed.

Lemma readiness_stays_ready_witness :
  readiness (Some {| dockertest.Container := Some inspected_container |})
    (env_with_log ("Ready." ++ String LF "Shutting down"))
  = Returns None.
Proof.
  apply (readiness_stays_ready
           (env_with_log ("Ready." ++ String LF ""))
           (env_with_log ("Ready." ++ String LF "Shutting down"))
           inspected_container "Ready." "Shutting down");
    reflexivity.
Defined.

(* ================================================================== *)
(** * Requested services and the endpoints they resolve to              *)
(* ================================================================== *)

Section ResolverRoundTrip.

Variable OptFn : Type.
Variable GetHostPort : dockertest.Resource -> string -> string.
Variable DefaultResolver_EndpointFor :
  string -> string -> list OptFn ->
  endpoints.ResolvedEndpoint * option error.

(** X16.  Every descriptor that [NewLocalstackService] hands out, under any
    name but "secrestmanager", can be reached: for a handle with a resource
    whose services include it there is an SDK identifier that
    [availableServices] maps to its name, and [EndpointFor] resolves that
    identifier to the URL "http://" followed by what [GetHostPort] gives
    for the handle's resource and "4566/tcp", with a nil error. *)
Theorem requested_service_resolves (ls : Localstack) (name : string)
    (service : LocalstackService) (resource : dockertest.Resource)
    (region : string) (optFns : list OptFn) :
  NewLocalstackService name = (Some service, None) ->
  name <> "secrestmanager" ->
  In service (Services ls) ->
  Resource ls = Some resource ->
  exists identifier,
    map_index availableServices identifier = name
    /\ EndpointFor GetHostPort DefaultResolver_EndpointFor
         ls identifier region optFns
       = Returned
           ({| endpoints.URL :=
                 "http://" ++ GetHostPort resource "4566/tcp";
               endpoints.PartitionID := "";
               endpoints.SigningRegion := "";
               endpoints.SigningName := "";
               endpoints.SigningNameDerived := false;
               endpoints.SigningMethod := "" |}, None).
Proof.
  intros Hnew Hname Hin Hres.
  apply NewLocalstackService_descriptor in Hnew.
  destruct Hnew as [-> Hallowed].
  assert (Hc : Contains (Services ls) name = true).
  { apply Contains_true_iff. apply in_map_iff.
    exists (descriptor name). split; [reflexivity | exact Hin]. }
  assert (Hkey : exists identifier,
             In identifier (map_keys availableServices)
             /\ map_index availableServices identifier = name).
  { clear Hin Hc. unfold allowed_services in Hallowed.
    cbn [In] in Hallowed.
    repeat (destruct Hallowed as [<- | Hallowed];
            [first [ now elim Hname
                   | match goal with
                     | |- exists _, _ /\ _ = ?n =>
                         exists n; split; [cbn; tauto | reflexivity]
                     end
                   | exists "streams.dynamodb"; split;
                     [cbn; tauto | reflexivity]
                   | exists "email"; split; [cbn; tauto | reflexivity]
                   | exists "monitoring"; split; [cbn; tauto | reflexivity]
                   | exists "states"; split; [cbn; tauto | reflexivity] ]
            |]).
    contradiction. }
  destruct Hkey as (identifier & Hin' & Hmap).
  exists identifier. split; [exact Hmap|].
  unfold EndpointFor.
  rewrite (@EndpointFor_range_hit OptFn GetHostPort
             DefaultResolver_EndpointFor (map_keys availableServices) ls
             identifier region optFns Hin');
    [|now rewrite Hmap].
  unfold localstack_endpoint. now rewrite Hres.
Qed.

(** X17.  The older [EndpointFor] does not look at the handle's services:
    whatever collection the handle holds, it resolves every identifier of
    its list, for a handle with a resource, to the URL "http://" followed
    by what [GetHostPort] gives for that resource and "4566/tcp" (and
    panics in [GetHostPort] for a handle whose [Resource] is nil), and it
    hands every other identifier to the default resolver. *)
Theorem Legacy_EndpointFor_ignores_Services (l : Localstack)
    (service region : string) (optFns : list OptFn) :
  (In service Legacy.resolved_services ->
   (forall resource : dockertest.Resource,
       Resource l = Some resource ->
       Legacy.EndpointFor GetHostPort DefaultResolver_EndpointFor
         l service region optFns
       = Returned
           ({| endpoints.URL :=
                 "http://" ++ GetHostPort resource "4566/tcp";
               endpoints.PartitionID := "";
               endpoints.SigningRegion := "";
               endpoints.SigningName := "";
               endpoints.SigningNameDerived := false;
               endpoints.SigningMethod := "" |}, None))
   /\ (Resource l = None ->
       Legacy.EndpointFor GetHostPort DefaultResolver_EndpointFor
         l service region optFns
       = NilPanic))
  /\ (~ In service Legacy.resolved_services ->
      Legacy.EndpointFor GetHostPort DefaultResolver_EndpointFor
        l service region optFns
      = Returned (DefaultResolver_EndpointFor service region optFns))
  /\ forall services : LocalstackServiceCollection,
       Legacy.EndpointFor GetHostPort DefaultResolver_EndpointFor
         {| Resource := Resource l; Services := services |}
         service region optFns
       = Legacy.EndpointFor GetHostPort DefaultResolver_EndpointFor
           l service region optFns.
Proof.
  unfold Legacy.EndpointFor.
  generalize Legacy.resolved_services as names.
  intros names. split; [|split].
  - intros Hin.
    assert (Hhit : Legacy.EndpointFor_range GetHostPort
                     DefaultResolver_EndpointFor names l service region
                     optFns
                   = localstack_endpoint GetHostPort l).
    { induction names as [|v rest IH]; cbn [In Legacy.EndpointFor_range] in *;
        [contradiction|].
      destruct Hin as [-> | Hin]; [now rewrite String.eqb_refl|].
      destruct (String.eqb v service); [reflexivity | now apply IH]. }
    rewrite Hhit. unfold localstack_endpoint.
    split; [intros resource Hres | intros Hres]; now rewrite Hres.
  - induction names as [|v rest IH]; cbn [In Legacy.EndpointFor_range];
      [reflexivity|].
    intros Hnot.
    destruct (String.eqb_spec v service) as [Heq | Hne]; [tauto|].
    apply IH. tauto.
  - intros services.
    induction names as [|v rest IH]; cbn [Legacy.EndpointFor_range];
      [reflexivity|].
    now rewrite IH.
Qed.

End ResolverRoundTrip.

Lemma requested_service_resolves_witness :
  exists identifier,
    map_index availableServices identifier = "ses"
    /\ EndpointFor sample_GetHostPort sample_DefaultResolver
         {| Resource := Some inspected_resource;
            Services := [s3; descriptor "ses"] |}
         identifier "us-east-1" []
       = Returned
           ({| endpoints.URL := "http://1.0.0.0:9566";
               endpoints.PartitionID := "";
               endpoints.SigningRegion := "";
               endpoints.SigningName := "";
               endpoints.SigningNameDerived := false;
               endpoints.SigningMethod := "" |}, None).
Proof.
  apply (requested_service_resolves unit sample_GetHostPort
           sample_DefaultResolver
           {| Resource := Some inspected_resource;
              Services := [s3; descriptor "ses"] |}
           "ses" (descriptor "ses") inspected_resource "us-east-1" []).
  - reflexivity.
  - discriminate.
  - right. left. reflexivity.
  - reflexivity.
Defined.

Lemma Legacy_EndpointFor_ignores_Services_witness :
  Legacy.EndpointFor sample_GetHostPort sample_DefaultResolver
    {| Resource := Some inspected_resource; Services := [] |}
    "s3" "us-east-1" []
  = Returned
      ({| endpoints.URL := "http://1.0.0.0:9566";
          endpoints.PartitionID := "";
          endpoints.SigningRegion := "";
          endpoints.SigningName := "";
          endpoints.SigningNameDerived := false;
          endpoints.SigningMethod := "" |}, None).
Proof.
  destruct (Legacy_EndpointFor_ignores_Services unit sample_GetHostPort
              sample_DefaultResolver
              {| Resource := Some inspected_resource; Services := [] |}
              "s3" "us-east-1" []) as [Hlisted _].
  destruct Hlisted as [Hurl _]; [cbn; tauto|].
  apply (Hurl inspected_resource). reflexivity.
Defined.

(* ================================================================== *)
(** * The older copy of localstack.go against the package's             *)
(* ================================================================== *)

Section LegacyRuns.

Context {W : Type} (d : DockerWrapper W).

Lemma Legacy_getLocalstack_names_agrees (c : docker.APIContainers)
    (names : list string) (name : string)
    (next next' : Prog (found * option error)) (w : W) :
  (fst (fst (run d next' w)) = fst (fst (run d next w))
   /\ snd (run d next' w) = snd (run d next w)
   /\ fst (snd (fst (run d next' w))) = fst (snd (fst (run d next w)))
   /\ (snd (snd (fst (run d next' w))) = None
       <-> snd (snd (fst (run d next w))) = None)) ->
  let p' := Legacy.getLocalstack_names c names name next' in
  let p := getLocalstack_names c names name next in
  fst (fst (run d p' w)) = fst (fst (run d p w))
  /\ snd (run d p' w) = snd (run d p w)
  /\ fst (snd (fst (run d p' w))) = fst (snd (fst (run d p w)))
  /\ (snd (snd (fst (run d p' w))) = None
      <-> snd (snd (fst (run d p w))) = None).
Proof.
  intros Hnext. cbn zeta.
  induction names as [|internalName rest IH];
    cbn [Legacy.getLocalstack_names getLocalstack_names]; [exact Hnext|].
  destruct (String.eqb internalName ("/" ++ name)); [|exact IH].
  cbn [run].
  destruct (doInspectContainer d (docker.ID c) w)
    as [[container [e|]] w1]; cbn; intuition discriminate.
Qed.

Lemma Legacy_getLocalstack_containers_agrees
    (containers : list docker.APIContainers) (name repository tag : string)
    (w : W) :
  let p' := Legacy.getLocalstack_containers containers name repository tag in
  let p := getLocalstack_containers containers name repository tag in
  fst (fst (run d p' w)) = fst (fst (run d p w))
  /\ snd (run d p' w) = snd (run d p w)
  /\ fst (snd (fst (run d p' w))) = fst (snd (fst (run d p w)))
  /\ (snd (snd (fst (run d p' w))) = None
      <-> snd (snd (fst (run d p w))) = None).
Proof.
  cbn zeta.
  induction containers as [|c rest IH];
    cbn [Legacy.getLocalstack_containers getLocalstack_containers].
  - cbn. tauto.
  - destruct (String.eqb (docker.Image c) (repository ++ ":" ++ tag));
      [|exact IH].
    now apply Legacy_getLocalstack_names_agrees.
Qed.

Lemma Legacy_getLocalstack_same_calls
    (services : LocalstackServiceCollection)
    (name repository tag : string) (w : W) :
  let p' := Legacy.getLocalstack services name repository tag in
  let p := getLocalstack services name repository tag in
  calls_of d p' w = calls_of d p w
  /\ fst (result_of d p' w) = fst (result_of d p w)
  /\ (snd (result_of d p' w) = None <-> snd (result_of d p w) = None).
Proof.
  cbn zeta. unfold calls_of, result_of, Legacy.getLocalstack, getLocalstack.
  destruct (String.eqb_spec name "") as [-> | Hname]; cbn [negb].
  - cbn. intuition congruence.
  - cbn [run].
    destruct (doListContainers d {| docker.All := true |} w)
      as [[containers [e|]] w1]; cbn [listed].
    + cbn. split; [reflexivity|]. split; [reflexivity|].
      intuition discriminate.
    + pose proof (Legacy_getLocalstack_containers_agrees containers name
                    repository tag w1) as H.
      cbn zeta in H.
      destruct (run d (Legacy.getLocalstack_containers containers name
                         repository tag) w1) as [[calls' r'] w2'].
      destruct (run d (getLocalstack_containers containers name repository
                         tag) w1) as [[calls r] w2].
      cbn [fst snd] in *. destruct H as (-> & _ & Hres & Herr).
      split; [reflexivity|]. split; [exact Hres | exact Herr].
Qed.

(** X18.  The older [getLocalstack] and the package's run alike on every
    adapter: they make the same calls, with the same answers, and return
    the same resource, and one returns an error exactly when the other
    does.  The texts of the errors differ: for a failed listing the older
    one starts with "Unable", the package's with "unable". *)
Theorem Legacy_getLocalstack_agrees (services : LocalstackServiceCollection)
    (name repository tag : string) (w : W) :
  let p' := Legacy.getLocalstack services name repository tag in
  let p := getLocalstack services name repository tag in
  calls_of d p' w = calls_of d p w
  /\ fst (result_of d p' w) = fst (result_of d p w)
  /\ (snd (result_of d p' w) = None <-> snd (result_of d p w) = None)
  /\ (forall containers e w1,
        name <> "" ->
        doListContainers d {| docker.All := true |} w
        = ((containers, Some e), w1) ->
        result_of d p' w
        = (None, Some ("Unable to retrieve docker containers: " ++ e))
        /\ result_of d p w
           = (None, Some ("unable to retrieve docker containers: " ++ e))).
Proof.
  cbn zeta.
  destruct (Legacy_getLocalstack_same_calls services name repository tag w)
    as (Hcalls & Hres & Herr).
  split; [exact Hcalls|]. split; [exact Hres|]. split; [exact Herr|].
  intros containers e w1 Hname Hlist.
  unfold result_of, Legacy.getLocalstack, getLocalstack.
  destruct (String.eqb_spec name "") as [Heq | _]; [contradiction|].
  cbn [negb run]. rewrite Hlist. split; reflexivity.
Qed.

(** X19.  In the older copy a started container always publishes port
    4566 and never mounts anything: whatever the name, its options hold
    the repository, tag and name given, the binding of port "4566" to host
    port "4566", the exposed port "4566" and no mount; the environment is
    "SERVICES=" and the service map, followed by "DATA_DIR=" and the data
    directory when that is not empty. *)
Theorem Legacy_started_container_options
    (services : LocalstackServiceCollection)
    (name repository tag data : string) (w : W)
    (options : dockertest.RunOptions) :
  In options
     (run_options
        (calls_of d
           (Legacy.NewPersistentSpecificLocalstack services name repository
              tag data) w)) ->
  options
  = {| dockertest.Repository := repository;
       dockertest.Tag := tag;
       dockertest.Name := name;
       dockertest.Env :=
         ("SERVICES=" ++ GetServiceMap services)
         :: match data with
            | EmptyString => []
            | _ => ["DATA_DIR=" ++ data]
            end;
       dockertest.Mounts := [];
       dockertest.PortBindings :=
         [("4566", [{| docker.HostIP := ""; docker.HostPort := "4566" |}])];
       dockertest.ExposedPorts := ["4566"] |}.
Proof.
  unfold Legacy.NewPersistentSpecificLocalstack,
    Legacy.newPersistentLocalstack, calls_of.
  rewrite run_bind.
  destruct (Legacy_getLocalstack_same_calls services name repository tag w)
    as (Hcalls & _).
  destruct (discovery_shaped_getLocalstack d services name repository tag w)
    as (_ & _ & Hopts & _).
  rewrite <- Hcalls in Hopts. unfold calls_of in Hopts.
  destruct (run d (Legacy.getLocalstack services name repository tag) w)
    as [[calls0 [localstack err]] w0].
  cbn [fst] in Hopts.
  destruct err as [e|]; [cbn [run fst]; rewrite app_nil_r, Hopts;
                         intros []|].
  destruct localstack as [resource|].
  - pose proof (Legacy_waitForServices_run_options d (Some resource)
                  services services w0) as Hwait.
    unfold calls_of in Hwait.
    destruct (run d (Legacy.waitForServices (Some resource) services
                       services) w0) as [[calls1 r] w1].
    cbn [fst] in *. rewrite run_options_app, Hopts, Hwait. intros [].
  - cbn [run].
    destruct (doRunWithOptions d
                (Legacy.runOptions services name repository tag data) w0)
      as [[started_resource [e|]] w1].
    + cbn [run fst]. rewrite run_options_app, Hopts.
      cbn [app run_options]. intros [<- | []].
      unfold Legacy.runOptions. destruct data as [|c data]; reflexivity.
    + pose proof (Legacy_waitForServices_run_options d started_resource
                    services services w1) as Hwait.
      unfold calls_of in Hwait.
      destruct (run d (Legacy.waitForServices started_resource services
                         services) w1) as [[calls1 r] w2].
      cbn [fst] in *. rewrite run_options_app, Hopts.
      cbn [app run_options]. rewrite Hwait. intros [<- | []].
      unfold Legacy.runOptions. destruct data as [|c data]; reflexivity.
Qed.

End LegacyRuns.

Lemma Legacy_started_container_options_witness :
  Legacy.runOptions [s3] LocalstackName "localstack/localstack" "latest"
    "/data"
  = {| dockertest.Repository := "localstack/localstack";
       dockertest.Tag := "latest";
       dockertest.Name := "testLocalstackName";
       dockertest.Env := ["SERVICES=s3:4566"; "DATA_DIR=/data"];
       dockertest.Mounts := [];
       dockertest.PortBindings :=
         [("4566", [{| docker.HostIP := ""; docker.HostPort := "4566" |}])];
       dockertest.ExposedPorts := ["4566"] |}.
Proof.
  apply (Legacy_started_container_options MockDockerWrapper [s3]
           LocalstackName "localstack/localstack" "latest" "/data"
           (script_empty [])).
  left. reflexivity.
Defined.

(** ** The scenarios of the package's tests, once more *)

Lemma getLocalstack_lists_once_witness :
  listings
    (calls_of MockDockerWrapper
       (getLocalstack [sqs; s3] LocalstackName LocalstackRepository
          LocalstackTag) script_list_error)
  = [{| docker.All := true |}].
Proof.
  destruct (getLocalstack_lists_once MockDockerWrapper [sqs; s3]
              LocalstackName LocalstackRepository LocalstackTag
              script_list_error) as (_ & Hnamed & _).
  destruct Hnamed as (answer & rest & Hcalls & Hrest & _);
    [discriminate|].
  rewrite Hcalls. cbn [listings]. now rewrite Hrest.
Defined.

Lemma newPersistentLocalstack_call_order_witness :
  exists answer polls,
    calls_of MockDockerWrapper
      (newPersistentLocalstack [sqs; s3] "" LocalstackRepository "latest" "")
      (script_empty [])
    = CallRunWithOptions
        (runOptions [sqs; s3] "" LocalstackRepository "latest" "") answer
      :: polls
    /\ forallb is_Retry polls = true.
Proof.
  destruct (newPersistentLocalstack_call_order MockDockerWrapper [sqs; s3]
              "" LocalstackRepository "latest" "" (script_empty []))
    as (create & polls & Hcalls & Hpolls & Hcreate & _).
  destruct (Hcreate eq_refl) as (answer & -> & _).
  exists answer, polls. split; [exact Hcalls | exact Hpolls].
Defined.

Lemma Legacy_getLocalstack_agrees_witness :
  result_of MockDockerWrapper
    (Legacy.getLocalstack [sqs; s3] LocalstackName LocalstackRepository
       LocalstackTag) script_list_error
  = (None, Some "Unable to retrieve docker containers: dummy Error")
  /\ result_of MockDockerWrapper
       (getLocalstack [sqs; s3] LocalstackName LocalstackRepository
          LocalstackTag) script_list_error
     = (None, Some "unable to retrieve docker containers: dummy Error").
Proof.
  destruct (Legacy_getLocalstack_agrees MockDockerWrapper [sqs; s3]
              LocalstackName LocalstackRepository LocalstackTag
              script_list_error) as (_ & _ & _ & Herr).
  apply (Herr [] "dummy Error" script_list_error);
    [discriminate | reflexivity].
Defined.
